(** * AX.25 framing and the Reed-Solomon (255,223) codec of rs-and-fx.25

    A shallow embedding of [ax25_packet.c], [rs_encoding_binary.c] and
    [rs_decoding_binary.c].  Bytes ([uint8_t]) and the C integers are
    values of [Z]; every conversion to a narrower unsigned type is written
    out as a [mod].  Buffers are lists of bytes. *)

From Stdlib Require Import ZArith List Bool Lia String Ascii.
Import ListNotations.

Local Open Scope Z_scope.

(** ** Fixed-width conversions *)

Definition u8 (x : Z) : Z := x mod 256.
Definition u16 (x : Z) : Z := x mod 65536.

(** Reading [buf[i]] from a buffer held as a list.  Apart from [gf_exp],
    which has a reader of its own below, the sources index their arrays
    inside the bounds they declare them with. *)
Definition byte_at (buf : list Z) (i : Z) : Z := nth (Z.to_nat i) buf 0.

(** [buf[i] = v]; the sources only store inside the buffers they declare,
    a store outside the list leaves it as it is. *)
Fixpoint store_nat (buf : list Z) (i : nat) (v : Z) : list Z :=
  match buf, i with
  | [], _ => []
  | _ :: t, O => v :: t
  | h :: t, S i' => h :: store_nat t i' v
  end.

Definition store (buf : list Z) (i : Z) (v : Z) : list Z :=
  if i <? 0 then buf else store_nat buf (Z.to_nat i) v.

(** A counted [for] loop, [for (i = start; ...; i += step) s = body i s],
    run for [n] iterations. *)
Fixpoint for_loop {S : Type} (n : nat) (start step : Z)
    (body : Z -> S -> S) (s : S) : S :=
  match n with
  | O => s
  | Datatypes.S n' => for_loop n' (start + step) step body (body start s)
  end.

(** The indices [0, 1, ..., n-1] of a loop. *)
Definition indices (n : nat) : list Z := map Z.of_nat (seq 0 n).

(** ** AX.25 frames ([ax25_packet.c]) *)

Module AX25.

Definition AX25_FLAG : Z := 0x7E.
Definition AX_25_CONTROL : Z := 0x03.
Definition PID_NoL3 : Z := 0xF0.
Definition MAX_PAYLOAD : Z := 256.

Inductive frame_type_t : Type :=
| BEACON_FRAME
| FRAME_DATA_HEADER
| FRAME_DATA_FIRST
| FRAME_DATA
| FRAME_DATA_END
| FRAME_MESSAGE.

(** The enumerators count up from [BEACON_FRAME = 0]. *)
Definition frame_type_code (t : frame_type_t) : Z :=
  match t with
  | BEACON_FRAME => 0
  | FRAME_DATA_HEADER => 1
  | FRAME_DATA_FIRST => 2
  | FRAME_DATA => 3
  | FRAME_DATA_END => 4
  | FRAME_MESSAGE => 5
  end.

Definition is_message (t : frame_type_t) : bool :=
  match t with FRAME_MESSAGE => true | _ => false end.

Record ax25_config_t : Type := {
  source_call : string;
  dest_call : string;
  source : Z;
  dest : Z
}.

(** The characters of a C string as byte values. *)
Fixpoint chars (s : string) : list Z :=
  match s with
  | EmptyString => []
  | String c rest => Z.of_nat (nat_of_ascii c) :: chars rest
  end.

Definition strlen (s : string) : Z := Z.of_nat (List.length (chars s)).

(** [encode_address]: six shifted characters, blank filled, then the
    SSID byte [(ssid << 1) | (last ? 1 : 0)]. *)
Definition encode_address (call : string) (ssid : Z) (last : Z) : list Z :=
  let call_len := strlen call in
  map (fun i => if i <? call_len
                then u8 (Z.shiftl (byte_at (chars call) i) 1)
                else Z.shiftl 32 1)
      [0; 1; 2; 3; 4; 5]
  ++ [u8 (Z.lor (Z.shiftl ssid 1) (if last =? 0 then 0 else 1))].

(** The eight shifts of the inner loop of [calculate_crc]. *)
Definition crc_shift (crc : Z) : Z :=
  if Z.land crc 0x8000 =? 0
  then u16 (Z.shiftl crc 1)
  else u16 (Z.lxor (Z.shiftl crc 1) 0x1021).

Definition crc_byte (crc : Z) (b : Z) : Z :=
  for_loop 8 0 1 (fun _ c => crc_shift c) (u16 (Z.lxor crc (Z.shiftl b 8))).

(** [calculate_crc(data, length)] reads the first [length] bytes. *)
Definition calculate_crc (data : list Z) (length : Z) : Z :=
  u16 (Z.lxor (fold_left crc_byte (firstn (Z.to_nat length) data) 0xFFFF) 0xFFFF).

Definition frame_header (type : frame_type_t) (sequence total : Z) : list Z :=
  [ u8 (frame_type_code type);
    Z.land (Z.shiftr sequence 8) 0xFF;
    Z.land sequence 0xFF;
    Z.land (Z.shiftr total 8) 0xFF;
    Z.land total 0xFF ].

(** [frame_gen] fills [frame_buffer] from index 0 and returns [position];
    the result pairs that count with the bytes written.  [payload] is the
    memory the pointer designates, of which [payload_len] bytes are copied. *)
Definition frame_gen (config : ax25_config_t) (type : frame_type_t)
    (sequence total : Z) (payload : list Z) (payload_len : Z) : Z * list Z :=
  let position := 0 in
  let buf := [AX25_FLAG] in
  let position := position + 1 in
  let buf := buf ++ encode_address (dest_call config) (dest config) 0 in
  let position := position + 7 in
  let buf := buf ++ encode_address (source_call config) (source config) 1 in
  let position := position + 7 in
  let buf := buf ++ [AX_25_CONTROL] in
  let position := position + 1 in
  let buf := buf ++ [PID_NoL3] in
  let position := position + 1 in
  let '(position, buf) :=
    if is_message type then (position, buf)
    else (position + 5, buf ++ frame_header type sequence total) in
  let '(position, buf) :=
    if 0 <? payload_len
    then (position + payload_len, buf ++ firstn (Z.to_nat payload_len) payload)
    else (position, buf) in
  let fcs := calculate_crc (skipn 1 buf) (position - 1) in
  let buf := buf ++ [Z.land fcs 0xFF] in
  let position := position + 1 in
  let buf := buf ++ [Z.land (Z.shiftr fcs 8) 0xFF] in
  let position := position + 1 in
  let buf := buf ++ [AX25_FLAG] in
  let position := position + 1 in
  (position, buf).

Definition create_beacon_frame (config : ax25_config_t) (message : string) : Z * list Z :=
  frame_gen config BEACON_FRAME 0 1 (chars message) (strlen message).

Definition create_message_frame (config : ax25_config_t) (message : string) : Z * list Z :=
  frame_gen config FRAME_MESSAGE 0 1 (chars message) (strlen message).

(** What one iteration of the loop of [packetization] passes to
    [frame_gen]: the [int]s [packet] and [total_packets] are converted to
    the [uint16_t] parameters [sequence] and [total]. *)
Record frame_call : Type := {
  fc_type : frame_type_t;
  fc_sequence : Z;
  fc_total : Z;
  fc_offset : Z;
  fc_chunk_size : Z
}.

Definition packet_call (data_length total_packets packet : Z) : frame_call :=
  let data_offset := packet * MAX_PAYLOAD in
  let chunk_size :=
    if data_length <? data_offset + MAX_PAYLOAD
    then data_length - data_offset else MAX_PAYLOAD in
  let frame_type :=
    if total_packets =? 1 then FRAME_DATA_HEADER
    else if packet =? 0 then FRAME_DATA_FIRST
    else if packet =? total_packets - 1 then FRAME_DATA_END
    else FRAME_DATA in
  {| fc_type := frame_type;
     fc_sequence := u16 packet;
     fc_total := u16 total_packets;
     fc_offset := data_offset;
     fc_chunk_size := chunk_size |}.

(** The bytes [frame_gen] copies for that call: [chunk_size] bytes at
    [data + data_offset]. *)
Definition chunk_of (data : list Z) (c : frame_call) : list Z :=
  firstn (Z.to_nat (fc_chunk_size c)) (skipn (Z.to_nat (fc_offset c)) data).

(** [(data_length + MAX_PAYLOAD - 1) / MAX_PAYLOAD].  The sum is an
    [int], and [data_length + MAX_PAYLOAD] is made first: it is the sum
    written here while [data_length <= INT_MAX - 256 = 2147483391];
    what is proved of [packetization] for a nonempty input is proved
    under that bound. *)
Definition total_packets_of (data_length : Z) : Z :=
  Z.quot (data_length + MAX_PAYLOAD - 1) MAX_PAYLOAD.

(** [packetization] returns [total_packets]; the second component lists
    what [write_frame_hex] receives, in order: the packet number and the
    frame (its length and bytes). *)
Definition packetization (config : ax25_config_t) (data : list Z)
    (data_length : Z) : Z * list (Z * (Z * list Z)) :=
  let total_packets := total_packets_of data_length in
  (total_packets,
   for_loop (Z.to_nat total_packets) 0 1
     (fun packet output =>
        let c := packet_call data_length total_packets packet in
        let frame :=
          frame_gen config (fc_type c) (fc_sequence c) (fc_total c)
                    (skipn (Z.to_nat (fc_offset c)) data) (fc_chunk_size c) in
        output ++ [(packet, frame)])
     []).

(** The configuration [main] sets up. *)
Definition n0call_to_cq : ax25_config_t :=
  {| source_call := "N0CALL"; dest_call := "CQ"; source := 0; dest := 0 |}.

(** The frame prefix that scenario S1 of the specification lists. *)
Definition claimed_beacon_prefix : list Z :=
  [0x7E; 0xA6; 0x84; 0x40; 0x40; 0x40; 0x40; 0x60;
   0x9C; 0x60; 0x86; 0x82; 0x98; 0x98; 0x61;
   0x03; 0xF0; 0x00; 0x00; 0x00; 0x00; 0x01;
   0x48; 0x45; 0x4C; 0x4C; 0x4F].

(** The bytes of a frame that lie after the opening flag and before the
    FCS. *)
Definition frame_body (config : ax25_config_t) (type : frame_type_t)
    (sequence total : Z) (payload : list Z) : list Z :=
  encode_address (dest_call config) (dest config) 0
  ++ encode_address (source_call config) (source config) 1
  ++ [0x03; 0xF0]
  ++ (if is_message type then [] else frame_header type sequence total)
  ++ payload.

End AX25.


(** ** Reed-Solomon (255,223) over GF(2^8)
    ([rs_encoding_binary.c], [rs_decoding_binary.c]) *)

Module RS.

Definition N : Z := 255.
Definition K : Z := 223.
Definition T : Z := 16.
Definition PARITY : Z := 32.
Definition PRIM_POLY : Z := 0x11D.
Definition ALPHA : Z := 0x02.

(** [init_galois_field], the same in both files, on the zero-initialised
    globals [gf_exp[512]] and [gf_log[256]]; [temp] is a [uint16_t]. *)
Definition init_galois_field : list Z * list Z :=
  let '(gf_exp, gf_log, _) :=
    for_loop 255 0 1
      (fun i '(gf_exp, gf_log, temp) =>
         let gf_exp := store gf_exp i (u8 temp) in
         let gf_log := store gf_log temp i in
         let temp := u16 (Z.shiftl temp 1) in
         let temp := if Z.land temp 0x100 =? 0 then temp
                     else u16 (Z.lxor temp PRIM_POLY) in
         (gf_exp, gf_log, temp))
      (repeat 0 512, repeat 0 256, 1) in
  let gf_exp :=
    for_loop 257 255 1 (fun i gf_exp => store gf_exp i (byte_at gf_exp (i - 255)))
      gf_exp in
  let gf_log := store gf_log 0 255 in
  (gf_exp, gf_log).

Definition gf_exp : list Z := Eval vm_compute in fst init_galois_field.
Definition gf_log : list Z := Eval vm_compute in snd init_galois_field.

Definition in_gf_exp (i : Z) : bool := (0 <=? i) && (i <? 512).

Section Codec.

(** [gf_exp] is indexed by [int] expressions, and nothing in the code
    keeps them inside [0, 512).  C leaves a read outside the array
    undefined; on the flat memory the program runs in it yields the byte
    stored at that address.  [stray] stands for that memory: it is a
    parameter of the codec, and every result below holds for all of its
    contents. *)
Variable stray : Z -> Z.

Definition gf_exp_at (i : Z) : Z :=
  if in_gf_exp i then byte_at gf_exp i else u8 (stray i).

(** [gf_log] is only ever indexed by a [uint8_t]. *)
Definition gf_log_at (a : Z) : Z := byte_at gf_log a.

Definition gf_mult (a b : Z) : Z :=
  if (a =? 0) || (b =? 0) then 0 else gf_exp_at (gf_log_at a + gf_log_at b).

(** [gf_div] of the decoder. *)
Definition gf_div (a b : Z) : Z :=
  if b =? 0 then 0
  else if a =? 0 then 0 else gf_exp_at (gf_log_at a + 255 - gf_log_at b).

(** The index [gf_pow] reads at for a nonzero base; [%] truncates
    towards zero, as [Z.rem] does.  The product is an [int]: no entry
    of [gf_log] is above 255, so it is the product written here while
    [-8421504 <= exp <= 8421504] (255 times that is below [INT_MAX]),
    which holds of every exponent the codec passes; what is proved of
    [gf_pow] for any exponent is proved within that bound. *)
Definition gf_pow_index (base exp : Z) : Z := Z.rem (gf_log_at base * exp) 255.

Definition gf_pow (base exp : Z) : Z :=
  if base =? 0 then (if exp =? 0 then 1 else 0)
  else gf_exp_at (gf_pow_index base exp).

(** *** Encoder *)

Definition generate_polynomial : list Z :=
  let generator := store (repeat 0 33) 0 1 in
  for_loop 32 0 1
    (fun i generator =>
       let alpha_i := gf_pow ALPHA i in
       let generator :=
         for_loop (Z.to_nat (i + 1)) (i + 1) (-1)
           (fun j generator =>
              store generator j
                (Z.lxor (byte_at generator (j - 1))
                        (gf_mult (byte_at generator j) alpha_i)))
           generator in
       store generator 0 (gf_mult (byte_at generator 0) alpha_i))
    generator.

Definition generator : list Z := Eval vm_compute in generate_polynomial.

Definition rs_encode_block (data : list Z) : list Z :=
  let remainder := repeat 0 32 in
  let codeword := firstn (Z.to_nat K) data in
  let remainder :=
    for_loop (Z.to_nat K) 0 1
      (fun i remainder =>
         let feedback := Z.lxor (byte_at data i) (byte_at remainder (PARITY - 1)) in
         let remainder :=
           for_loop (Z.to_nat (PARITY - 1)) (PARITY - 1) (-1)
             (fun j remainder =>
                store remainder j
                  (Z.lxor (byte_at remainder (j - 1))
                          (gf_mult (byte_at generator j) feedback)))
             remainder in
         store remainder 0 (gf_mult (byte_at generator 0) feedback))
      remainder in
  codeword ++ firstn (Z.to_nat PARITY) remainder.

(** *** Decoder *)

Definition compute_syndromes (received : list Z) : list Z :=
  for_loop (Z.to_nat PARITY) 0 1
    (fun i syndromes =>
       let syndromes := store syndromes i 0 in
       let alpha_i := gf_pow ALPHA i in
       for_loop (Z.to_nat N) 0 1
         (fun j syndromes =>
            store syndromes i
              (Z.lxor (byte_at syndromes i)
                      (gf_mult (byte_at received j) (gf_pow alpha_i j))))
         syndromes)
    (repeat 0 32).

(** The variables the main loop of [berlekamp_massey] carries. *)
Record bm_state : Type := {
  bm_lambda : list Z;
  bm_prev_lambda : list Z;
  bm_deg_lambda : Z;
  bm_deg_prev : Z
}.

Definition bm_step (syndromes : list Z) (k : Z) (st : bm_state) : bm_state :=
  let lambda := bm_lambda st in
  let prev_lambda := bm_prev_lambda st in
  let deg_lambda := bm_deg_lambda st in
  let deg_prev := bm_deg_prev st in
  let disc :=
    for_loop (Z.to_nat deg_lambda) 1 1
      (fun i disc =>
         Z.lxor disc (gf_mult (byte_at lambda i) (byte_at syndromes (k - i))))
      (byte_at syndromes k) in
  if disc =? 0 then st
  else
    let temp := firstn (Z.to_nat (PARITY + 1)) lambda in
    let lambda :=
      for_loop (Z.to_nat (deg_prev + 1)) 0 1
        (fun i lambda =>
           if byte_at prev_lambda i =? 0 then lambda
           else
             let pos := i + (k - deg_prev) in
             if pos <=? PARITY
             then store lambda pos
                    (Z.lxor (byte_at lambda pos)
                            (gf_mult disc (byte_at prev_lambda i)))
             else lambda)
        lambda in
    let new_deg := deg_prev + (k - deg_prev) in
    if deg_lambda <? new_deg then
      let deg_lambda := new_deg in
      let prev_lambda := temp in
      let deg_prev := k - deg_lambda in
      let inv_disc := gf_exp_at (255 - gf_log_at disc) in
      let prev_lambda :=
        for_loop (Z.to_nat (PARITY + 1)) 0 1
          (fun i prev_lambda =>
             store prev_lambda i (gf_mult (byte_at prev_lambda i) inv_disc))
          prev_lambda in
      {| bm_lambda := lambda; bm_prev_lambda := prev_lambda;
         bm_deg_lambda := deg_lambda; bm_deg_prev := deg_prev |}
    else
      {| bm_lambda := lambda; bm_prev_lambda := prev_lambda;
         bm_deg_lambda := deg_lambda; bm_deg_prev := deg_prev |}.

(** [berlekamp_massey(syndromes, lambda, omega)]: the caller hands in
    [lambda] and [omega]; the result is [(lambda, omega, deg_lambda)]. *)
Definition berlekamp_massey (syndromes lambda omega : list Z)
    : list Z * list Z * Z :=
  let prev_lambda := repeat 0 33 in
  let lambda := store lambda 0 1 in
  let prev_lambda := store prev_lambda 0 1 in
  let st :=
    for_loop (Z.to_nat PARITY) 0 1 (bm_step syndromes)
      {| bm_lambda := lambda; bm_prev_lambda := prev_lambda;
         bm_deg_lambda := 0; bm_deg_prev := 0 |} in
  let lambda := bm_lambda st in
  let deg_lambda := bm_deg_lambda st in
  let omega := firstn (Z.to_nat PARITY) (repeat 0 32) ++ skipn (Z.to_nat PARITY) omega in
  let omega :=
    for_loop (Z.to_nat PARITY) 0 1
      (fun i omega =>
         for_loop (Z.to_nat (Z.min deg_lambda i + 1)) 0 1
           (fun j omega =>
              store omega i
                (Z.lxor (byte_at omega i)
                        (gf_mult (byte_at syndromes (i - j)) (byte_at lambda j))))
           omega)
      omega in
  (lambda, omega, deg_lambda).

(** The exponent the Chien search hands to [gf_pow] for position [i]
    and term [j]. *)
Definition chien_exponent (i j : Z) : Z := Z.rem (255 - i * j) 255.

(** The error locator evaluated at [alpha^(-i)], as the search does. *)
Definition chien_sum (lambda : list Z) (deg_lambda i : Z) : Z :=
  for_loop (Z.to_nat (deg_lambda + 1)) 0 1
    (fun j sum =>
       if byte_at lambda j =? 0 then sum
       else Z.lxor sum (gf_mult (byte_at lambda j)
                                (gf_pow ALPHA (chien_exponent i j))))
    0.

(** The correction applied at a position where the locator vanishes. *)
Definition forney (lambda omega : list Z) (deg_lambda i : Z)
    (corrected : list Z) : list Z :=
  let alpha_inv_i := gf_pow ALPHA (Z.rem (255 - i) 255) in
  let omega_val :=
    for_loop (Z.to_nat PARITY) 0 1
      (fun j omega_val =>
         if byte_at omega j =? 0 then omega_val
         else Z.lxor omega_val (gf_mult (byte_at omega j) (gf_pow alpha_inv_i j)))
      0 in
  let lambda_prime :=
    for_loop (Z.to_nat (Z.quot (deg_lambda + 1) 2)) 1 2
      (fun j lambda_prime =>
         if byte_at lambda j =? 0 then lambda_prime
         else Z.lxor lambda_prime
                (gf_mult (byte_at lambda j) (gf_pow alpha_inv_i (j - 1))))
      0 in
  if lambda_prime =? 0 then corrected
  else store corrected i (Z.lxor (byte_at corrected i) (gf_div omega_val lambda_prime)).

(** The position loop of [find_and_correct_errors] either goes on with
    its [error_count] and buffer or has returned from inside the loop. *)
Inductive search : Type :=
| Searching (error_count : Z) (corrected : list Z)
| Returned (status : Z) (corrected : list Z).

Definition search_step (lambda omega : list Z) (deg_lambda : Z)
    (i : Z) (s : search) : search :=
  match s with
  | Returned _ _ => s
  | Searching error_count corrected =>
      if chien_sum lambda deg_lambda i =? 0 then
        let error_count := error_count + 1 in
        if T <? error_count then Returned (-1) corrected
        else Searching error_count (forney lambda omega deg_lambda i corrected)
      else s
  end.

Definition find_and_correct_errors (lambda omega : list Z) (deg_lambda : Z)
    (corrected : list Z) : Z * list Z :=
  match for_loop (Z.to_nat N) 0 1 (search_step lambda omega deg_lambda)
          (Searching 0 corrected) with
  | Returned status corrected => (status, corrected)
  | Searching error_count corrected =>
      (if error_count =? deg_lambda then error_count else -1, corrected)
  end.

Definition has_errors (syndromes : list Z) : bool :=
  existsb (fun s => negb (s =? 0)) (firstn (Z.to_nat PARITY) syndromes).

(** [rs_decode_block(received, corrected)]: the status returned and the
    contents of [corrected] afterwards. *)
Definition rs_decode_block (received : list Z) : Z * list Z :=
  let lambda := repeat 0 33 in
  let omega := repeat 0 32 in
  let corrected := firstn (Z.to_nat N) received in
  let syndromes := compute_syndromes received in
  if negb (has_errors syndromes) then (0, corrected)
  else
    let '(lambda, omega, deg_lambda) := berlekamp_massey syndromes lambda omega in
    if deg_lambda =? 0 then (0, corrected)
    else find_and_correct_errors lambda omega deg_lambda corrected.

(** The positions below [n] at which the Chien search finds the locator
    zero. *)
Definition positions_found (lambda : list Z) (deg_lambda : Z) (n : nat) : list Z :=
  filter (fun i => chien_sum lambda deg_lambda i =? 0) (indices n).

(** The number of positions the search finds among all [N]. *)
Definition found_count (lambda : list Z) (deg_lambda : Z) : Z :=
  Z.of_nat (List.length (positions_found lambda deg_lambda (Z.to_nat N))).

End Codec.

(** The symbol-wise sum of two words, [a XOR b]. *)
Definition xor_words (a b : list Z) : list Z :=
  map (fun p => Z.lxor (fst p) (snd p)) (combine a b).

(** A word whose syndromes vanish except the first: the coefficients of
    the product of [x + alpha^i] for [i] from 1 to 31, then zeros. *)
Definition first_syndrome_only : list Z :=
  [88; 244; 195; 77; 89; 164; 46; 54; 143; 60; 19; 135; 99; 158; 169; 146;
   158; 127; 186; 10; 151; 182; 151; 53; 247; 231; 153; 175; 1; 53; 117; 1]
  ++ repeat 0 223.

End RS.


(** ** The decoding loop of [decode_file] *)

Module Decode.
Import RS.

Section Stream.

Variable stray : Z -> Z.

(** The counters of [decode_file] and the bytes written so far. *)
Record progress : Type := {
  output : list Z;
  block_count : Z;
  corrected_blocks : Z;
  failed_blocks : Z
}.

(** [fread(received_block, 1, N, input_fp)] until it yields nothing: the
    file cut into pieces of [N] bytes, the last one possibly shorter.
    Every read takes at least one byte, so a fuel of the length of the
    file reaches its end ([fread_blocks_concat] below). *)
Fixpoint fread_blocks (fuel : nat) (file : list Z) : list (list Z) :=
  match fuel, file with
  | O, _ => []
  | _, [] => []
  | Datatypes.S fuel', _ :: _ =>
      firstn (Z.to_nat N) file :: fread_blocks fuel' (skipn (Z.to_nat N) file)
  end.

(** An incomplete block is padded with zeros. *)
Definition pad_block (read : list Z) : list Z :=
  read ++ repeat 0 (Z.to_nat N - List.length read).

(** [while (write_size > 0 && corrected_block[write_size - 1] == 0)
    write_size--;] *)
Fixpoint trim_size (block : list Z) (write_size : nat) : nat :=
  match write_size with
  | O => O
  | Datatypes.S n => if nth n block 0 =? 0 then trim_size block n else write_size
  end.

(** The status of the block and the contents of [corrected_block] once
    the fallback to the received data has been applied. *)
Definition decode_block (received_block : list Z) : Z * list Z :=
  let '(result, corrected_block) := rs_decode_block stray received_block in
  if result =? -1 then (result, firstn (Z.to_nat N) received_block)
  else (result, corrected_block).

(** One iteration of the loop; writes are taken to succeed. *)
Definition decode_step (total_blocks : Z) (p : progress) (read : list Z)
    : progress :=
  let received_block := pad_block read in
  let '(result, corrected_block) := decode_block received_block in
  let failed_blocks :=
    if result =? -1 then failed_blocks p + 1 else failed_blocks p in
  let corrected_blocks :=
    if result =? -1 then corrected_blocks p
    else if 0 <? result then corrected_blocks p + 1 else corrected_blocks p in
  let write_size := Z.to_nat K in
  let block_count := block_count p + 1 in
  let write_size :=
    if block_count =? total_blocks then trim_size corrected_block write_size
    else write_size in
  {| output := output p ++ firstn write_size corrected_block;
     block_count := block_count;
     corrected_blocks := corrected_blocks;
     failed_blocks := failed_blocks |}.

Definition decode_file (file : list Z) : progress :=
  let file_size := Z.of_nat (List.length file) in
  let total_blocks := Z.quot file_size N in
  fold_left (decode_step total_blocks) (fread_blocks (List.length file) file)
    {| output := []; block_count := 0; corrected_blocks := 0;
       failed_blocks := 0 |}.

End Stream.
End Decode.


(** ** The encoding loop of [encode_file] ([rs_encoding_binary.c]) *)

Module Encode.
Import RS.

(** [fread(buffer, 1, size, fp)] until it yields nothing: the file cut
    into pieces of [size] bytes, the last one possibly shorter.  Every
    read takes at least one byte, so a fuel of the length of the file
    reaches its end. *)
Fixpoint fread (size fuel : nat) (file : list Z) : list (list Z) :=
  match fuel, file with
  | O, _ => []
  | _, [] => []
  | Datatypes.S fuel', _ :: _ => firstn size file :: fread size fuel' (skipn size file)
  end.

Section Stream.

Variable stray : Z -> Z.

(** What [encode_file] has written and what it prints when it is done. *)
Record report : Type := {
  encoded : list Z;
  block_count : Z;
  input_size_printed : Z;
  output_size_printed : Z
}.

(** [memset(data_block + bytes_read, 0, K - bytes_read)] on a short
    read. *)
Definition pad_data (read : list Z) : list Z :=
  read ++ repeat 0 (Z.to_nat K - List.length read).

(** One round of the loop: the output so far and [block_count]; writes
    are taken to succeed. *)
Definition encode_step (p : list Z * Z) (read : list Z) : list Z * Z :=
  let data_block := pad_data read in
  let codeword := rs_encode_block stray data_block in
  (fst p ++ firstn (Z.to_nat N) codeword, snd p + 1).

(** The loop ends on the read that returns 0, so [bytes_read] is 0 when
    the sizes are printed. *)
Definition encode_file (file : list Z) : report :=
  let '(output, block_count) :=
    fold_left encode_step (fread (Z.to_nat K) (List.length file) file) ([], 0) in
  let bytes_read := 0 in
  {| encoded := output;
     block_count := block_count;
     input_size_printed := block_count * K - (K - bytes_read);
     output_size_printed := block_count * N |}.

End Stream.
End Encode.

(** ** The bit-flip tool (second program of [rs_decoding_binary.c]) *)

Module Flip.

(** The copy loop: [c] is the byte read, [byte_count] its offset. *)
Fixpoint flip_from (byte_count : Z) (input : list Z) (flip_pos : Z) : list Z :=
  match input with
  | [] => []
  | c :: rest =>
      u8 (if byte_count =? flip_pos then Z.lxor c 1 else c)
      :: flip_from (byte_count + 1) rest flip_pos
  end.

Definition flip (input : list Z) (flip_pos : Z) : list Z :=
  flip_from 0 input flip_pos.

End Flip.

(** ** The hex dump of the packetizer ([write_frame_hex], [ax25_packet.c])

    A text file is the list of its characters, each a byte value. *)

Module Hex.
Import AX25.

(** ['\n'] *)
Definition newline : Z := 10.

(** The digits of [%X]: ['0'] is 48 and ['A'] is 65. *)
Definition hex_digit (n : Z) : Z := if n <? 10 then 48 + n else 55 + n.

(** ["%02X "] of a [uint8_t]. *)
Definition print_byte (b : Z) : list Z :=
  [hex_digit (b / 16); hex_digit (b mod 16); 32].

(** The digits of a number below [10^fuel], highest first. *)
Fixpoint print_digits (fuel : nat) (n : Z) : list Z :=
  match fuel with
  | O => []
  | Datatypes.S fuel' =>
      (if n <? 10 then [] else print_digits fuel' (n / 10)) ++ [48 + n mod 10]
  end.

(** ["%d"] of an [int], which has at most ten digits; ['-'] is 45. *)
Definition print_int (n : Z) : list Z :=
  if n <? 0 then 45 :: print_digits 10 (- n) else print_digits 10 n.

(** [write_frame_hex(output, frame, length, packet_num)]: the characters
    it appends to [output]. *)
Definition write_frame_hex (frame : list Z) (length packet_num : Z) : list Z :=
  let out :=
    chars "Packet " ++ print_int packet_num ++ chars " (" ++ print_int length
    ++ chars " bytes):" ++ [newline] in
  let out :=
    for_loop (Z.to_nat length) 0 1
      (fun i out =>
         let out := out ++ print_byte (byte_at frame i) in
         if Z.rem (i + 1) 16 =? 0 then out ++ [newline] else out)
      out in
  let out := if Z.rem length 16 =? 0 then out else out ++ [newline] in
  out ++ [newline].

(** The file [packetization] leaves in [output]: one dump per frame. *)
Definition packets_file (config : ax25_config_t) (data : list Z)
    (data_length : Z) : list Z :=
  List.concat
    (map (fun w : Z * (Z * list Z) =>
            write_frame_hex (snd (snd w)) (fst (snd w)) (fst w))
         (snd (packetization config data data_length))).

End Hex.

(** ** The FX.25 wrapper ([fx25_packet.c]) *)

Module FX25.
Import AX25.

Definition CORRELATION_TAG_SIZE : Z := 8.
Definition MAX_FRAME_SIZE : Z := 512.
Definition N : Z := 255.
Definition K : Z := 223.
Definition ROOTS : Z := 32.

Definition CORR_TAG : list Z :=
  [0xCC; 0x8F; 0x8A; 0xE4; 0x85; 0xE2; 0x98; 0x01].

(** [' '], ['\t'], ['\n'] and ['\r']. *)
Definition is_space (c : Z) : bool :=
  (c =? 32) || (c =? 9) || (c =? 10) || (c =? 13).

(** ['0'..'9'], ['A'..'F'] and ['a'..'f']. *)
Definition is_hex (c : Z) : bool :=
  ((48 <=? c) && (c <=? 57)) || ((65 <=? c) && (c <=? 70))
  || ((97 <=? c) && (c <=? 102)).

(** The value [strtol(.., 16)] gives a hex digit. *)
Definition hex_value (c : Z) : Z :=
  if c <=? 57 then c - 48 else if c <=? 70 then c - 55 else c - 87.

(** [parse_hex(line, output, max_len)]: the bytes it stores in [output];
    their number is the count it returns.  [max_len] here is what is
    left of it, [max_len - byte_count]. *)
Fixpoint parse_hex (line : list Z) (max_len : Z) : list Z :=
  match line with
  | [] => []
  | c :: rest =>
      if max_len <=? 0 then []
      else if is_space c then parse_hex rest max_len
      else if negb (is_hex c) then parse_hex rest max_len
      else
        match rest with
        | c2 :: rest' =>
            if is_hex c2
            then u8 (16 * hex_value c + hex_value c2) :: parse_hex rest' (max_len - 1)
            else u8 (hex_value c) :: parse_hex rest (max_len - 1)
        | [] => [u8 (hex_value c)]
        end
  end.

(** [fgets(line, size + 1, file)]: the characters up to and with the
    first newline, [size] at most, and what is left of the file. *)
Fixpoint fgets (size : nat) (file : list Z) : list Z * list Z :=
  match size, file with
  | O, _ => ([], file)
  | _, [] => ([], [])
  | Datatypes.S size', c :: rest =>
      if c =? 10 then ([c], rest)
      else let '(line, rest') := fgets size' rest in (c :: line, rest')
  end.

(** The C string an array of characters holds: what stands before the
    first NUL. *)
Fixpoint c_string (line : list Z) : list Z :=
  match line with
  | [] => []
  | c :: rest => if c =? 0 then [] else c :: c_string rest
  end.

Fixpoint starts_with (needle hay : list Z) : bool :=
  match needle, hay with
  | [], _ => true
  | _ :: _, [] => false
  | n :: needle', h :: hay' => (n =? h) && starts_with needle' hay'
  end.

(** [strstr(hay, needle) != NULL]. *)
Fixpoint strstr (hay needle : list Z) : bool :=
  starts_with needle hay
  || match hay with
     | [] => false
     | _ :: hay' => strstr hay' needle
     end.

(** The variables of the loop of [read_ax25]: the packets stored so far
    ([packet_count] is their number), the [temp_len] bytes of
    [temp_buffer], and [in_packet]. *)
Record reader : Type := {
  packets : list (list Z);
  temp_buffer : list Z;
  in_packet : bool
}.

Definition packet_count (st : reader) : Z := Z.of_nat (List.length (packets st)).
Definition temp_len (st : reader) : Z := Z.of_nat (List.length (temp_buffer st)).

(** The body of the loop for one line. *)
Definition read_line (st : reader) (line : list Z) : reader :=
  if strstr line (chars "Packet") && strstr line (chars "bytes") then
    let st :=
      if in_packet st && (0 <? temp_len st)
      then {| packets := packets st ++ [temp_buffer st];
              temp_buffer := [];
              in_packet := in_packet st |}
      else st in
    {| packets := packets st; temp_buffer := temp_buffer st; in_packet := true |}
  else if in_packet st then
    let bytes_parsed := parse_hex line (MAX_FRAME_SIZE - temp_len st) in
    let st :=
      {| packets := packets st;
         temp_buffer := temp_buffer st ++ bytes_parsed;
         in_packet := in_packet st |} in
    if (Z.of_nat (List.length line) <=? 1) && (0 <? temp_len st)
    then {| packets := packets st ++ [temp_buffer st];
            temp_buffer := [];
            in_packet := false |}
    else st
  else st.

(** [while (fgets(line, sizeof(line), file) && packet_count < max_packets)]
    with [sizeof(line) = 1024].  Every [fgets] takes at least one
    character, so a fuel of the length of the file reaches its end. *)
Fixpoint read_loop (fuel : nat) (file : list Z) (max_packets : Z) (st : reader)
    : reader :=
  match fuel, file with
  | O, _ => st
  | _, [] => st
  | Datatypes.S fuel', _ :: _ =>
      let '(line, rest) := fgets 1023 file in
      if packet_count st <? max_packets
      then read_loop fuel' rest max_packets (read_line st (c_string line))
      else st
  end.

(** [read_ax25] on the contents of the file: the packets it stores, whose
    number it returns. *)
Definition read_ax25 (file : list Z) (max_packets : Z) : list (list Z) :=
  let st :=
    read_loop (List.length file) file max_packets
      {| packets := []; temp_buffer := []; in_packet := false |} in
  if in_packet st && (0 <? temp_len st)
  then packets st ++ [temp_buffer st]
  else packets st.

Section Libfec.

(** [encode_rs_char] of libfec is not part of the repository: for the
    223 data bytes of the block it computes [ROOTS = 32] parity bytes. *)
Variable encode_rs_char : list Z -> list Z.

(** [generate_fx25]: the count returned and the bytes written to
    [fx25_frame]; [ax25_packet] is the memory the pointer designates. *)
Definition generate_fx25 (ax25_packet : list Z) (ax25_len : Z) : Z * list Z :=
  if K <? ax25_len then (0, [])
  else
    let position := 0 in
    let fx25_frame := CORR_TAG in
    let position := position + CORRELATION_TAG_SIZE in
    let rs_block := repeat 0 (Z.to_nat N) in
    let rs_block :=
      firstn (Z.to_nat ax25_len) ax25_packet
      ++ skipn (Z.to_nat ax25_len) rs_block in
    let rs_block :=
      firstn (Z.to_nat K) rs_block
      ++ encode_rs_char (firstn (Z.to_nat K) rs_block) in
    let fx25_frame := fx25_frame ++ firstn (Z.to_nat N) rs_block in
    let position := position + N in
    (position, fx25_frame).

(** The loop of [main] over the packets read: the frames handed to
    [write_fx25_hex], numbered by [fx25_count]. *)
Definition fx25_frames (ax25_packets : list (list Z)) : list (list Z) :=
  flat_map
    (fun packet =>
       let '(fx25_len, fx25_frame) :=
         generate_fx25 packet (Z.of_nat (List.length packet)) in
       if 0 <? fx25_len then [fx25_frame] else [])
    ax25_packets.

End Libfec.
End FX25.

(** ** Notions the further properties are stated with *)

Module Notions.
Import AX25 RS Decode.

(** [P x && P (x + 1) && ...] over [n] consecutive integers. *)
Fixpoint all_from (n : nat) (x : Z) (P : Z -> bool) : bool :=
  match n with
  | O => true
  | Datatypes.S n' => P x && all_from n' (x + 1) P
  end.

(** One shift of the CRC register undone: the low bit of the result
    tells whether the polynomial was added. *)
Definition crc_unshift (y : Z) : Z :=
  if Z.odd y then Z.lxor y 0x1021 / 2 + 0x8000 else y / 2.

(** A value a [uint8_t] holds. *)
Definition is_byte (b : Z) : Prop := 0 <= b < 256.

(** The six callsign positions [encode_address] fills: the characters
    of the callsign, blanks after its end. *)
Definition callsign_field (call : string) : list Z :=
  firstn 6 (chars call ++ repeat 32 6).

(** The offset of the payload in a frame. *)
Definition payload_offset (type : frame_type_t) : nat :=
  if is_message type then 17%nat else 22%nat.

(** [alpha^n], read from the first period of [gf_exp]. *)
Definition alpha_power (n : Z) : Z := byte_at gf_exp (n mod 255).

(** [v] if the bit is set, else 0. *)
Definition bit_term (bit : bool) (v : Z) : Z := if bit then v else 0.

(** The product [a * c] put together from the products of [c] with the
    powers of two in [a]. *)
Definition gf_mult_by_bits (stray : Z -> Z) (c a : Z) : Z :=
  fold_right Z.lxor 0
    (map (fun k => bit_term (Z.testbit a k) (gf_mult stray (2 ^ k) c))
         [0; 1; 2; 3; 4; 5; 6; 7]).

(** The polynomial with coefficients [coefficients], lowest power first,
    evaluated at [r] by Horner's rule in the field of the codec. *)
Definition poly_eval (stray : Z -> Z) (r : Z) (coefficients : list Z) : Z :=
  fold_right (fun c acc => Z.lxor c (gf_mult stray r acc)) 0 coefficients.

(** One data byte through the shift register of [rs_encode_block]: every
    cell takes its lower neighbour plus the generator coefficient times
    the feedback. *)
Definition lfsr_step (stray : Z -> Z) (remainder : list Z) (d : Z) : list Z :=
  let feedback := Z.lxor d (byte_at remainder (PARITY - 1)) in
  xor_words (0 :: firstn 31 remainder)
    (map (fun g => gf_mult stray g feedback) (firstn 32 generator)).

(** The codeword of the encoder as the decoder indexes a polynomial:
    the parity bytes, then the data bytes in reverse. *)
Definition decoder_order (codeword : list Z) : list Z :=
  skipn (Z.to_nat K) codeword ++ rev (firstn (Z.to_nat K) codeword).

(** The offsets at which two buffers differ. *)
Definition differing (a b : list Z) : list Z :=
  filter (fun j => negb (byte_at a j =? byte_at b j))
    (indices (Nat.max (List.length a) (List.length b))).

(** The buffer the position loop holds: the bytes of [corrected] it left
    alone or changed. *)
Definition search_buffer (s : search) : list Z :=
  match s with
  | Searching _ corrected => corrected
  | Returned _ corrected => corrected
  end.

(** The number of bytes one round of the loop writes. *)
Definition written (stray : Z -> Z) (total_blocks : Z) (p : progress) (read : list Z) : nat :=
  if block_count p + 1 =? total_blocks
  then trim_size (snd (decode_block stray (pad_block read))) (Z.to_nat K)
  else Z.to_nat K.

(** The first line of a dump. *)
Definition header_line (length packet_num : Z) : list Z :=
  chars "Packet " ++ Hex.print_int packet_num ++ chars " (" ++ Hex.print_int length
  ++ chars " bytes):" ++ [Hex.newline].

(** A line of the dump: up to sixteen bytes. *)
Definition data_line (bytes : list Z) : list Z :=
  List.concat (map Hex.print_byte bytes) ++ [Hex.newline].

(** What the loop of [write_frame_hex] writes for the bytes from index
    [i] on. *)
Fixpoint hex_dump (i : Z) (bytes : list Z) : list Z :=
  match bytes with
  | [] => []
  | b :: rest =>
      Hex.print_byte b
      ++ (if Z.rem (i + 1) 16 =? 0 then [Hex.newline] else [])
      ++ hex_dump (i + 1) rest
  end.

(** A frame [read_ax25] can hold: not empty, at most [MAX_FRAME_SIZE]
    bytes. *)
Definition readable (frame : list Z) : Prop :=
  (1 <= List.length frame <= 512)%nat /\ Forall is_byte frame.

(** The loop of [read_ax25] takes the state [st] to [st'] over the text
    [text], whatever follows it in the file. *)
Definition reads (max_packets : Z) (text : list Z) (st st' : FX25.reader) : Prop :=
  forall (rest : list Z) (fuel : nat),
    (List.length (text ++ rest) <= fuel)%nat ->
    exists fuel' : nat,
      (List.length rest <= fuel')%nat
      /\ FX25.read_loop fuel (text ++ rest) max_packets st
         = FX25.read_loop fuel' rest max_packets st'.

(** What [read_ax25] relies on between two lines: the packets stored
    fit [packets[max_packets][MAX_FRAME_SIZE]], [temp_buffer] holds at
    most [MAX_FRAME_SIZE] bytes, and it is empty once the packet array
    is full. *)
Definition reader_in_bounds (max_packets : Z) (st : FX25.reader) : Prop :=
  FX25.packet_count st <= Z.max 0 max_packets
  /\ (max_packets <= FX25.packet_count st -> FX25.temp_buffer st = [])
  /\ (List.length (FX25.temp_buffer st) <= 512)%nat
  /\ Forall is_byte (FX25.temp_buffer st)
  /\ Forall (fun p => (1 <= List.length p <= 512)%nat /\ Forall is_byte p)
       (FX25.packets st).

(** ** The frame in the words of the protocol

    The address field and the frame check sequence as AX.25 describes
    them, written without the code: what [encode_address] and
    [calculate_crc] are compared with. *)

(** An address field: the six callsign positions, each character moved
    up by one bit, then the SSID moved up by one bit with the
    end-of-address bit below it. *)
Definition address_field (call : string) (ssid : Z) (last : bool) : list Z :=
  map (fun c => (2 * c) mod 256) (callsign_field call)
  ++ [(2 * ssid + (if last then 1 else 0)) mod 256].

(** The bits of a byte, the most significant first. *)
Definition bits_msb_first (b : Z) : list bool :=
  map (Z.testbit b) [7; 6; 5; 4; 3; 2; 1; 0].

(** One step of a bit-serial CRC of 16 bits: the bit leaving the register
    is compared with the message bit, the register moves up one place,
    and the polynomial is added when the two bits differ. *)
Definition crc_bit (poly : Z) (register : Z) (bit : bool) : Z :=
  let feedback := xorb (Z.testbit register 15) bit in
  let moved := (2 * register) mod 65536 in
  if feedback then Z.lxor moved poly else moved.

(** The CRC of 16 bits with generator [poly] (its term of degree 16 left
    out), the register starting at [init], the message taken the most
    significant bit first, and [xorout] added at the end. *)
Definition crc16_msb_first (poly init xorout : Z) (data : list Z) : Z :=
  Z.lxor (fold_left (crc_bit poly) (flat_map bits_msb_first data) init) xorout.

End Notions.


(** * Properties *)

Import AX25 RS Decode.

(** ** Arithmetic of bytes and loops *)

Lemma low_byte (x : Z) : Z.land x 0xFF = x mod 256.
Proof. exact (Z.land_ones x 8 ltac:(lia)). Qed.

Lemma high_byte (x : Z) : Z.land (Z.shiftr x 8) 0xFF = (x / 256) mod 256.
Proof. rewrite low_byte, Z.shiftr_div_pow2 by lia. reflexivity. Qed.

Lemma for_loop_last {S : Type} (n : nat) (start step : Z)
    (body : Z -> S -> S) (s : S) :
  for_loop (Datatypes.S n) start step body s
  = body (start + Z.of_nat n * step) (for_loop n start step body s).
Proof.
  revert start s; induction n as [|n IH]; intros start s.
  - simpl. f_equal. lia.
  - change (for_loop (Datatypes.S (Datatypes.S n)) start step body s)
      with (for_loop (Datatypes.S n) (start + step) step body (body start s)).
    rewrite IH. cbn [for_loop]. f_equal. lia.
Qed.

Lemma indices_last (n : nat) : indices (Datatypes.S n) = indices n ++ [Z.of_nat n].
Proof. unfold indices. rewrite seq_S, map_app. reflexivity. Qed.

Lemma length_indices (n : nat) : List.length (indices n) = n.
Proof. unfold indices. rewrite length_map, length_seq. reflexivity. Qed.

Lemma in_indices (n : nat) (x : Z) : In x (indices n) <-> 0 <= x < Z.of_nat n.
Proof.
  unfold indices. rewrite in_map_iff. split.
  - intros [k [<- Hk]]. apply in_seq in Hk. lia.
  - intros H. exists (Z.to_nat x). split; [lia|]. apply in_seq. lia.
Qed.

Lemma nth_indices (n : nat) (i : nat) (d : Z) :
  (i < n)%nat -> nth i (indices n) d = Z.of_nat i.
Proof.
  intros H. unfold indices.
  rewrite nth_indep with (d' := Z.of_nat 0) by (rewrite length_map, length_seq; lia).
  rewrite map_nth, seq_nth by lia. reflexivity.
Qed.

Lemma for_loop_collect {A : Type} (f : Z -> A) (n : nat) (acc : list A) :
  for_loop n 0 1 (fun i out => out ++ [f i]) acc = acc ++ map f (indices n).
Proof.
  induction n as [|n IH].
  - simpl. rewrite app_nil_r. reflexivity.
  - rewrite for_loop_last, IH, indices_last, map_app, <- app_assoc.
    replace (0 + Z.of_nat n * 1) with (Z.of_nat n) by lia. reflexivity.
Qed.

(** ** CRC and frames *)

(** C5, as the code has it: [calculate_crc] over the nine ASCII bytes
    31 32 33 34 35 36 37 38 39 returns 0xD64E.  That is 0x29B1 with the
    final XOR by 0xFFFF applied: 0x29B1 is the value of the register
    before the final XOR. *)
Theorem crc_check_string :
  calculate_crc [0x31; 0x32; 0x33; 0x34; 0x35; 0x36; 0x37; 0x38; 0x39] 9 = 0xD64E
  /\ calculate_crc (chars "123456789") (strlen "123456789") = 0xD64E
  /\ fold_left crc_byte (chars "123456789") 0xFFFF = 0x29B1
  /\ Z.lxor 0x29B1 0xFFFF = 0xD64E.
Proof. repeat split; vm_compute; reflexivity. Qed.

(** C5 as the claim words it fails: the value returned is not 0x29B1. *)
Lemma crc_of_digits_differs :
  calculate_crc [0x31; 0x32; 0x33; 0x34; 0x35; 0x36; 0x37; 0x38; 0x39] 9 <> 0x29B1.
Proof. vm_compute. discriminate. Qed.

(** C6, as the code has it: the beacon frame for "HELLO" from N0CALL-0
    to CQ-0 is the 30 bytes
    7E 86 A2 40 40 40 40 00 9C 60 86 82 98 98 01 03 F0 00 00 00 00 01
    48 45 4C 4C 4F 56 E6 7E: the destination reads 86 A2 ('C' and 'Q'
    shifted left) and the two SSID bytes are 00 and 01. *)
Theorem beacon_hello_frame :
  create_beacon_frame n0call_to_cq "HELLO"
  = (30, [0x7E; 0x86; 0xA2; 0x40; 0x40; 0x40; 0x40; 0x00;
          0x9C; 0x60; 0x86; 0x82; 0x98; 0x98; 0x01;
          0x03; 0xF0; 0x00; 0x00; 0x00; 0x00; 0x01;
          0x48; 0x45; 0x4C; 0x4C; 0x4F; 0x56; 0xE6; 0x7E]).
Proof. vm_compute. reflexivity. Qed.

(** C6 as the claim words it fails: the frame does not begin with the
    bytes 7E A6 84 40 40 40 40 60 ... 61 ... of the claim. *)
Lemma beacon_hello_prefix_differs :
  firstn 27 (snd (create_beacon_frame n0call_to_cq "HELLO")) <> claimed_beacon_prefix.
Proof. vm_compute. discriminate. Qed.

Lemma length_encode_address (call : string) (ssid last : Z) :
  List.length (encode_address call ssid last) = 7%nat.
Proof. reflexivity. Qed.

Lemma length_frame_header (type : frame_type_t) (sequence total : Z) :
  List.length (frame_header type sequence total) = 5%nat.
Proof. reflexivity. Qed.

Lemma frame_header_bytes (type : frame_type_t) (sequence total : Z) :
  frame_header type sequence total
  = [frame_type_code type;
     (sequence / 256) mod 256; sequence mod 256;
     (total / 256) mod 256; total mod 256].
Proof.
  unfold frame_header. rewrite !high_byte, !low_byte.
  destruct type; reflexivity.
Qed.

Lemma calculate_crc_range (data : list Z) (len : Z) :
  0 <= calculate_crc data len < 65536.
Proof. unfold calculate_crc, u16. apply Z.mod_pos_bound. lia. Qed.

Lemma crc_high_byte (data : list Z) (len : Z) :
  Z.land (Z.shiftr (calculate_crc data len) 8) 0xFF = calculate_crc data len / 256.
Proof.
  pose proof (calculate_crc_range data len).
  rewrite high_byte. apply Z.mod_small.
  split; [apply Z.div_pos; lia | apply Z.div_lt_upper_bound; lia].
Qed.

(** ** Packetization *)

Lemma total_packets_ceil (L : Z) :
  0 < L -> 256 * (total_packets_of L - 1) < L <= 256 * total_packets_of L.
Proof.
  intros HL. unfold total_packets_of, MAX_PAYLOAD.
  rewrite Z.quot_div_nonneg by lia.
  pose proof (Z.div_mod (L + 256 - 1) 256 ltac:(lia)).
  pose proof (Z.mod_pos_bound (L + 256 - 1) 256 ltac:(lia)).
  lia.
Qed.

(** Handing [frame_gen] a pointer and a count is handing it the bytes
    the count covers. *)
Lemma frame_gen_chunk (config : ax25_config_t) (type : frame_type_t)
    (sequence total : Z) (mem : list Z) (n : Z) :
  0 <= n <= Z.of_nat (List.length mem) ->
  frame_gen config type sequence total mem n
  = frame_gen config type sequence total (firstn (Z.to_nat n) mem)
      (Z.of_nat (List.length (firstn (Z.to_nat n) mem))).
Proof.
  intros Hn.
  assert (Hl : Z.of_nat (List.length (firstn (Z.to_nat n) mem)) = n).
  { rewrite length_firstn. lia. }
  rewrite Hl. unfold frame_gen.
  rewrite firstn_firstn, Nat.min_id. reflexivity.
Qed.

(** What [packetization] writes, for any length: one frame per index,
    built from [packet_call]. *)
Lemma packetization_calls (config : ax25_config_t) (data : list Z) (L : Z) :
  packetization config data L
  = (total_packets_of L,
     map (fun packet =>
            let c := packet_call L (total_packets_of L) packet in
            (packet,
             frame_gen config (fc_type c) (fc_sequence c) (fc_total c)
               (skipn (Z.to_nat (fc_offset c)) data) (fc_chunk_size c)))
         (indices (Z.to_nat (total_packets_of L)))).
Proof.
  unfold packetization. f_equal.
  exact (for_loop_collect _ _ []).
Qed.

Lemma chunk_of_packet_call (data : list Z) (total i : Z) :
  0 <= i -> Z.of_nat (List.length data) <= 256 * total ->
  chunk_of data (packet_call (Z.of_nat (List.length data)) total i)
  = firstn 256 (skipn (256 * Z.to_nat i) data).
Proof.
  intros Hi Htot. unfold chunk_of, packet_call, MAX_PAYLOAD.
  cbn [fc_chunk_size fc_offset].
  replace (Z.to_nat (i * 256)) with (256 * Z.to_nat i)%nat by lia.
  destruct (Z.ltb_spec (Z.of_nat (List.length data)) (i * 256 + 256)) as [Hlt|Hge].
  - rewrite !firstn_all2; [reflexivity| |]; rewrite length_skipn; lia.
  - reflexivity.
Qed.

Lemma concat_chunks (n : nat) : forall data : list Z,
  (List.length data <= 256 * n)%nat ->
  List.concat (map (fun k => firstn 256 (skipn (256 * k) data)) (seq 0 n)) = data.
Proof.
  induction n as [|n IH]; intros data Hlen.
  - destruct data; [reflexivity | simpl in Hlen; lia].
  - rewrite <- cons_seq, <- seq_shift.
    cbn [map List.concat]. rewrite map_map.
    rewrite Nat.mul_0_r. cbn [skipn].
    transitivity (firstn 256 data ++ skipn 256 data); [|apply firstn_skipn].
    f_equal.
    rewrite <- (IH (skipn 256 data)) by (rewrite length_skipn; lia).
    f_equal. apply map_ext. intros k.
    rewrite skipn_skipn. do 2 f_equal. lia.
Qed.

(** C4, as the code has it.  For a payload of length [L] with
    [0 < L <= 16776960] (= 65535 * 256, so that the frame count fits the
    16-bit [sequence] and [total] parameters of [frame_gen]), the
    packetizer returns [total = ceil (L / 256)] and writes [total] frames;
    frame [i] is built by [frame_gen] with sequence [i], the shared
    [total], and chunk [i]; its type is DATA_HEADER when [total = 1],
    otherwise DATA_FIRST for [i = 0], DATA_END for [i = total - 1] and
    DATA in between; every chunk but the last has 256 bytes, the last has
    between 1 and 256; the chunks in order concatenate to the payload. *)
Theorem packetization_frames (config : ax25_config_t) (data : list Z) :
  let L := Z.of_nat (List.length data) in
  0 < L <= 16776960 ->
  let total := total_packets_of L in
  let call := packet_call L total in
  let positions := indices (Z.to_nat total) in
  256 * (total - 1) < L <= 256 * total
  /\ packetization config data L
     = (total,
        map (fun i =>
               let chunk := chunk_of data (call i) in
               (i, frame_gen config (fc_type (call i)) i total chunk
                     (Z.of_nat (List.length chunk))))
            positions)
  /\ Z.of_nat (List.length positions) = total
  /\ (forall i, 0 <= i < total ->
        nth (Z.to_nat i) positions 0 = i
        /\ fc_sequence (call i) = i
        /\ fc_total (call i) = total
        /\ fc_type (call i)
           = (if total =? 1 then FRAME_DATA_HEADER
              else if i =? 0 then FRAME_DATA_FIRST
              else if i =? total - 1 then FRAME_DATA_END
              else FRAME_DATA)
        /\ (i < total - 1 -> List.length (chunk_of data (call i)) = 256%nat)
        /\ (i = total - 1 ->
            Z.of_nat (List.length (chunk_of data (call i))) = L - 256 * (total - 1))
        /\ (0 < List.length (chunk_of data (call i)) <= 256)%nat)
  /\ List.concat (map (fun i => chunk_of data (call i)) positions) = data.
Proof.
  intros L HL total call positions.
  pose proof (total_packets_ceil L ltac:(lia)) as Hceil. fold total in Hceil.
  assert (Htot : 0 < total <= 65535) by lia.
  assert (Hchunk : forall i, 0 <= i < total ->
            chunk_of data (call i) = firstn 256 (skipn (256 * Z.to_nat i) data)).
  { intros i Hi. apply chunk_of_packet_call; lia. }
  split; [exact Hceil|].
  split; [|split; [|split]].
  - rewrite packetization_calls. fold L total. f_equal.
    apply map_ext_in. intros i Hi. apply in_indices in Hi.
    cbv zeta. fold call.
    assert (Hs : fc_sequence (call i) = i).
    { unfold call, packet_call; cbn [fc_sequence]. unfold u16.
      apply Z.mod_small. lia. }
    assert (Ht : fc_total (call i) = total).
    { unfold call, packet_call; cbn [fc_total]. unfold u16.
      apply Z.mod_small. lia. }
    rewrite Hs, Ht. f_equal.
    rewrite frame_gen_chunk; [reflexivity|].
    unfold call, packet_call, MAX_PAYLOAD; cbn [fc_chunk_size fc_offset].
    rewrite length_skipn.
    destruct (Z.ltb_spec L (i * 256 + 256)); unfold L in *; lia.
  - unfold positions. rewrite length_indices. lia.
  - intros i Hi.
    split; [unfold positions; rewrite nth_indices by lia; lia|].
    split; [unfold call, packet_call; cbn [fc_sequence]; unfold u16;
            apply Z.mod_small; lia|].
    split; [unfold call, packet_call; cbn [fc_total]; unfold u16;
            apply Z.mod_small; lia|].
    split; [reflexivity|].
    rewrite (Hchunk i Hi), length_firstn, length_skipn.
    unfold L in *. repeat split; lia.
  - unfold positions, indices. rewrite map_map.
    transitivity (List.concat (map (fun k => firstn 256 (skipn (256 * k) data))
                                   (seq 0 (Z.to_nat total))));
      [|apply concat_chunks; unfold L in *; lia].
    f_equal. apply map_ext_in. intros k Hk. apply in_seq in Hk.
    rewrite Hchunk by lia. rewrite Nat2Z.id. reflexivity.
Qed.

(** C4 at the payload of scenario S2, 513 zero bytes: three frames,
    DATA_FIRST, DATA, DATA_END. *)
Lemma packetization_frames_witness :
  map (fun i => fc_type (packet_call 513 3 i)) [0; 1; 2]
  = [FRAME_DATA_FIRST; FRAME_DATA; FRAME_DATA_END]
  /\ fst (packetization n0call_to_cq (repeat 0 513) 513) = 3.
Proof.
  pose proof (packetization_frames n0call_to_cq (repeat 0 513)
                ltac:(rewrite repeat_length; lia)) as (_ & Hp & _ & Hi & _).
  rewrite repeat_length in Hp, Hi.
  change (Z.of_nat 513) with 513 in Hp, Hi.
  change (total_packets_of 513) with 3 in Hp, Hi.
  split.
  - cbn [map].
    destruct (Hi 0 ltac:(lia)) as (_ & _ & _ & -> & _).
    destruct (Hi 1 ltac:(lia)) as (_ & _ & _ & -> & _).
    destruct (Hi 2 ltac:(lia)) as (_ & _ & _ & -> & _).
    reflexivity.
  - rewrite Hp. reflexivity.
Defined.

Lemma nth_map_indices {A : Type} (f : Z -> A) (n i : nat) (d : A) :
  (i < n)%nat -> nth i (map f (indices n)) d = f (Z.of_nat i).
Proof.
  intros H.
  rewrite nth_indep with (d' := f 0) by (rewrite length_map, length_indices; lia).
  rewrite map_nth. f_equal. apply nth_indices. exact H.
Qed.

Lemma skipn_repeat_tail {A : Type} (x : A) (a b : nat) :
  skipn a (repeat x (a + b)) = repeat x b.
Proof.
  rewrite repeat_app, skipn_app, repeat_length, Nat.sub_diag.
  rewrite skipn_all2 by (rewrite repeat_length; lia). reflexivity.
Qed.

(** C4 as the claim words it fails beyond 65535 frames.  For a payload
    of 16777217 zero bytes the packetizer writes 65537 frames, and the
    one with index 65536 is
    7E 86 A2 40 40 40 40 00 9C 60 86 82 98 98 01 03 F0 04 00 00 00 01 00
    06 22 7E: its fragment header carries sequence 0 and total 1. *)
Lemma packetization_sequence_wraps :
  fst (packetization n0call_to_cq (repeat 0 (Z.to_nat 16777217)) 16777217) = 65537
  /\ nth (Z.to_nat 65536)
       (snd (packetization n0call_to_cq (repeat 0 (Z.to_nat 16777217)) 16777217))
       (0, (0, []))
     = (65536,
        (26, [0x7E; 0x86; 0xA2; 0x40; 0x40; 0x40; 0x40; 0x00;
              0x9C; 0x60; 0x86; 0x82; 0x98; 0x98; 0x01;
              0x03; 0xF0; 0x04; 0x00; 0x00; 0x00; 0x01; 0x00;
              0x06; 0x22; 0x7E]))
  /\ frame_header FRAME_DATA_END 65536 65537 = [0x04; 0x00; 0x00; 0x00; 0x01].
Proof.
  rewrite packetization_calls. cbn [fst snd].
  change (total_packets_of 16777217) with 65537.
  split; [reflexivity|]. split; [|reflexivity].
  rewrite nth_map_indices by lia.
  rewrite Z2Nat.id by lia. cbv zeta.
  assert (Hc : packet_call 16777217 65537 65536
               = {| fc_type := FRAME_DATA_END; fc_sequence := 0; fc_total := 1;
                    fc_offset := 16777216; fc_chunk_size := 1 |})
    by (vm_compute; reflexivity).
  rewrite Hc. cbn [fc_type fc_sequence fc_total fc_offset fc_chunk_size].
  replace (Z.to_nat 16777217) with (Z.to_nat 16777216 + 1)%nat by lia.
  rewrite skipn_repeat_tail.
  vm_compute. reflexivity.
Qed.

(** ** Galois field tables *)

Lemma forallb_indices (P : Z -> bool) (n : nat) :
  forallb P (indices n) = true -> forall x, 0 <= x < Z.of_nat n -> P x = true.
Proof.
  intros H x Hx. rewrite forallb_forall in H. apply H, in_indices, Hx.
Qed.

(** C7: the tables [init_galois_field] builds satisfy
    [gf_exp[gf_log[x]] = x] for [1 <= x <= 255], [gf_log[gf_exp[i]] = i]
    and [gf_exp[i + 255] = gf_exp[i]] for [0 <= i < 255], and
    [gf_log[0] = 255]. *)
Theorem galois_field_tables :
  let gf_exp := fst init_galois_field in
  let gf_log := snd init_galois_field in
  (forall x, 1 <= x <= 255 -> byte_at gf_exp (byte_at gf_log x) = x)
  /\ (forall i, 0 <= i < 255 -> byte_at gf_log (byte_at gf_exp i) = i)
  /\ (forall i, 0 <= i < 255 -> byte_at gf_exp (i + 255) = byte_at gf_exp i)
  /\ byte_at gf_log 0 = 255
  /\ List.length gf_exp = 512%nat /\ List.length gf_log = 256%nat.
Proof.
  change (fst init_galois_field) with RS.gf_exp.
  change (snd init_galois_field) with RS.gf_log.
  cbv zeta.
  split; [|split; [|split; [|split; [|split]]]]; try reflexivity.
  - intros x Hx. apply Z.eqb_eq.
    pose proof (forallb_indices
                  (fun x => (x =? 0) || (byte_at RS.gf_exp (byte_at RS.gf_log x) =? x))
                  256 ltac:(vm_compute; reflexivity) x ltac:(lia)) as H.
    cbv beta in H. destruct (Z.eqb_spec x 0); [lia|]. exact H.
  - intros i Hi. apply Z.eqb_eq.
    exact (forallb_indices
             (fun i => byte_at RS.gf_log (byte_at RS.gf_exp i) =? i) 255
             ltac:(vm_compute; reflexivity) i ltac:(lia)).
  - intros i Hi. apply Z.eqb_eq.
    exact (forallb_indices
             (fun i => byte_at RS.gf_exp (i + 255) =? byte_at RS.gf_exp i) 255
             ltac:(vm_compute; reflexivity) i ltac:(lia)).
Qed.

(** C7 at [x = 0x1D] and [i = 8]. *)
Lemma galois_field_tables_witness :
  byte_at (fst init_galois_field) (byte_at (snd init_galois_field) 0x1D) = 0x1D
  /\ byte_at (snd init_galois_field) (byte_at (fst init_galois_field) 8) = 8
  /\ byte_at (fst init_galois_field) (8 + 255) = byte_at (fst init_galois_field) 8.
Proof.
  destruct galois_field_tables as (Hel & Hle & Hwrap & _).
  split; [apply Hel; lia|split; [apply Hle; lia|apply Hwrap; lia]].
Defined.

(** ** The decoder *)

Section DecoderFacts.

Variable stray : Z -> Z.

Lemma positions_found_last (lambda : list Z) (deg_lambda : Z) (n : nat) :
  positions_found stray lambda deg_lambda (Datatypes.S n)
  = positions_found stray lambda deg_lambda n
    ++ (if chien_sum stray lambda deg_lambda (Z.of_nat n) =? 0
        then [Z.of_nat n] else []).
Proof.
  unfold positions_found. rewrite indices_last, filter_app. reflexivity.
Qed.

(** Invariant of the position loop: while it runs, [error_count] is the
    number of positions found so far and is at most [T]; once it has
    returned, the status is -1 and more than [T] positions were found. *)
Lemma search_invariant (lambda omega : list Z) (deg_lambda : Z)
    (corrected : list Z) (n : nat) :
  let found := Z.of_nat (List.length (positions_found stray lambda deg_lambda n)) in
  match for_loop n 0 1 (search_step stray lambda omega deg_lambda)
          (Searching 0 corrected) with
  | Searching error_count _ => error_count = found /\ found <= T
  | Returned status _ => status = -1 /\ T < found
  end.
Proof.
  induction n as [|n IH]; [cbn; unfold T; lia|].
  rewrite for_loop_last, positions_found_last, length_app.
  replace (0 + Z.of_nat n * 1) with (Z.of_nat n) by lia.
  cbv zeta in IH |- *.
  destruct (for_loop n 0 1 _ _) as [error_count c|status c].
  - destruct IH as [-> Hle]. unfold search_step.
    destruct (chien_sum stray lambda deg_lambda (Z.of_nat n) =? 0).
    + cbn [List.length].
      destruct (Z.ltb_spec T (Z.of_nat (List.length (positions_found stray lambda deg_lambda n)) + 1));
        lia.
    + cbn [List.length]. lia.
  - destruct IH as [-> Hlt]. cbn [search_step]. lia.
Qed.

(** The status of [find_and_correct_errors] in terms of that number. *)
Lemma find_and_correct_errors_status (lambda omega : list Z) (deg_lambda : Z)
    (corrected : list Z) :
  let found := found_count stray lambda deg_lambda in
  fst (find_and_correct_errors stray lambda omega deg_lambda corrected)
  = if (T <? found) || negb (found =? deg_lambda) then -1 else found.
Proof.
  intros found. unfold find_and_correct_errors.
  pose proof (search_invariant lambda omega deg_lambda corrected (Z.to_nat N)) as H.
  cbv zeta in H. fold (found_count stray lambda deg_lambda) in H. fold found in H.
  generalize dependent (Z.to_nat N). intros n H.
  destruct (for_loop n 0 1 (search_step stray lambda omega deg_lambda)
              (Searching 0 corrected)) as [error_count c|status c]; cbn [fst].
  - destruct H as [-> Hle].
    destruct (Z.ltb_spec T found); [lia|]. cbn [orb].
    destruct (found =? deg_lambda); reflexivity.
  - destruct H as [-> Hlt].
    destruct (Z.ltb_spec T found); [reflexivity|lia].
Qed.

Lemma find_and_correct_errors_high_degree (lambda omega : list Z)
    (deg_lambda : Z) (corrected : list Z) :
  T < deg_lambda ->
  fst (find_and_correct_errors stray lambda omega deg_lambda corrected) = -1.
Proof.
  intros Hdeg. rewrite find_and_correct_errors_status. cbv zeta.
  destruct (Z.ltb_spec T (found_count stray lambda deg_lambda)); [reflexivity|].
  destruct (Z.eqb_spec (found_count stray lambda deg_lambda) deg_lambda);
    [lia|reflexivity].
Qed.

(** [rs_decode_block] by cases on the syndromes and the degree. *)
Lemma rs_decode_block_cases (received : list Z) :
  let syndromes := compute_syndromes stray received in
  let bm := berlekamp_massey stray syndromes (repeat 0 33) (repeat 0 32) in
  rs_decode_block stray received
  = if negb (has_errors syndromes) then (0, firstn (Z.to_nat N) received)
    else if snd bm =? 0 then (0, firstn (Z.to_nat N) received)
    else find_and_correct_errors stray (fst (fst bm)) (snd (fst bm)) (snd bm)
           (firstn (Z.to_nat N) received).
Proof.
  intros syndromes bm. unfold rs_decode_block. fold syndromes.
  destruct (negb (has_errors syndromes)); [reflexivity|].
  fold bm. destruct bm as [[lambda omega] deg_lambda]. reflexivity.
Qed.

End DecoderFacts.

(** Counting over a loop whose step adds one to a first counter and,
    for the elements a test selects, one to a second. *)
Lemma fold_left_counts {P A : Type} (step : P -> A -> P) (count marked : P -> Z)
    (test : A -> bool)
    (Hstep : forall p x,
        count (step p x) = count p + 1
        /\ marked (step p x) = marked p + (if test x then 1 else 0))
    (l : list A) :
  forall p,
  count (fold_left step l p) = count p + Z.of_nat (List.length l)
  /\ marked (fold_left step l p)
     = marked p + Z.of_nat (List.length (filter test l)).
Proof.
  induction l as [|x l IH]; intros p.
  - cbn. lia.
  - cbn [fold_left filter].
    destruct (IH (step p x)) as [-> ->].
    destruct (Hstep p x) as [-> ->].
    destruct (test x); cbn [List.length]; lia.
Qed.

Section StreamFacts.

Variable stray : Z -> Z.

Lemma fread_blocks_concat (fuel : nat) : forall file : list Z,
  (List.length file <= fuel)%nat ->
  List.concat (fread_blocks fuel file) = file.
Proof.
  induction fuel as [|fuel IH]; intros file Hlen.
  - destruct file; [reflexivity|simpl in Hlen; lia].
  - destruct file as [|b file']; [reflexivity|].
    cbn [fread_blocks List.concat].
    rewrite IH; [apply firstn_skipn|].
    rewrite length_skipn. change (Z.to_nat N) with 255%nat.
    cbn [List.length] in *. lia.
Qed.

Lemma decode_block_status (received : list Z) :
  fst (decode_block stray received) = fst (rs_decode_block stray received).
Proof.
  unfold decode_block.
  destruct (rs_decode_block stray received) as [result corrected].
  destruct (result =? -1); reflexivity.
Qed.

Lemma decode_block_failed (received : list Z) :
  List.length received = 255%nat ->
  fst (rs_decode_block stray received) = -1 ->
  decode_block stray received = (-1, received).
Proof.
  intros Hlen Hst. unfold decode_block.
  destruct (rs_decode_block stray received) as [result corrected].
  cbn [fst] in Hst. subst result. cbn [Z.eqb Pos.eqb].
  rewrite firstn_all2; [reflexivity|].
  rewrite Hlen. change (Z.to_nat N) with 255%nat. lia.
Qed.

Lemma decode_step_failed (total_blocks : Z) (p : progress) (read : list Z) :
  decode_block stray (pad_block read) = (-1, pad_block read) ->
  decode_step stray total_blocks p read
  = {| output :=
         output p
         ++ firstn (if block_count p + 1 =? total_blocks
                    then trim_size (pad_block read) (Z.to_nat K)
                    else Z.to_nat K)
              (pad_block read);
       block_count := block_count p + 1;
       corrected_blocks := corrected_blocks p;
       failed_blocks := failed_blocks p + 1 |}.
Proof.
  intros H. unfold decode_step. rewrite H. reflexivity.
Qed.

Lemma decode_step_counts (total_blocks : Z) (p : progress) (read : list Z) :
  block_count (decode_step stray total_blocks p read) = block_count p + 1
  /\ failed_blocks (decode_step stray total_blocks p read)
     = failed_blocks p
       + (if fst (rs_decode_block stray (pad_block read)) =? -1 then 1 else 0).
Proof.
  unfold decode_step. rewrite <- decode_block_status.
  destruct (decode_block stray (pad_block read)) as [result corrected].
  cbn [fst block_count failed_blocks].
  destruct (result =? -1); split; lia.
Qed.

Lemma decode_loop_counts (total_blocks : Z) (blocks : list (list Z))
    (p : progress) :
  let q := fold_left (decode_step stray total_blocks) blocks p in
  block_count q = block_count p + Z.of_nat (List.length blocks)
  /\ failed_blocks q
     = failed_blocks p
       + Z.of_nat (List.length
           (filter (fun read => fst (rs_decode_block stray (pad_block read)) =? -1)
                   blocks)).
Proof.
  exact (fold_left_counts (decode_step stray total_blocks) block_count
           failed_blocks
           (fun read => fst (rs_decode_block stray (pad_block read)) =? -1)
           (decode_step_counts total_blocks) blocks p).
Qed.

End StreamFacts.

(** ** Claims on the decoder *)




(** C9: a word of 255 bytes whose 32 syndromes are all zero is returned
    as it is with status 0, whatever it carries; so is a word with a
    nonzero syndrome for which [berlekamp_massey] returns degree 0. *)
Theorem clean_block (stray : Z -> Z) (received : list Z) :
  List.length received = 255%nat ->
  let syndromes := compute_syndromes stray received in
  let bm := berlekamp_massey stray syndromes (repeat 0 33) (repeat 0 32) in
  has_errors syndromes = false \/ (has_errors syndromes = true /\ snd bm = 0) ->
  rs_decode_block stray received = (0, received).
Proof.
  intros Hlen syndromes bm Hcase.
  rewrite rs_decode_block_cases. fold syndromes. fold bm.
  rewrite firstn_all2 by (rewrite Hlen; change (Z.to_nat N) with 255%nat; lia).
  destruct Hcase as [->|[-> ->]]; reflexivity.
Qed.

(** C9 at a word for each case.  Seen from the zero codeword, the
    coefficients of the generator polynomial are an error pattern of 33
    symbols that no syndrome detects; [first_syndrome_only] has a nonzero
    syndrome and degree 0. *)
Lemma clean_block_witness :
  rs_decode_block (fun _ => 0) (generator ++ repeat 0 222)
  = (0, generator ++ repeat 0 222)
  /\ rs_decode_block (fun _ => 0) first_syndrome_only = (0, first_syndrome_only).
Proof.
  split.
  - refine (clean_block (fun _ => 0) (generator ++ repeat 0 222) _ _).
    + vm_compute. reflexivity.
    + left. vm_compute. reflexivity.
  - refine (clean_block (fun _ => 0) first_syndrome_only _ _).
    + vm_compute. reflexivity.
    + right. split; vm_compute; reflexivity.
Defined.

(** ** Where the codec departs from the claims *)

(** The exponent of the Chien search lies in [0, 255) as long as
    [i * j <= 255]; past that it is negative unless [i * j] is a multiple
    of 255. *)
Lemma chien_exponent_sign (i j : Z) :
  (i * j <= 255 -> 0 <= chien_exponent i j < 255)
  /\ (255 < i * j -> (i * j) mod 255 <> 0 -> -255 < chien_exponent i j < 0).
Proof.
  unfold chien_exponent. split.
  - intros H. rewrite Z.rem_mod_nonneg by lia.
    apply Z.mod_pos_bound. lia.
  - intros H Hm.
    replace (255 - i * j) with (- (i * j - 255)) by lia.
    rewrite Z.rem_opp_l by lia.
    rewrite Z.rem_mod_nonneg by lia.
    replace (i * j - 255) with (i * j + (-1) * 255) by lia.
    rewrite Z.mod_add by lia.
    pose proof (Z.mod_pos_bound (i * j) 255 ltac:(lia)). lia.
Qed.

Section CodecDefects.

Variable stray : Z -> Z.

(** C1 at the data block 01 00 ... 00: the decoder does not accept the
    codeword the encoder produces for it.  Read as the decoder reads a
    word, the codeword has second syndrome 139; [berlekamp_massey]
    returns degree 31 and the status of [rs_decode_block] is -1, not 0.
    The encoder stores the data symbols highest power first and the
    parity lowest power first, the decoder takes position [j] as the
    coefficient of [x^j]. *)
Theorem encoder_output_rejected :
  let m := 1 :: repeat 0 222 in
  let codeword := rs_encode_block stray m in
  List.length m = 223%nat
  /\ List.length codeword = 255%nat
  /\ firstn 2 (compute_syndromes stray codeword) = [0; 139]
  /\ snd (berlekamp_massey stray (compute_syndromes stray codeword)
            (repeat 0 33) (repeat 0 32)) = 31
  /\ fst (rs_decode_block stray codeword) = -1
  /\ rs_decode_block stray codeword <> (0, codeword).
Proof.
  intros m codeword.
  assert (Hs : has_errors (compute_syndromes stray codeword) = true)
    by (vm_compute; reflexivity).
  assert (Hd : snd (berlekamp_massey stray (compute_syndromes stray codeword)
                      (repeat 0 33) (repeat 0 32)) = 31)
    by (vm_compute; reflexivity).
  assert (Hst : fst (rs_decode_block stray codeword) = -1).
  { rewrite rs_decode_block_cases. cbv zeta. rewrite Hs, Hd. cbn [negb Z.eqb].
    apply find_and_correct_errors_high_degree. reflexivity. }
  split; [vm_compute; reflexivity|].
  split; [vm_compute; reflexivity|].
  split; [vm_compute; reflexivity|].
  split; [exact Hd|]. split; [exact Hst|].
  intros H. rewrite H in Hst. discriminate Hst.
Qed.

(** C2 at the all-zero data block with one symbol in error: the
    codeword is all zero, the received word differs from it in the low
    bit of byte 100 only, and [rs_decode_block] answers -1 and leaves
    the error in place.  [berlekamp_massey] returns the locator
    [0 + 17 x], which has no root, where the locator of this error is
    [1 + 17 x]. *)
Theorem single_error_not_corrected :
  let m := repeat 0 223 in
  let codeword := rs_encode_block stray m in
  let e := store (repeat 0 255) 100 1 in
  let received := xor_words codeword e in
  codeword = repeat 0 255
  /\ received = store codeword 100 1
  /\ firstn 2 (fst (fst (berlekamp_massey stray (compute_syndromes stray received)
                           (repeat 0 33) (repeat 0 32)))) = [0; 17]
  /\ rs_decode_block stray received = (-1, received)
  /\ received <> codeword.
Proof.
  intros m codeword e received.
  split; [vm_compute; reflexivity|].
  split; [vm_compute; reflexivity|].
  split; [vm_compute; reflexivity|].
  split; [vm_compute; reflexivity|].
  vm_compute. discriminate.
Qed.

(** C10 at the word that is zero but for the byte 07 at offset 100.  Some
    syndrome is nonzero, [berlekamp_massey] returns degree 31 with a
    nonzero coefficient 29, the search goes through the positions 0 to 8
    without returning, and at position 9, term 29, the exponent
    [(255 - 9 * 29) % 255] is -6: [gf_pow] then reads [gf_exp[-6]],
    outside the table. *)
Theorem chien_search_reads_outside_table :
  let received := store (repeat 0 255) 100 7 in
  let syndromes := compute_syndromes stray received in
  let bm := berlekamp_massey stray syndromes (repeat 0 33) (repeat 0 32) in
  let lambda := fst (fst bm) in
  let omega := snd (fst bm) in
  let deg_lambda := snd bm in
  List.length received = 255%nat
  /\ has_errors syndromes = true
  /\ deg_lambda = 31
  /\ rs_decode_block stray received
     = find_and_correct_errors stray lambda omega deg_lambda received
  /\ for_loop 9 0 1 (search_step stray lambda omega deg_lambda)
       (Searching 0 received) = Searching 0 received
  /\ byte_at lambda 29 = 80
  /\ chien_exponent 9 29 = -6
  /\ gf_pow_index ALPHA (chien_exponent 9 29) = -6
  /\ in_gf_exp (gf_pow_index ALPHA (chien_exponent 9 29)) = false
  /\ gf_pow stray ALPHA (chien_exponent 9 29) = u8 (stray (-6)).
Proof.
  intros received syndromes bm lambda omega deg_lambda.
  assert (Hs : has_errors syndromes = true) by (vm_compute; reflexivity).
  assert (Hd : deg_lambda = 31) by (vm_compute; reflexivity).
  assert (Hr : firstn (Z.to_nat N) received = received)
    by (vm_compute; reflexivity).
  split; [vm_compute; reflexivity|].
  split; [exact Hs|]. split; [exact Hd|].
  split.
  { rewrite rs_decode_block_cases. cbv zeta.
    fold received. fold syndromes. fold bm. fold deg_lambda.
    rewrite Hs, Hr. cbn [negb].
    destruct (Z.eqb_spec deg_lambda 0) as [H0|_]; [rewrite Hd in H0; discriminate|].
    reflexivity. }
  do 5 (split; [vm_compute; reflexivity|]).
  vm_compute. reflexivity.
Qed.

End CodecDefects.


(** * Further properties *)

Import Notions.

(** ** Addresses and headers read back *)

Lemma chars_byte (s : string) : Forall (fun c => 0 <= c < 256) (chars s).
Proof.
  induction s as [|c s IH]; constructor; [|exact IH].
  pose proof (nat_ascii_bounded c). lia.
Qed.

Lemma shiftl_1 (x : Z) : Z.shiftl x 1 = 2 * x.
Proof. rewrite Z.shiftl_mul_pow2 by lia. lia. Qed.

Lemma lor_low_bit (x : Z) (b : Z) :
  0 <= b <= 1 -> Z.lor (2 * x) b = 2 * x + b.
Proof.
  intros Hb. assert (b = 0 \/ b = 1) as [->| ->] by lia.
  - rewrite Z.lor_0_r. lia.
  - apply Z.bits_inj'. intros n Hn.
    rewrite Z.lor_spec.
    destruct (Z.eq_dec n 0) as [->|Hn0].
    + rewrite Z.testbit_odd_0, Z.testbit_even_0. reflexivity.
    + replace n with (Z.succ (n - 1)) by lia.
      rewrite Z.testbit_odd_succ, Z.testbit_even_succ by lia.
      change 1 with (2 * 0 + 1).
      rewrite Z.testbit_odd_succ by lia.
      rewrite Z.testbit_0_l, orb_false_r. reflexivity.
Qed.

Lemma encode_address_closed (call : string) (ssid last : Z) :
  encode_address call ssid last
  = map (fun c => u8 (2 * c)) (callsign_field call)
    ++ [u8 (Z.lor (2 * ssid) (if last =? 0 then 0 else 1))].
Proof.
  unfold encode_address, callsign_field, strlen. rewrite shiftl_1.
  f_equal.
  change (Z.shiftl 32 1) with (u8 (2 * 32)).
  generalize (chars call). intros l.
  assert (H : forall i, 0 <= i ->
            (if i <? Z.of_nat (List.length l)
             then u8 (Z.shiftl (byte_at l i) 1) else u8 (2 * 32))
            = u8 (2 * nth (Z.to_nat i) (l ++ repeat 32 6) 32)).
  { intros i Hi. destruct (Z.ltb_spec i (Z.of_nat (List.length l))).
    - rewrite app_nth1 by lia. rewrite shiftl_1.
      unfold byte_at. f_equal. f_equal. apply nth_indep. lia.
    - rewrite app_nth2 by lia.
      destruct (Nat.lt_ge_cases (Z.to_nat i - List.length l) 6).
      + rewrite nth_repeat_lt by assumption. reflexivity.
      + rewrite nth_overflow by (rewrite repeat_length; lia). reflexivity. }
  cbn [map]. rewrite !H by lia. clear H.
  assert (Hl : (6 <= List.length (l ++ repeat 32%Z 6))%nat)
    by (rewrite length_app, repeat_length; lia).
  remember (l ++ repeat 32 6) as m.
  destruct m as [|a0 [|a1 [|a2 [|a3 [|a4 [|a5 m]]]]]]; cbn [List.length] in Hl; try lia.
  reflexivity.
Qed.

Lemma Forall_firstn {A : Type} (P : A -> Prop) (n : nat) (l : list A) :
  Forall P l -> Forall P (firstn n l).
Proof.
  revert l; induction n as [|n IH]; intros l H; [constructor|].
  destruct H; [constructor|]. cbn. constructor; auto.
Qed.

Lemma Forall_skipn {A : Type} (P : A -> Prop) (n : nat) (l : list A) :
  Forall P l -> Forall P (skipn n l).
Proof.
  revert l; induction n as [|n IH]; intros l H; [exact H|].
  destruct H; [constructor|]. cbn. auto.
Qed.

Lemma callsign_field_length (call : string) : List.length (callsign_field call) = 6%nat.
Proof.
  unfold callsign_field. rewrite length_firstn, length_app, repeat_length. lia.
Qed.

Lemma callsign_field_range (call : string) :
  Forall (fun c => 0 <= c < 256) (callsign_field call).
Proof.
  unfold callsign_field. apply Forall_firstn, Forall_app. split.
  - apply chars_byte.
  - apply Forall_forall. intros x Hx. apply repeat_spec in Hx. lia.
Qed.

Lemma callsign_field_ascii (call : string) :
  Forall (fun c => c < 128) (chars call) ->
  Forall (fun c => 0 <= c < 128) (callsign_field call).
Proof.
  intros H. unfold callsign_field. apply Forall_firstn, Forall_app. split.
  - pose proof (chars_byte call) as Hb. rewrite Forall_forall in *.
    intros x Hx. specialize (H x Hx). specialize (Hb x Hx). lia.
  - apply Forall_forall. intros x Hx. apply repeat_spec in Hx. lia.
Qed.

(** X1: an address field can be read back.  For a callsign of 7-bit
    characters and an SSID below 128, [encode_address] gives 7 bytes; the
    first six are even and halve to the callsign, cut or blank-filled to
    six characters; the seventh halves to the SSID and its low bit is the
    end-of-address flag. *)
Theorem encode_address_reads_back (call : string) (ssid last : Z) :
  Forall (fun c => c < 128) (chars call) ->
  0 <= ssid < 128 ->
  let field := encode_address call ssid last in
  List.length field = 7%nat
  /\ Forall (fun b => 0 <= b < 256) field
  /\ map (fun b => b / 2) (firstn 6 field) = callsign_field call
  /\ Forall (fun b => b mod 2 = 0) (firstn 6 field)
  /\ nth 6 field 0 / 2 = ssid
  /\ nth 6 field 0 mod 2 = (if last =? 0 then 0 else 1).
Proof.
  intros Hascii Hssid field. subst field.
  rewrite encode_address_closed.
  pose proof (callsign_field_length call) as Hlen.
  pose proof (callsign_field_ascii call Hascii) as Hf.
  set (f := callsign_field call) in *.
  set (flag := if last =? 0 then 0 else 1).
  assert (Hflag : 0 <= flag <= 1) by (unfold flag; destruct (last =? 0); lia).
  rewrite lor_low_bit by exact Hflag.
  assert (Hs : u8 (2 * ssid + flag) = 2 * ssid + flag)
    by (unfold u8; apply Z.mod_small; lia).
  rewrite Hs.
  assert (Hd : map (fun c => u8 (2 * c)) f = map (fun c => 2 * c) f).
  { apply map_ext_in. intros c Hc. rewrite Forall_forall in Hf.
    specialize (Hf c Hc). unfold u8. apply Z.mod_small. lia. }
  rewrite Hd.
  assert (Hfirst : firstn 6 (map (fun c => 2 * c) f ++ [2 * ssid + flag])
                   = map (fun c => 2 * c) f).
  { rewrite firstn_app, length_map, Hlen.
    rewrite firstn_all2 by (rewrite length_map; lia).
    change (6 - 6)%nat with 0%nat. rewrite firstn_O. apply app_nil_r. }
  rewrite Hfirst.
  split; [rewrite length_app, length_map, Hlen; reflexivity|].
  split.
  { apply Forall_app. split.
    - apply Forall_map. eapply Forall_impl; [|exact Hf]. cbv beta. intros; lia.
    - constructor; [lia|constructor]. }
  split.
  { rewrite map_map. rewrite <- (map_id f) at 2. apply map_ext. intros c.
    rewrite Z.mul_comm. apply Z.div_mul. lia. }
  split.
  { apply Forall_map. apply Forall_forall. intros c _.
    rewrite Z.mul_comm. apply Z.mod_mul. lia. }
  rewrite app_nth2 by (rewrite length_map; lia).
  rewrite length_map, Hlen. cbn [Nat.sub nth].
  split.
  - rewrite Z.mul_comm, Z.div_add_l by lia. rewrite Z.div_small by lia. lia.
  - rewrite Z.add_comm, Z.mul_comm, Z.mod_add by lia. apply Z.mod_small. lia.
Qed.

Lemma encode_address_reads_back_witness :
  map (fun b => b / 2) (firstn 6 (encode_address "CQ" 3 1)) = [67; 81; 32; 32; 32; 32]
  /\ nth 6 (encode_address "CQ" 3 1) 0 = 7.
Proof.
  pose proof (encode_address_reads_back "CQ" 3 1
                ltac:(repeat constructor) ltac:(lia)) as (_ & _ & H & _ & Hs & Hl).
  split; [exact H|].
  cbv zeta in Hs, Hl.
  rewrite (Z.div_mod (nth 6 (encode_address "CQ" 3 1) 0) 2) by lia.
  rewrite Hs, Hl. reflexivity.
Defined.

Lemma chars_append (a b : string) : chars (a ++ b)%string = chars a ++ chars b.
Proof. induction a as [|c a IH]; [reflexivity|]. cbn. rewrite IH. reflexivity. Qed.

(** X2: only the first six characters of a callsign reach the address
    field.  Whatever follows them is dropped without notice (the
    configuration holds up to seven), and a shorter callsign is filled up
    with shifted blanks, 0x40. *)
Theorem encode_address_six_characters (call rest : string) (ssid last : Z) :
  (6 <= List.length (chars call))%nat ->
  encode_address (call ++ rest)%string ssid last = encode_address call ssid last.
Proof.
  intros H. rewrite !encode_address_closed. do 2 f_equal.
  unfold callsign_field. rewrite chars_append.
  rewrite <- !app_assoc.
  rewrite !firstn_app.
  replace (6 - List.length (chars call))%nat with 0%nat by lia.
  cbn [firstn]. reflexivity.
Qed.

Lemma encode_address_six_characters_witness :
  encode_address "N0CALLX" 0 1 = encode_address "N0CALL" 0 1.
Proof.
  apply (encode_address_six_characters "N0CALL" "X" 0 1). simpl. lia.
Defined.

(** X3: a fragment header can be read back.  For a sequence and a total
    that fit 16 bits the five bytes give back the type, the sequence
    (high byte first) and the total; two headers are equal only if type,
    sequence and total are. *)
Theorem frame_header_reads_back (type : frame_type_t) (sequence total : Z) :
  0 <= sequence < 65536 ->
  0 <= total < 65536 ->
  let h := frame_header type sequence total in
  List.length h = 5%nat
  /\ Forall (fun b => 0 <= b < 256) h
  /\ nth 0 h 0 = frame_type_code type
  /\ 256 * nth 1 h 0 + nth 2 h 0 = sequence
  /\ 256 * nth 3 h 0 + nth 4 h 0 = total
  /\ (forall type' sequence' total',
        0 <= sequence' < 65536 -> 0 <= total' < 65536 ->
        frame_header type' sequence' total' = h ->
        type' = type /\ sequence' = sequence /\ total' = total).
Proof.
  intros Hs Ht h. subst h. rewrite frame_header_bytes.
  cbn [List.length nth].
  assert (Hdiv : forall x, 0 <= x < 65536 -> (x / 256) mod 256 = x / 256).
  { intros x Hx. apply Z.mod_small.
    split; [apply Z.div_pos; lia|apply Z.div_lt_upper_bound; lia]. }
  assert (Hback : forall x, 0 <= x < 65536 -> 256 * ((x / 256) mod 256) + x mod 256 = x).
  { intros x Hx. rewrite Hdiv by exact Hx. symmetry. apply Z.div_mod. lia. }
  split; [reflexivity|].
  split.
  { repeat constructor; try (apply Z.mod_pos_bound; lia);
      destruct type; cbn; lia. }
  split; [reflexivity|].
  split; [apply Hback, Hs|]. split; [apply Hback, Ht|].
  intros type' sequence' total' Hs' Ht' Heq.
  rewrite frame_header_bytes in Heq.
  injection Heq as Hty H1 H2 H3 H4.
  split; [destruct type, type'; cbn in Hty; congruence|].
  split.
  - rewrite <- (Hback sequence Hs), <- (Hback sequence' Hs'). congruence.
  - rewrite <- (Hback total Ht), <- (Hback total' Ht'). congruence.
Qed.

Lemma frame_header_reads_back_witness :
  256 * nth 1 (frame_header FRAME_DATA 513 1000) 0
  + nth 2 (frame_header FRAME_DATA 513 1000) 0 = 513.
Proof.
  apply (frame_header_reads_back FRAME_DATA 513 1000); lia.
Defined.

(** ** Frames as a receiver sees them *)

(** The bytes and the count of [frame_gen] for a payload given whole. *)
Lemma frame_gen_bytes (config : ax25_config_t) (type : frame_type_t)
    (sequence total : Z) (payload : list Z) :
  let body := frame_body config type sequence total payload in
  let fcs := calculate_crc body (Z.of_nat (List.length body)) in
  frame_gen config type sequence total payload (Z.of_nat (List.length payload))
  = (Z.of_nat (List.length body) + 4,
     AX25_FLAG :: body ++ [fcs mod 256; fcs / 256; AX25_FLAG]).
Proof.
  intros body fcs. subst fcs body. unfold frame_gen, frame_body.
  rewrite Nat2Z.id, firstn_all.
  assert (Hnil : forall b : list Z, skipn 1 ([AX25_FLAG] ++ b) = b) by reflexivity.
  destruct (is_message type) eqn:Hmsg; destruct payload as [|b payload'];
    cbn [Z.ltb Z.compare Z.of_nat List.length]; cbv zeta;
    rewrite <- ?app_assoc, Hnil, crc_high_byte, low_byte.
  all: match goal with
       | |- context [calculate_crc ?d ?n] =>
           replace n with (Z.of_nat (List.length d))
             by (rewrite ?length_app, ?length_encode_address, ?length_frame_header;
                 cbn [List.length]; rewrite ?Zpos_P_of_succ_nat; lia)
       end.
  all: f_equal.
  all: rewrite ?length_app, ?length_encode_address, ?length_frame_header.
  all: cbn [List.length]; rewrite ?Zpos_P_of_succ_nat; lia.
Qed.

Lemma length_frame_body (config : ax25_config_t) (type : frame_type_t)
    (sequence total : Z) (payload : list Z) :
  List.length (frame_body config type sequence total payload)
  = (16 + (if is_message type then 0 else 5) + List.length payload)%nat.
Proof.
  unfold frame_body.
  rewrite !length_app, !length_encode_address.
  destruct (is_message type); rewrite ?length_frame_header; cbn [List.length]; lia.
Qed.

(** X4: what [frame_gen] writes passes the check a receiver makes and
    gives the payload back.  With [n] the count returned, the frame has
    [n = payload length + 20] bytes, 5 more unless the type is MESSAGE;
    bytes 0 and [n - 1] are the flag; [calculate_crc] over the [n - 4]
    bytes after the opening flag is the 16-bit number stored low byte
    first at [n - 3]; and the payload sits at offset 17 (MESSAGE) or
    22. *)
Theorem frame_gen_verifies (config : ax25_config_t) (type : frame_type_t)
    (sequence total : Z) (payload : list Z) :
  let len := List.length payload in
  let result := frame_gen config type sequence total payload (Z.of_nat len) in
  let frame := snd result in
  let n := List.length frame in
  fst result = Z.of_nat n
  /\ n = (len + 20 + (if is_message type then 0 else 5))%nat
  /\ nth 0 frame 0 = 0x7E
  /\ nth (n - 1) frame 0 = 0x7E
  /\ calculate_crc (skipn 1 frame) (Z.of_nat (n - 4))
     = nth (n - 3) frame 0 + 256 * nth (n - 2) frame 0
  /\ firstn len (skipn (payload_offset type) frame) = payload.
Proof.
  intros len result frame n. subst n frame result.
  rewrite frame_gen_bytes. cbn [fst snd].
  pose proof (length_frame_body config type sequence total payload) as Hb.
  set (body := frame_body config type sequence total payload) in *.
  set (fcs := calculate_crc body (Z.of_nat (List.length body))).
  pose proof (calculate_crc_range body (Z.of_nat (List.length body))) as Hfcs.
  fold fcs in Hfcs.
  assert (Hn : List.length (AX25_FLAG :: body ++ [fcs mod 256; fcs / 256; AX25_FLAG])
               = (List.length body + 4)%nat).
  { cbn [List.length]. rewrite length_app. cbn [List.length]. lia. }
  rewrite Hn.
  split; [lia|]. split; [subst len; rewrite Hb; destruct (is_message type); lia|].
  split; [reflexivity|].
  assert (Hnth : forall k, (k < 3)%nat ->
            nth (List.length body + 1 + k) (AX25_FLAG :: body ++ [fcs mod 256; fcs / 256; AX25_FLAG]) 0
            = nth k [fcs mod 256; fcs / 256; AX25_FLAG] 0).
  { intros k Hk. replace (List.length body + 1 + k)%nat with (S (List.length body + k)) by lia.
    change (nth (S ?m) (AX25_FLAG :: ?l) 0) with (nth m l 0).
    rewrite app_nth2 by lia.
    replace (List.length body + k - List.length body)%nat with k by lia.
    reflexivity. }
  split.
  { replace (List.length body + 4 - 1)%nat with (List.length body + 1 + 2)%nat by lia.
    rewrite Hnth by lia. reflexivity. }
  split.
  { replace (List.length body + 4 - 3)%nat with (List.length body + 1 + 0)%nat by lia.
    replace (List.length body + 4 - 2)%nat with (List.length body + 1 + 1)%nat by lia.
    rewrite !Hnth by lia. cbn [nth skipn].
    replace (List.length body + 4 - 4)%nat with (List.length body) by lia.
    unfold calculate_crc at 1. rewrite Nat2Z.id, firstn_app, firstn_all, Nat.sub_diag.
    cbn [firstn]. rewrite app_nil_r.
    transitivity fcs.
    - unfold fcs, calculate_crc. rewrite Nat2Z.id, firstn_all. reflexivity.
    - pose proof (Z.div_mod fcs 256 ltac:(lia)). lia. }
  unfold payload_offset, body, frame_body, len.
  destruct (is_message type).
  - change (skipn 17 (AX25_FLAG :: ?l)) with (skipn 16 l).
    cbn [app]. rewrite <- !app_assoc.
    rewrite skipn_app, length_encode_address.
    rewrite skipn_all2 by (rewrite length_encode_address; lia).
    cbn [app]. change (16 - 7)%nat with 9%nat.
    rewrite skipn_app, length_encode_address.
    rewrite skipn_all2 by (rewrite length_encode_address; lia).
    cbn [app Nat.sub skipn].
    rewrite firstn_app, firstn_all, Nat.sub_diag. cbn [firstn]. apply app_nil_r.
  - change (skipn 22 (AX25_FLAG :: ?l)) with (skipn 21 l).
    rewrite <- !app_assoc.
    rewrite skipn_app, length_encode_address.
    rewrite skipn_all2 by (rewrite length_encode_address; lia).
    cbn [app]. change (21 - 7)%nat with 14%nat.
    rewrite skipn_app, length_encode_address.
    rewrite skipn_all2 by (rewrite length_encode_address; lia).
    cbn [app Nat.sub]. change (skipn 7 (3 :: 240 :: ?l)) with (skipn 5 l).
    rewrite skipn_app, length_frame_header.
    rewrite skipn_all2 by (rewrite length_frame_header; lia).
    cbn [app Nat.sub skipn].
    rewrite firstn_app, firstn_all, Nat.sub_diag. cbn [firstn]. apply app_nil_r.
Qed.

Lemma all_from_spec (P : Z -> bool) (n : nat) : forall x,
  all_from n x P = true -> forall y, x <= y < x + Z.of_nat n -> P y = true.
Proof.
  induction n as [|n IH]; intros x H y Hy; [lia|].
  cbn [all_from] in H. apply andb_true_iff in H as [Hx Hrest].
  destruct (Z.eq_dec y x) as [->|Hne]; [exact Hx|].
  apply (IH (x + 1) Hrest). lia.
Qed.

(** ** The CRC register *)

Lemma crc_shift_range (x : Z) : 0 <= crc_shift x < 65536.
Proof.
  unfold crc_shift, u16. destruct (_ =? 0); apply Z.mod_pos_bound; lia.
Qed.

Lemma crc_unshift_shift (x : Z) : 0 <= x < 65536 -> crc_unshift (crc_shift x) = x.
Proof.
  intros Hx. apply Z.eqb_eq.
  exact (all_from_spec (fun x => crc_unshift (crc_shift x) =? x) (Z.to_nat 65536) 0
           ltac:(vm_compute; reflexivity) x ltac:(lia)).
Qed.

Lemma crc_shift_injective (x y : Z) :
  0 <= x < 65536 -> 0 <= y < 65536 -> crc_shift x = crc_shift y -> x = y.
Proof.
  intros Hx Hy H. rewrite <- (crc_unshift_shift x Hx), <- (crc_unshift_shift y Hy).
  congruence.
Qed.

Lemma lxor_below (n a b : Z) :
  0 <= n -> 0 <= a < 2 ^ n -> 0 <= b < 2 ^ n -> 0 <= Z.lxor a b < 2 ^ n.
Proof.
  intros Hn Ha Hb.
  assert (H0 : 0 <= Z.lxor a b) by (apply Z.lxor_nonneg; lia).
  split; [exact H0|].
  destruct (Z.eq_dec n 0) as [->|Hn0].
  { assert (a = 0) as -> by (cbn in Ha; lia).
    assert (b = 0) as -> by (cbn in Hb; lia). cbn. lia. }
  destruct (Z.eq_dec (Z.lxor a b) 0) as [->|Hne]; [lia|].
  apply Z.log2_lt_pow2; [lia|].
  eapply Z.le_lt_trans; [apply Z.log2_lxor; lia|].
  apply Z.max_lub_lt.
  - destruct (Z.eq_dec a 0) as [->|]; [cbn; lia|]. apply Z.log2_lt_pow2; lia.
  - destruct (Z.eq_dec b 0) as [->|]; [cbn; lia|]. apply Z.log2_lt_pow2; lia.
Qed.

Lemma lxor_cancel_r (a b c : Z) : Z.lxor a c = Z.lxor b c -> a = b.
Proof.
  intros H.
  assert (E : forall x, Z.lxor (Z.lxor x c) c = x).
  { intros x. rewrite Z.lxor_assoc, Z.lxor_nilpotent, Z.lxor_0_r. reflexivity. }
  rewrite <- (E a), <- (E b), H. reflexivity.
Qed.

Lemma byte_shifted (b : Z) : 0 <= b < 256 -> 0 <= Z.shiftl b 8 < 65536.
Proof. intros H. rewrite Z.shiftl_mul_pow2 by lia. lia. Qed.

Lemma crc_feed (r b : Z) :
  0 <= r < 65536 -> 0 <= b < 256 ->
  u16 (Z.lxor r (Z.shiftl b 8)) = Z.lxor r (Z.shiftl b 8)
  /\ 0 <= Z.lxor r (Z.shiftl b 8) < 65536.
Proof.
  intros Hr Hb. pose proof (byte_shifted b Hb) as Hs.
  pose proof (lxor_below 16 r (Z.shiftl b 8) ltac:(lia) Hr Hs) as H.
  change (2 ^ 16) with 65536 in H.
  split; [apply Z.mod_small; exact H|exact H].
Qed.

Lemma eight_shifts_range (x : Z) :
  0 <= for_loop 8 0 1 (fun _ c => crc_shift c) x < 65536.
Proof. cbn [for_loop]. apply crc_shift_range. Qed.

Lemma eight_shifts_injective (x y : Z) :
  0 <= x < 65536 -> 0 <= y < 65536 ->
  for_loop 8 0 1 (fun _ c => crc_shift c) x
  = for_loop 8 0 1 (fun _ c => crc_shift c) y -> x = y.
Proof.
  intros Hx Hy. cbn [for_loop]. intros H.
  repeat (apply crc_shift_injective in H;
          [|first [assumption | apply crc_shift_range]..]).
  exact H.
Qed.

Lemma crc_byte_range (r b : Z) : 0 <= crc_byte r b < 65536.
Proof. unfold crc_byte. apply eight_shifts_range. Qed.

Lemma crc_byte_injective_register (r1 r2 b : Z) :
  0 <= r1 < 65536 -> 0 <= r2 < 65536 -> 0 <= b < 256 ->
  crc_byte r1 b = crc_byte r2 b -> r1 = r2.
Proof.
  intros H1 H2 Hb H. unfold crc_byte in H.
  destruct (crc_feed r1 b H1 Hb) as [E1 R1].
  destruct (crc_feed r2 b H2 Hb) as [E2 R2].
  rewrite E1, E2 in H. apply eight_shifts_injective in H; [|assumption..].
  exact (lxor_cancel_r _ _ _ H).
Qed.

Lemma crc_byte_injective_byte (r x y : Z) :
  0 <= r < 65536 -> 0 <= x < 256 -> 0 <= y < 256 ->
  crc_byte r x = crc_byte r y -> x = y.
Proof.
  intros Hr Hx Hy H. unfold crc_byte in H.
  destruct (crc_feed r x Hr Hx) as [E1 R1].
  destruct (crc_feed r y Hr Hy) as [E2 R2].
  rewrite E1, E2 in H. apply eight_shifts_injective in H; [|assumption..].
  assert (Hs : Z.shiftl x 8 = Z.shiftl y 8).
  { apply (lxor_cancel_r _ _ r). rewrite !(Z.lxor_comm _ r). exact H. }
  rewrite !Z.shiftl_mul_pow2 in Hs by lia. lia.
Qed.

Lemma crc_register_range (data : list Z) (r : Z) :
  0 <= r < 65536 -> 0 <= fold_left crc_byte data r < 65536.
Proof.
  revert r; induction data as [|b data IH]; intros r Hr; [exact Hr|].
  cbn [fold_left]. apply IH, crc_byte_range.
Qed.

Lemma crc_register_injective (data : list Z) :
  Forall (fun b => 0 <= b < 256) data ->
  forall r1 r2, 0 <= r1 < 65536 -> 0 <= r2 < 65536 ->
  fold_left crc_byte data r1 = fold_left crc_byte data r2 -> r1 = r2.
Proof.
  induction 1 as [|b data Hb _ IH]; intros r1 r2 H1 H2 H; [exact H|].
  cbn [fold_left] in H.
  apply IH in H; [|apply crc_byte_range..].
  exact (crc_byte_injective_register r1 r2 b H1 H2 Hb H).
Qed.

(** X5: [calculate_crc] tells apart two byte strings that differ in one
    byte: changing a single byte of a message, whatever stands before
    and after it, changes the CRC. *)
Theorem calculate_crc_detects_one_byte (before after : list Z) (x y : Z) :
  Forall (fun b => 0 <= b < 256) after ->
  0 <= x < 256 -> 0 <= y < 256 -> x <> y ->
  let len := Z.of_nat (List.length (before ++ x :: after)) in
  calculate_crc (before ++ x :: after) len
  <> calculate_crc (before ++ y :: after) len.
Proof.
  intros Hafter Hx Hy Hxy len H. apply Hxy.
  unfold calculate_crc in H. subst len.
  rewrite Nat2Z.id, firstn_all in H.
  replace (List.length (before ++ x :: after))
    with (List.length (before ++ y :: after)) in H
    by (rewrite !length_app; reflexivity).
  rewrite firstn_all in H.
  rewrite !fold_left_app in H. cbn [fold_left] in H.
  set (r := fold_left crc_byte before 65535) in H.
  assert (Hr : 0 <= r < 65536) by (apply crc_register_range; lia).
  set (fx := fold_left crc_byte after (crc_byte r x)) in H.
  set (fy := fold_left crc_byte after (crc_byte r y)) in H.
  assert (Hfx : 0 <= fx < 65536) by (apply crc_register_range, crc_byte_range).
  assert (Hfy : 0 <= fy < 65536) by (apply crc_register_range, crc_byte_range).
  assert (Hu : forall f, 0 <= f < 65536 -> u16 (Z.lxor f 65535) = Z.lxor f 65535).
  { intros f Hf. apply Z.mod_small.
    exact (lxor_below 16 f 65535 ltac:(lia) Hf ltac:(cbn; lia)). }
  rewrite (Hu fx Hfx), (Hu fy Hfy) in H.
  apply lxor_cancel_r in H. unfold fx, fy in H.
  apply (crc_register_injective after Hafter) in H; [|apply crc_byte_range..].
  exact (crc_byte_injective_byte r x y Hr Hx Hy H).
Qed.

Lemma calculate_crc_detects_one_byte_witness :
  calculate_crc [0x31; 0x32; 0x33] 3 <> calculate_crc [0x31; 0x30; 0x33] 3.
Proof.
  apply (calculate_crc_detects_one_byte [0x31] [0x33] 0x32 0x30);
    [repeat constructor; lia|lia|lia|lia].
Defined.

(** ** The frame check sequence is CRC-CCITT, the addresses are AX.25's *)

(** [crc_shift]: the register moves up, and takes the polynomial in when
    its top bit was set. *)
Lemma crc_shift_form (x : Z) :
  0 <= x < 65536 ->
  crc_shift x = Z.lxor ((2 * x) mod 65536) (if Z.testbit x 15 then 0x1021 else 0).
Proof.
  intros Hx. apply Z.eqb_eq.
  exact (all_from_spec
           (fun x => crc_shift x
                     =? Z.lxor ((2 * x) mod 65536) (if Z.testbit x 15 then 0x1021 else 0))
           (Z.to_nat 65536) 0 ltac:(vm_compute; reflexivity) x ltac:(lia)).
Qed.

Lemma double_lxor (x y : Z) :
  (2 * Z.lxor x y) mod 65536 = Z.lxor ((2 * x) mod 65536) ((2 * y) mod 65536).
Proof.
  rewrite <- !shiftl_1.
  change 65536 with (2 ^ 16).
  rewrite <- !Z.land_ones by lia.
  rewrite Z.shiftl_lxor.
  apply Z.bits_inj'. intros n _.
  rewrite Z.land_spec, !Z.lxor_spec, !Z.land_spec.
  destruct (Z.testbit (Z.shiftl x 1) n), (Z.testbit (Z.shiftl y 1) n),
    (Z.testbit (Z.ones 16) n); reflexivity.
Qed.

Lemma lxor_swap_inner (a b c d : Z) :
  Z.lxor (Z.lxor a b) (Z.lxor c d) = Z.lxor (Z.lxor a c) (Z.lxor b d).
Proof.
  rewrite !Z.lxor_assoc. f_equal.
  rewrite <- !Z.lxor_assoc. f_equal. apply Z.lxor_comm.
Qed.

(** [crc_shift] is linear over GF(2). *)
Lemma crc_shift_lxor (x y : Z) :
  0 <= x < 65536 -> 0 <= y < 65536 ->
  crc_shift (Z.lxor x y) = Z.lxor (crc_shift x) (crc_shift y).
Proof.
  intros Hx Hy.
  rewrite (crc_shift_form x Hx), (crc_shift_form y Hy).
  rewrite crc_shift_form by (apply (lxor_below 16); lia).
  rewrite double_lxor, Z.lxor_spec, lxor_swap_inner.
  f_equal.
  destruct (Z.testbit x 15), (Z.testbit y 15); reflexivity.
Qed.

Lemma shifts_range (n : nat) : forall start x,
  0 <= x < 65536 ->
  0 <= for_loop n start 1 (fun _ c => crc_shift c) x < 65536.
Proof.
  induction n as [|n IH]; intros start x Hx; [exact Hx|].
  cbn [for_loop]. apply IH, crc_shift_range.
Qed.

Lemma shifts_lxor (n : nat) : forall start x y,
  0 <= x < 65536 -> 0 <= y < 65536 ->
  for_loop n start 1 (fun _ c => crc_shift c) (Z.lxor x y)
  = Z.lxor (for_loop n start 1 (fun _ c => crc_shift c) x)
           (for_loop n start 1 (fun _ c => crc_shift c) y).
Proof.
  induction n as [|n IH]; intros start x y Hx Hy; [reflexivity|].
  cbn [for_loop]. rewrite crc_shift_lxor by assumption.
  apply IH; apply crc_shift_range.
Qed.

(** One step of the bit-serial CRC is a shift of the code's register with
    the message bit added at the polynomial. *)
Lemma crc_bit_shift (r : Z) (m : bool) :
  0 <= r < 65536 ->
  crc_bit 0x1021 r m = Z.lxor (crc_shift r) (if m then 0x1021 else 0).
Proof.
  intros Hr. rewrite (crc_shift_form r Hr). unfold crc_bit.
  destruct (Z.testbit r 15), m; cbn [xorb].
  - rewrite Z.lxor_assoc, Z.lxor_nilpotent, Z.lxor_0_r. reflexivity.
  - rewrite Z.lxor_0_r. reflexivity.
  - rewrite Z.lxor_0_r. reflexivity.
  - rewrite !Z.lxor_0_r. reflexivity.
Qed.

Lemma crc_bit_range (r : Z) (m : bool) :
  0 <= r < 65536 -> 0 <= crc_bit 0x1021 r m < 65536.
Proof.
  intros Hr. rewrite crc_bit_shift by assumption.
  apply (lxor_below 16); [lia|apply crc_shift_range|destruct m; lia].
Qed.

Lemma crc_bits_range (l : list bool) : forall r,
  0 <= r < 65536 -> 0 <= fold_left (crc_bit 0x1021) l r < 65536.
Proof.
  induction l as [|m l IH]; intros r Hr; [exact Hr|].
  cbn [fold_left]. apply IH, crc_bit_range, Hr.
Qed.

(** The register after some bits: the shifts of the register it started
    from, and what the bits alone leave in an empty register. *)
Lemma crc_bits_fold (l : list bool) : forall r start,
  0 <= r < 65536 ->
  fold_left (crc_bit 0x1021) l r
  = Z.lxor (for_loop (List.length l) start 1 (fun _ c => crc_shift c) r)
           (fold_left (crc_bit 0x1021) l 0).
Proof.
  induction l as [|m l IH]; intros r start Hr.
  - cbn. rewrite Z.lxor_0_r. reflexivity.
  - cbn [fold_left List.length for_loop].
    assert (Hp : 0 <= (if m then 0x1021 else 0) < 65536) by (destruct m; lia).
    rewrite (IH (crc_bit 0x1021 r m) (start + 1)) by (apply crc_bit_range, Hr).
    rewrite (IH (crc_bit 0x1021 0 m) (start + 1)) by (apply crc_bit_range; lia).
    rewrite (crc_bit_shift r m Hr), (crc_bit_shift 0 m) by lia.
    change (crc_shift 0) with 0. rewrite Z.lxor_0_l.
    rewrite shifts_lxor by (try apply crc_shift_range; exact Hp).
    rewrite Z.lxor_assoc. reflexivity.
Qed.

Lemma crc_bits_of_byte (b : Z) :
  0 <= b < 256 ->
  fold_left (crc_bit 0x1021) (bits_msb_first b) 0
  = for_loop 8 0 1 (fun _ c => crc_shift c) (Z.shiftl b 8).
Proof.
  intros Hb. apply Z.eqb_eq.
  exact (all_from_spec
           (fun b => fold_left (crc_bit 0x1021) (bits_msb_first b) 0
                     =? for_loop 8 0 1 (fun _ c => crc_shift c) (Z.shiftl b 8))
           (Z.to_nat 256) 0 ltac:(vm_compute; reflexivity) b ltac:(lia)).
Qed.

(** The byte step of [calculate_crc] is eight steps of the bit-serial
    CRC over the bits of the byte, the most significant first. *)
Lemma crc_byte_bits (r b : Z) :
  0 <= r < 65536 -> 0 <= b < 256 ->
  crc_byte r b = fold_left (crc_bit 0x1021) (bits_msb_first b) r.
Proof.
  intros Hr Hb. unfold crc_byte.
  destruct (crc_feed r b Hr Hb) as [-> _].
  rewrite shifts_lxor by (try apply byte_shifted; assumption).
  rewrite (crc_bits_fold (bits_msb_first b) r 0 Hr).
  rewrite (crc_bits_of_byte b Hb). reflexivity.
Qed.

Lemma crc_register_bits (data : list Z) :
  Forall (fun b => 0 <= b < 256) data ->
  forall r, 0 <= r < 65536 ->
  fold_left crc_byte data r
  = fold_left (crc_bit 0x1021) (flat_map bits_msb_first data) r.
Proof.
  induction 1 as [|b data Hb _ IH]; intros r Hr; [reflexivity|].
  cbn [fold_left flat_map]. rewrite fold_left_app.
  rewrite <- (crc_byte_bits r b Hr Hb).
  apply IH, crc_byte_range.
Qed.

(** [calculate_crc] over whole bytes is CRC-CCITT: polynomial 0x1021,
    register starting at 0xFFFF, 0xFFFF added at the end. *)
Lemma calculate_crc_ccitt (data : list Z) :
  Forall (fun b => 0 <= b < 256) data ->
  calculate_crc data (Z.of_nat (List.length data))
  = crc16_msb_first 0x1021 0xFFFF 0xFFFF data.
Proof.
  intros Hd. unfold calculate_crc, crc16_msb_first.
  rewrite Nat2Z.id, firstn_all.
  rewrite (crc_register_bits data Hd) by lia.
  unfold u16. apply Z.mod_small.
  apply (lxor_below 16); [lia| |lia].
  apply crc_bits_range. lia.
Qed.

(** The value the catalogues give for this CRC over "123456789". *)
Lemma crc16_msb_first_check :
  crc16_msb_first 0x1021 0xFFFF 0xFFFF (chars "123456789") = 0xD64E.
Proof. vm_compute. reflexivity. Qed.

(** [encode_address] with [last] 0 and 1 is the address field without and
    with the end-of-address bit. *)
Lemma encode_address_field (call : string) (ssid : Z) :
  encode_address call ssid 0 = address_field call ssid false
  /\ encode_address call ssid 1 = address_field call ssid true.
Proof.
  rewrite !encode_address_closed. unfold address_field, u8.
  cbn [Z.eqb]. rewrite !lor_low_bit by lia. split; reflexivity.
Qed.

Lemma address_field_bytes (call : string) (ssid : Z) (last : bool) :
  Forall (fun b => 0 <= b < 256) (address_field call ssid last)
  /\ List.length (address_field call ssid last) = 7%nat.
Proof.
  unfold address_field. split.
  - apply Forall_app. split.
    + apply Forall_forall. intros x Hx. apply in_map_iff in Hx as (c & <- & _).
      apply Z.mod_pos_bound. lia.
    + constructor; [apply Z.mod_pos_bound; lia|constructor].
  - rewrite length_app, length_map, callsign_field_length. reflexivity.
Qed.

(** C3: for a payload of at most 256 bytes [frame_gen] writes exactly
    these bytes: the flag 0x7E; the 7 bytes of the destination address,
    which are the six callsign positions moved up by one bit and the
    SSID byte [2 * ssid] with the end-of-address bit clear (last = 0);
    the 7 bytes of the source address, formed the same way with that bit
    set (last = 1); control 0x03 and PID 0xF0; the five bytes of the
    fragment header (type code, sequence and total high byte first)
    exactly when the type is not MESSAGE; the payload; the FCS, low byte
    first; and the closing flag 0x7E.  The FCS is the CRC of 16 bits
    with polynomial 0x1021, register started at 0xFFFF and final XOR
    0xFFFF, the message taken most significant bit first, over every
    byte between the two flags that precedes it; it is what
    [calculate_crc] returns for those bytes, which are [frame_body].
    The count returned is the number of bytes written. *)
Theorem frame_gen_layout (config : ax25_config_t) (type : frame_type_t)
    (sequence total : Z) (payload : list Z)
    (Hlen : (List.length payload <= 256)%nat)
    (Hbytes : Forall (fun b => 0 <= b < 256) payload) :
  let dest_address := address_field (dest_call config) (dest config) false in
  let source_address := address_field (source_call config) (source config) true in
  let code :=
    match type with
    | BEACON_FRAME => 0 | FRAME_DATA_HEADER => 1 | FRAME_DATA_FIRST => 2
    | FRAME_DATA => 3 | FRAME_DATA_END => 4 | FRAME_MESSAGE => 5
    end in
  let header :=
    match type with
    | FRAME_MESSAGE => []
    | _ => [code; (sequence / 256) mod 256; sequence mod 256;
            (total / 256) mod 256; total mod 256]
    end in
  let between :=
    dest_address ++ source_address ++ [0x03; 0xF0] ++ header ++ payload in
  let fcs := crc16_msb_first 0x1021 0xFFFF 0xFFFF between in
  let frame := [0x7E] ++ between ++ [fcs mod 256; fcs / 256] ++ [0x7E] in
  frame_gen config type sequence total payload (Z.of_nat (List.length payload))
  = (Z.of_nat (List.length frame), frame)
  /\ removelast (tl frame) = between ++ [fcs mod 256; fcs / 256]
  /\ List.length dest_address = 7%nat
  /\ List.length source_address = 7%nat
  /\ encode_address (dest_call config) (dest config) 0 = dest_address
  /\ encode_address (source_call config) (source config) 1 = source_address
  /\ frame_body config type sequence total payload = between
  /\ calculate_crc between (Z.of_nat (List.length between)) = fcs
  /\ 0 <= fcs < 65536
  /\ Forall (fun b => 0 <= b < 256) frame
  /\ (header = [] <-> type = FRAME_MESSAGE)
  /\ (is_message type = true <-> type = FRAME_MESSAGE).
Proof.
  intros dest_address source_address code header between fcs frame.
  destruct (encode_address_field (dest_call config) (dest config)) as [Hd _].
  destruct (encode_address_field (source_call config) (source config)) as [_ Hs].
  destruct (address_field_bytes (dest_call config) (dest config) false) as [Hdb Hdl].
  destruct (address_field_bytes (source_call config) (source config) true) as [Hsb Hsl].
  fold dest_address in Hd, Hdb, Hdl. fold source_address in Hs, Hsb, Hsl.
  assert (Hbody : frame_body config type sequence total payload = between).
  { unfold frame_body. rewrite Hd, Hs. subst between header code.
    destruct type; cbn [is_message]; rewrite ?frame_header_bytes; reflexivity. }
  assert (Hhb : Forall (fun b => 0 <= b < 256) header).
  { subst header code.
    destruct type; try apply Forall_nil;
      repeat (apply Forall_cons; [try (apply Z.mod_pos_bound; lia); lia|]);
      apply Forall_nil. }
  assert (Hbb : Forall (fun b => 0 <= b < 256) between).
  { subst between. apply Forall_app; split; [exact Hdb|].
    apply Forall_app; split; [exact Hsb|].
    apply Forall_app; split; [repeat (apply Forall_cons; [lia|]); apply Forall_nil|].
    apply Forall_app; split; [exact Hhb|exact Hbytes]. }
  pose proof (calculate_crc_ccitt between Hbb) as Hcrc. fold fcs in Hcrc.
  assert (Hf : 0 <= fcs < 65536).
  { rewrite <- Hcrc. apply calculate_crc_range. }
  pose proof (frame_gen_bytes config type sequence total payload) as Hgen.
  cbv zeta in Hgen. rewrite Hbody, Hcrc in Hgen.
  split.
  { rewrite Hgen. subst frame. f_equal.
    change AX25_FLAG with 0x7E.
    cbn [app List.length]. rewrite !length_app. cbn [List.length]. lia. }
  split.
  { subst frame. cbn [app tl].
    replace (between ++ [fcs mod 256; fcs / 256; 0x7E])
      with ((between ++ [fcs mod 256; fcs / 256]) ++ [0x7E])
      by (rewrite <- app_assoc; reflexivity).
    apply removelast_last. }
  split; [exact Hdl|]. split; [exact Hsl|].
  split; [exact Hd|]. split; [exact Hs|].
  split; [exact Hbody|]. split; [exact Hcrc|]. split; [exact Hf|].
  split.
  { subst frame. apply Forall_app; split; [apply Forall_cons; [lia|apply Forall_nil]|].
    apply Forall_app; split; [exact Hbb|].
    apply Forall_app; split.
    - apply Forall_cons; [apply Z.mod_pos_bound; lia|].
      apply Forall_cons; [|apply Forall_nil].
      split; [apply Z.div_pos; lia|apply Z.div_lt_upper_bound; lia].
    - apply Forall_cons; [lia|apply Forall_nil]. }
  split.
  - subst header. destruct type; split; intros H; try discriminate H; reflexivity.
  - destruct type; split; intros H; try discriminate H; reflexivity.
Qed.

(** C3 at the beacon frame of scenario S1, byte by byte: CQ-0 with the
    end-of-address bit clear, N0CALL-0 with it set, the header of a
    beacon numbered 0 of 1, "HELLO", and the FCS 0xE656 low byte
    first. *)
Lemma frame_gen_layout_witness :
  frame_gen n0call_to_cq BEACON_FRAME 0 1 (chars "HELLO") 5
  = (30, [0x7E; 0x86; 0xA2; 0x40; 0x40; 0x40; 0x40; 0x00;
          0x9C; 0x60; 0x86; 0x82; 0x98; 0x98; 0x01;
          0x03; 0xF0; 0x00; 0x00; 0x00; 0x00; 0x01;
          0x48; 0x45; 0x4C; 0x4C; 0x4F; 0x56; 0xE6; 0x7E]).
Proof.
  pose proof (frame_gen_layout n0call_to_cq BEACON_FRAME 0 1 (chars "HELLO")
                ltac:(simpl; lia) (chars_byte "HELLO")) as [H _].
  cbv zeta in H. change (Z.of_nat (List.length (chars "HELLO"))) with 5 in H.
  rewrite H. vm_compute. reflexivity.
Defined.

(** ** Sizes of the frames of a packetization *)

Lemma packet_call_chunk (L i : Z) :
  0 < L -> 0 <= i < total_packets_of L ->
  let c := packet_call L (total_packets_of L) i in
  1 <= fc_chunk_size c <= 256
  /\ fc_offset c = 256 * i
  /\ fc_offset c + fc_chunk_size c <= L
  /\ is_message (fc_type c) = false.
Proof.
  intros HL Hi c. pose proof (total_packets_ceil L HL) as Hc.
  subst c. unfold packet_call, MAX_PAYLOAD.
  cbn [fc_chunk_size fc_offset fc_type].
  split; [destruct (Z.ltb_spec L (i * 256 + 256)); lia|].
  split; [lia|].
  split; [destruct (Z.ltb_spec L (i * 256 + 256)); lia|].
  destruct (_ =? 1); [reflexivity|].
  destruct (i =? 0); [reflexivity|].
  destruct (_ =? _); reflexivity.
Qed.

(** X6: for an input of 1 to 2147483391 bytes (INT_MAX - 256, the
    lengths for which the sum [data_length + MAX_PAYLOAD - 1] fits the
    [int] it is computed in), every frame [packetization] builds has
    between 26 and 281 bytes, so that [frame_gen] stays inside the 512
    bytes of [frame_buffer]; the count handed to [write_frame_hex] is
    the number of bytes of the frame. *)
Theorem packetization_frame_sizes (config : ax25_config_t) (data : list Z) :
  let L := Z.of_nat (List.length data) in
  0 < L <= 2147483391 ->
  Forall (fun written =>
            fst (snd written) = Z.of_nat (List.length (snd (snd written)))
            /\ 26 <= fst (snd written) <= 281)
         (snd (packetization config data L)).
Proof.
  intros L [HL _]. rewrite packetization_calls. cbn [snd].
  apply Forall_map, Forall_forall. intros i Hi. apply in_indices in Hi.
  cbv zeta. cbn [fst snd].
  destruct (packet_call_chunk L i HL ltac:(lia)) as (Hsize & Hoff & Hfit & Hmsg).
  set (c := packet_call L (total_packets_of L) i) in *.
  rewrite frame_gen_chunk
    by (rewrite length_skipn; unfold L in *; lia).
  set (chunk := firstn (Z.to_nat (fc_chunk_size c)) (skipn (Z.to_nat (fc_offset c)) data)).
  assert (Hchunk : Z.of_nat (List.length chunk) = fc_chunk_size c).
  { unfold chunk. rewrite length_firstn, length_skipn. unfold L in *. lia. }
  rewrite frame_gen_bytes. cbn [fst snd].
  rewrite length_frame_body, Hmsg.
  cbn [List.length]. rewrite length_app, length_frame_body, Hmsg.
  cbn [List.length]. lia.
Qed.

Lemma packetization_frame_sizes_witness :
  Forall (fun written =>
            fst (snd written) = Z.of_nat (List.length (snd (snd written)))
            /\ 26 <= fst (snd written) <= 281)
         (snd (packetization n0call_to_cq (repeat 0 513) 513)).
Proof.
  apply (packetization_frame_sizes n0call_to_cq (repeat 0 513)).
  rewrite repeat_length. lia.
Defined.

(** X7: a length that is zero or negative makes [packetization] write
    nothing; it returns 0 down to a length of -255 (the value [main]
    reports as an error) and a negative count below that. *)
Theorem packetization_nothing_to_send (config : ax25_config_t) (data : list Z)
    (data_length : Z) :
  data_length <= 0 ->
  snd (packetization config data data_length) = []
  /\ fst (packetization config data data_length) <= 0
  /\ (-255 <= data_length -> fst (packetization config data data_length) = 0).
Proof.
  intros HL. unfold packetization. cbn [fst snd].
  assert (Ht : total_packets_of data_length <= 0
               /\ (-255 <= data_length -> total_packets_of data_length = 0)).
  { unfold total_packets_of, MAX_PAYLOAD.
    destruct (Z.le_gt_cases (-255) data_length) as [Hge|Hlt].
    - rewrite Z.quot_small by lia. lia.
    - split; [|lia].
      replace (data_length + 256 - 1) with (- (- data_length - 255)) by lia.
      rewrite Z.quot_opp_l by lia.
      pose proof (Z.quot_pos (- data_length - 255) 256 ltac:(lia) ltac:(lia)). lia. }
  destruct Ht as [Hle H0].
  split; [|split; [exact Hle|exact H0]].
  replace (Z.to_nat (total_packets_of data_length)) with 0%nat by lia.
  reflexivity.
Qed.

Lemma packetization_nothing_to_send_witness :
  packetization n0call_to_cq [] 0 = (0, []).
Proof.
  pose proof (packetization_nothing_to_send n0call_to_cq [] 0 ltac:(lia))
    as (Hs & _ & Hf).
  specialize (Hf ltac:(lia)).
  rewrite (surjective_pairing (packetization n0call_to_cq [] 0)), Hs, Hf.
  reflexivity.
Defined.

(** ** The field tables as the codec reads them *)

Lemma byte_at_in_range (P : Z -> Prop) (buf : list Z) (i : Z) :
  Forall P buf -> P 0 -> P (byte_at buf i).
Proof.
  intros H H0. unfold byte_at.
  destruct (Nat.lt_ge_cases (Z.to_nat i) (List.length buf)) as [Hlt|Hge].
  - rewrite Forall_forall in H. apply H, nth_In, Hlt.
  - rewrite nth_overflow by exact Hge. exact H0.
Qed.

Lemma Forall_forallb {A : Type} (p : A -> bool) (l : list A) :
  forallb p l = true -> Forall (fun x => p x = true) l.
Proof. intros H. apply Forall_forall. apply forallb_forall. exact H. Qed.

Lemma gf_log_entries : Forall (fun v => 0 <= v <= 255) gf_log.
Proof.
  eapply Forall_impl; [|apply (Forall_forallb (fun v => (0 <=? v) && (v <=? 255)))].
  - cbv beta. intros v H. apply andb_true_iff in H as [H1 H2]. lia.
  - vm_compute. reflexivity.
Qed.

Lemma gf_exp_entries : Forall (fun v => 0 <= v < 256) gf_exp.
Proof.
  eapply Forall_impl; [|apply (Forall_forallb (fun v => (0 <=? v) && (v <? 256)))].
  - cbv beta. intros v H. apply andb_true_iff in H as [H1 H2]. lia.
  - vm_compute. reflexivity.
Qed.

Lemma gf_log_at_range (a : Z) : 0 <= gf_log_at a <= 255.
Proof. apply (byte_at_in_range (fun v => 0 <= v <= 255)); [apply gf_log_entries|lia]. Qed.

Lemma in_gf_exp_spec (i : Z) : in_gf_exp i = true <-> 0 <= i < 512.
Proof. unfold in_gf_exp. rewrite andb_true_iff. lia. Qed.

Section Reads.

Variables stray stray' : Z -> Z.

Lemma gf_exp_at_byte (i : Z) : 0 <= gf_exp_at stray i < 256.
Proof.
  unfold gf_exp_at. destruct (in_gf_exp i).
  - apply (byte_at_in_range (fun v => 0 <= v < 256)); [apply gf_exp_entries|lia].
  - unfold u8. apply Z.mod_pos_bound. lia.
Qed.

Lemma gf_exp_at_inside (i : Z) :
  0 <= i < 512 -> gf_exp_at stray i = gf_exp_at stray' i.
Proof.
  intros Hi. unfold gf_exp_at.
  replace (in_gf_exp i) with true by (symmetry; apply in_gf_exp_spec; exact Hi).
  reflexivity.
Qed.

Lemma gf_pow_index_range (base exp : Z) : 0 <= exp -> 0 <= gf_pow_index base exp < 255.
Proof.
  intros He. unfold gf_pow_index. pose proof (gf_log_at_range base).
  rewrite Z.rem_mod_nonneg by nia. apply Z.mod_pos_bound. lia.
Qed.

Lemma gf_mult_inside (a b : Z) : gf_mult stray a b = gf_mult stray' a b.
Proof.
  unfold gf_mult. destruct (_ || _); [reflexivity|].
  apply gf_exp_at_inside.
  pose proof (gf_log_at_range a). pose proof (gf_log_at_range b). lia.
Qed.

Lemma gf_div_inside (a b : Z) : gf_div stray a b = gf_div stray' a b.
Proof.
  unfold gf_div. destruct (b =? 0); [reflexivity|].
  destruct (a =? 0); [reflexivity|].
  apply gf_exp_at_inside.
  pose proof (gf_log_at_range a). pose proof (gf_log_at_range b). lia.
Qed.

Lemma gf_pow_inside (base exp : Z) :
  0 <= exp -> gf_pow stray base exp = gf_pow stray' base exp.
Proof.
  intros He. unfold gf_pow. destruct (base =? 0); [reflexivity|].
  apply gf_exp_at_inside. pose proof (gf_pow_index_range base exp He). lia.
Qed.

Lemma gf_mult_byte (a b : Z) : 0 <= gf_mult stray a b < 256.
Proof.
  unfold gf_mult. destruct (_ || _); [lia|apply gf_exp_at_byte].
Qed.

Lemma gf_div_byte (a b : Z) : 0 <= gf_div stray a b < 256.
Proof.
  unfold gf_div. destruct (b =? 0); [lia|].
  destruct (a =? 0); [lia|apply gf_exp_at_byte].
Qed.

Lemma gf_pow_byte (base exp : Z) : 0 <= gf_pow stray base exp < 256.
Proof.
  unfold gf_pow. destruct (base =? 0); [destruct (exp =? 0); lia|apply gf_exp_at_byte].
Qed.

End Reads.

(** X8: the table reads of [gf_mult], of [gf_div] and of the inverse
    taken in [berlekamp_massey] fall inside [gf_exp] for every argument,
    and so does the read of [gf_pow] for an exponent from 0 to 8421504,
    the exponents whose product with an entry of [gf_log] (at most 255)
    fits the [int] it is computed in: their indices lie in [0, 512), and the
    product is at most [INT_MAX]. *)
Theorem field_operations_read_inside (a b exp : Z) :
  in_gf_exp (gf_log_at a + gf_log_at b) = true
  /\ in_gf_exp (gf_log_at a + 255 - gf_log_at b) = true
  /\ in_gf_exp (255 - gf_log_at a) = true
  /\ (0 <= exp <= 8421504 ->
      0 <= gf_log_at a * exp <= 2147483647
      /\ in_gf_exp (gf_pow_index a exp) = true).
Proof.
  pose proof (gf_log_at_range a) as Ha. pose proof (gf_log_at_range b) as Hb.
  split; [apply in_gf_exp_spec; lia|].
  split; [apply in_gf_exp_spec; lia|].
  split; [apply in_gf_exp_spec; lia|].
  intros [He Hmax]. split; [nia|].
  apply in_gf_exp_spec. pose proof (gf_pow_index_range a exp He). lia.
Qed.

Lemma field_operations_read_inside_witness :
  0 <= gf_log_at 2 * 8421504 <= 2147483647
  /\ in_gf_exp (gf_pow_index 2 8421504) = true.
Proof.
  apply (field_operations_read_inside 2 0 8421504). lia.
Defined.

(** ** Loops that agree step by step *)

Lemma for_loop_ext {S : Type} (n : nat) (step : Z) (f g : Z -> S -> S) :
  forall start s,
  (forall k s', (k < n)%nat ->
     f (start + Z.of_nat k * step) s' = g (start + Z.of_nat k * step) s') ->
  for_loop n start step f s = for_loop n start step g s.
Proof.
  induction n as [|n IH]; intros start s H; [reflexivity|].
  cbn [for_loop].
  pose proof (H 0%nat s ltac:(lia)) as H0.
  replace (start + Z.of_nat 0 * step) with start in H0 by lia.
  rewrite H0. apply IH. intros k s' Hk.
  specialize (H (Datatypes.S k) s' ltac:(lia)).
  replace (start + step + Z.of_nat k * step)
    with (start + Z.of_nat (Datatypes.S k) * step) by lia.
  exact H.
Qed.

Lemma for_loop_ext_up {S : Type} (n : nat) (f g : Z -> S -> S) (start : Z) (s : S) :
  (forall i s', start <= i < start + Z.of_nat n -> f i s' = g i s') ->
  for_loop n start 1 f s = for_loop n start 1 g s.
Proof.
  intros H. apply for_loop_ext. intros k s' Hk. apply H. lia.
Qed.

Lemma for_loop_ext_all {S : Type} (n : nat) (start step : Z) (f g : Z -> S -> S) (s : S) :
  (forall i s', f i s' = g i s') ->
  for_loop n start step f s = for_loop n start step g s.
Proof. intros H. apply for_loop_ext. intros k s' _. apply H. Qed.

(** ** Which parts of the codec stay inside the table *)

Section Independence.

Variables stray stray' : Z -> Z.

Lemma generate_polynomial_generator : generate_polynomial stray = generator.
Proof. vm_compute. reflexivity. Qed.

Lemma rs_encode_block_inside (data : list Z) :
  rs_encode_block stray data = rs_encode_block stray' data.
Proof.
  unfold rs_encode_block. cbv zeta.
  match goal with
  | |- ?c ++ firstn ?n ?a = ?c ++ firstn ?n ?b =>
      assert (H : a = b); [|rewrite H; reflexivity]
  end.
  apply for_loop_ext_all. intros i remainder.
  rewrite (gf_mult_inside stray stray').
  match goal with
  | |- store ?a 0 ?v = store ?b 0 ?v =>
      assert (H : a = b); [|rewrite H; reflexivity]
  end.
  apply for_loop_ext_all. intros j r.
  rewrite (gf_mult_inside stray stray'). reflexivity.
Qed.

Lemma compute_syndromes_inside (received : list Z) :
  compute_syndromes stray received = compute_syndromes stray' received.
Proof.
  unfold compute_syndromes.
  apply for_loop_ext_up. intros i syndromes Hi.
  rewrite (gf_pow_inside stray stray') by lia.
  apply for_loop_ext_up. intros j s Hj.
  rewrite (gf_mult_inside stray stray'), (gf_pow_inside stray stray') by lia.
  reflexivity.
Qed.

Lemma bm_step_inside (syndromes : list Z) (k : Z) (st : bm_state) :
  bm_step stray syndromes k st = bm_step stray' syndromes k st.
Proof.
  unfold bm_step.
  assert (Hd : forall l d,
    for_loop (Z.to_nat (bm_deg_lambda st)) 1 1
      (fun i disc => Z.lxor disc (gf_mult stray (byte_at l i) (byte_at syndromes (k - i)))) d
    = for_loop (Z.to_nat (bm_deg_lambda st)) 1 1
      (fun i disc => Z.lxor disc (gf_mult stray' (byte_at l i) (byte_at syndromes (k - i)))) d).
  { intros l d. apply for_loop_ext_all. intros i disc.
    rewrite (gf_mult_inside stray stray'). reflexivity. }
  rewrite Hd. clear Hd.
  set (disc := for_loop _ 1 1 _ _).
  destruct (disc =? 0); [reflexivity|].
  assert (Hl :
    for_loop (Z.to_nat (bm_deg_prev st + 1)) 0 1
      (fun i lambda =>
         if byte_at (bm_prev_lambda st) i =? 0 then lambda
         else if i + (k - bm_deg_prev st) <=? PARITY
              then store lambda (i + (k - bm_deg_prev st))
                     (Z.lxor (byte_at lambda (i + (k - bm_deg_prev st)))
                             (gf_mult stray disc (byte_at (bm_prev_lambda st) i)))
              else lambda) (bm_lambda st)
    = for_loop (Z.to_nat (bm_deg_prev st + 1)) 0 1
      (fun i lambda =>
         if byte_at (bm_prev_lambda st) i =? 0 then lambda
         else if i + (k - bm_deg_prev st) <=? PARITY
              then store lambda (i + (k - bm_deg_prev st))
                     (Z.lxor (byte_at lambda (i + (k - bm_deg_prev st)))
                             (gf_mult stray' disc (byte_at (bm_prev_lambda st) i)))
              else lambda) (bm_lambda st)).
  { apply for_loop_ext_all. intros i lambda.
    rewrite (gf_mult_inside stray stray'). reflexivity. }
  cbv zeta. rewrite Hl. clear Hl.
  destruct (_ <? _); [|reflexivity].
  rewrite (gf_exp_at_inside stray stray')
    by (pose proof (gf_log_at_range disc); lia).
  match goal with
  | |- Build_bm_state ?l ?a ?d ?e = Build_bm_state ?l ?b ?d ?e =>
      assert (H : a = b); [|rewrite H; reflexivity]
  end.
  apply for_loop_ext_all. intros i p.
  rewrite (gf_mult_inside stray stray'). reflexivity.
Qed.

Lemma berlekamp_massey_inside (syndromes lambda omega : list Z) :
  berlekamp_massey stray syndromes lambda omega
  = berlekamp_massey stray' syndromes lambda omega.
Proof.
  unfold berlekamp_massey. cbv zeta.
  assert (Hst : forall st,
    for_loop (Z.to_nat PARITY) 0 1 (bm_step stray syndromes) st
    = for_loop (Z.to_nat PARITY) 0 1 (bm_step stray' syndromes) st).
  { intros st. apply for_loop_ext_all. intros k s. apply bm_step_inside. }
  rewrite Hst.
  match goal with
  | |- (?l, ?a, ?d) = (?l, ?b, ?d) =>
      assert (H : a = b); [|rewrite H; reflexivity]
  end.
  apply for_loop_ext_all. intros i om.
  apply for_loop_ext_all. intros j o.
  rewrite (gf_mult_inside stray stray'). reflexivity.
Qed.

Lemma forney_inside (lambda omega : list Z) (deg_lambda i : Z) (corrected : list Z) :
  0 <= i <= 255 ->
  forney stray lambda omega deg_lambda i corrected
  = forney stray' lambda omega deg_lambda i corrected.
Proof.
  intros Hi. unfold forney. cbv zeta.
  assert (He : 0 <= Z.rem (255 - i) 255)
    by (rewrite Z.rem_mod_nonneg by lia; apply Z.mod_pos_bound; lia).
  rewrite (gf_pow_inside stray stray') by exact He.
  set (a := gf_pow stray' ALPHA (Z.rem (255 - i) 255)).
  assert (Ho :
    for_loop (Z.to_nat PARITY) 0 1
      (fun j omega_val =>
         if byte_at omega j =? 0 then omega_val
         else Z.lxor omega_val (gf_mult stray (byte_at omega j) (gf_pow stray a j))) 0
    = for_loop (Z.to_nat PARITY) 0 1
      (fun j omega_val =>
         if byte_at omega j =? 0 then omega_val
         else Z.lxor omega_val (gf_mult stray' (byte_at omega j) (gf_pow stray' a j))) 0).
  { apply for_loop_ext_up. intros j v Hj.
    rewrite (gf_mult_inside stray stray'), (gf_pow_inside stray stray') by lia.
    reflexivity. }
  rewrite Ho. clear Ho.
  assert (Hp :
    for_loop (Z.to_nat (Z.quot (deg_lambda + 1) 2)) 1 2
      (fun j lambda_prime =>
         if byte_at lambda j =? 0 then lambda_prime
         else Z.lxor lambda_prime
                (gf_mult stray (byte_at lambda j) (gf_pow stray a (j - 1)))) 0
    = for_loop (Z.to_nat (Z.quot (deg_lambda + 1) 2)) 1 2
      (fun j lambda_prime =>
         if byte_at lambda j =? 0 then lambda_prime
         else Z.lxor lambda_prime
                (gf_mult stray' (byte_at lambda j) (gf_pow stray' a (j - 1)))) 0).
  { apply for_loop_ext. intros k v Hk.
    rewrite (gf_mult_inside stray stray'), (gf_pow_inside stray stray') by lia.
    reflexivity. }
  rewrite Hp. clear Hp.
  destruct (_ =? 0); [reflexivity|].
  rewrite (gf_div_inside stray stray'). reflexivity.
Qed.

Lemma chien_sum_inside (lambda : list Z) (deg_lambda i : Z) :
  0 <= i -> i * deg_lambda <= 255 ->
  chien_sum stray lambda deg_lambda i = chien_sum stray' lambda deg_lambda i.
Proof.
  intros Hi Hd. unfold chien_sum.
  apply for_loop_ext_up. intros j sum Hj.
  assert (He : 0 <= chien_exponent i j).
  { apply (proj1 (chien_exponent_sign i j)). nia. }
  rewrite (gf_mult_inside stray stray'), (gf_pow_inside stray stray') by exact He.
  reflexivity.
Qed.

End Independence.

(** X9: the encoder, the syndromes, [berlekamp_massey] and the Forney
    step never read [gf_exp] outside its bounds: what they return is the
    same whatever the memory around the table holds.  The locator
    evaluation of the search shares this only as long as
    [i * deg_lambda <= 255]. *)
Theorem codec_reads_inside_table (stray stray' : Z -> Z) :
  generate_polynomial stray = generator
  /\ (forall data, rs_encode_block stray data = rs_encode_block stray' data)
  /\ (forall received,
        compute_syndromes stray received = compute_syndromes stray' received)
  /\ (forall syndromes lambda omega,
        berlekamp_massey stray syndromes lambda omega
        = berlekamp_massey stray' syndromes lambda omega)
  /\ (forall lambda omega deg_lambda i corrected,
        0 <= i <= 255 ->
        forney stray lambda omega deg_lambda i corrected
        = forney stray' lambda omega deg_lambda i corrected)
  /\ (forall lambda deg_lambda i,
        0 <= i -> i * deg_lambda <= 255 ->
        chien_sum stray lambda deg_lambda i = chien_sum stray' lambda deg_lambda i).
Proof.
  split; [apply generate_polynomial_generator|].
  split; [apply rs_encode_block_inside|].
  split; [apply compute_syndromes_inside|].
  split; [apply berlekamp_massey_inside|].
  split; [apply forney_inside|apply chien_sum_inside].
Qed.

(** ** GF(2^8) as the tables define it *)

Lemma all_from_forall (P : Z -> bool) (lo hi : Z) :
  all_from (Z.to_nat (hi - lo)) lo P = true ->
  forall x, lo <= x < hi -> P x = true.
Proof. intros H x Hx. apply (all_from_spec P _ lo H). lia. Qed.

Lemma gf_exp_periodic (i : Z) : 0 <= i < 512 -> byte_at gf_exp i = alpha_power i.
Proof.
  intros Hi. apply Z.eqb_eq.
  exact (all_from_forall (fun i => byte_at gf_exp i =? alpha_power i) 0 512
           ltac:(vm_compute; reflexivity) i Hi).
Qed.

Lemma alpha_power_log (n : Z) :
  0 <= n < 255 -> 1 <= alpha_power n < 256 /\ gf_log_at (alpha_power n) = n.
Proof.
  intros Hn.
  pose proof (all_from_forall
                (fun n => (1 <=? alpha_power n) && (alpha_power n <? 256)
                          && (gf_log_at (alpha_power n) =? n)) 0 255
                ltac:(vm_compute; reflexivity) n Hn) as H.
  cbv beta in H. apply andb_true_iff in H as [H H3].
  apply andb_true_iff in H as [H1 H2]. lia.
Qed.

Lemma log_alpha_power (a : Z) :
  1 <= a < 256 -> 0 <= gf_log_at a < 255 /\ alpha_power (gf_log_at a) = a.
Proof.
  intros Ha.
  pose proof (all_from_forall
                (fun a => (0 <=? gf_log_at a) && (gf_log_at a <? 255)
                          && (alpha_power (gf_log_at a) =? a)) 1 256
                ltac:(vm_compute; reflexivity) a Ha) as H.
  cbv beta in H. apply andb_true_iff in H as [H H3].
  apply andb_true_iff in H as [H1 H2]. lia.
Qed.

Lemma alpha_power_mod (n : Z) : alpha_power (n mod 255) = alpha_power n.
Proof. unfold alpha_power. rewrite Z.mod_mod by lia. reflexivity. Qed.

Lemma alpha_power_byte (n : Z) : 1 <= alpha_power n < 256.
Proof.
  rewrite <- alpha_power_mod.
  apply alpha_power_log. apply Z.mod_pos_bound. lia.
Qed.

Lemma log_of_alpha_power (n : Z) : gf_log_at (alpha_power n) = n mod 255.
Proof.
  rewrite <- alpha_power_mod.
  apply alpha_power_log. apply Z.mod_pos_bound. lia.
Qed.

Lemma alpha_power_add (m n : Z) :
  alpha_power (m mod 255 + n) = alpha_power (m + n).
Proof.
  unfold alpha_power. f_equal. rewrite Z.add_mod_idemp_l by lia. reflexivity.
Qed.

Section Field.

Variable stray : Z -> Z.

Lemma gf_exp_at_alpha (i : Z) : 0 <= i < 512 -> gf_exp_at stray i = alpha_power i.
Proof.
  intros Hi. unfold gf_exp_at.
  replace (in_gf_exp i) with true by (symmetry; apply in_gf_exp_spec; exact Hi).
  apply gf_exp_periodic, Hi.
Qed.

(** Products, quotients and powers of nonzero bytes, by exponents. *)
Lemma gf_mult_nonzero (a b : Z) :
  1 <= a < 256 -> 1 <= b < 256 ->
  gf_mult stray a b = alpha_power (gf_log_at a + gf_log_at b).
Proof.
  intros Ha Hb. unfold gf_mult.
  destruct (Z.eqb_spec a 0); [lia|]. destruct (Z.eqb_spec b 0); [lia|].
  cbn [orb]. apply gf_exp_at_alpha.
  pose proof (log_alpha_power a Ha). pose proof (log_alpha_power b Hb). lia.
Qed.

Lemma gf_div_nonzero (a b : Z) :
  1 <= a < 256 -> 1 <= b < 256 ->
  gf_div stray a b = alpha_power (gf_log_at a + 255 - gf_log_at b).
Proof.
  intros Ha Hb. unfold gf_div.
  destruct (Z.eqb_spec a 0); [lia|]. destruct (Z.eqb_spec b 0); [lia|].
  apply gf_exp_at_alpha.
  pose proof (log_alpha_power a Ha). pose proof (log_alpha_power b Hb). lia.
Qed.

Lemma gf_pow_nonzero (a e : Z) :
  1 <= a < 256 -> 0 <= e ->
  gf_pow stray a e = alpha_power (gf_log_at a * e).
Proof.
  intros Ha He. unfold gf_pow. destruct (Z.eqb_spec a 0); [lia|].
  pose proof (gf_pow_index_range a e He) as Hr.
  rewrite gf_exp_at_alpha by lia.
  unfold gf_pow_index. pose proof (log_alpha_power a Ha).
  rewrite Z.rem_mod_nonneg by nia. apply alpha_power_mod.
Qed.

Lemma gf_mult_zero_l (b : Z) : gf_mult stray 0 b = 0.
Proof. reflexivity. Qed.

Lemma gf_mult_zero_r (a : Z) : gf_mult stray a 0 = 0.
Proof. unfold gf_mult. rewrite orb_true_r. reflexivity. Qed.

Lemma byte_cases (a : Z) : 0 <= a < 256 -> a = 0 \/ 1 <= a < 256.
Proof. lia. Qed.

Lemma gf_mult_comm (a b : Z) :
  0 <= a < 256 -> 0 <= b < 256 -> gf_mult stray a b = gf_mult stray b a.
Proof.
  intros Ha Hb.
  destruct (byte_cases a Ha) as [->|Ha']; [rewrite gf_mult_zero_r; reflexivity|].
  destruct (byte_cases b Hb) as [->|Hb']; [rewrite gf_mult_zero_r; reflexivity|].
  rewrite !gf_mult_nonzero by assumption. f_equal. lia.
Qed.

Lemma gf_mult_nonzero_byte (a b : Z) :
  1 <= a < 256 -> 1 <= b < 256 -> 1 <= gf_mult stray a b < 256.
Proof.
  intros Ha Hb. rewrite gf_mult_nonzero by assumption. apply alpha_power_byte.
Qed.

Lemma gf_mult_assoc (a b c : Z) :
  0 <= a < 256 -> 0 <= b < 256 -> 0 <= c < 256 ->
  gf_mult stray (gf_mult stray a b) c = gf_mult stray a (gf_mult stray b c).
Proof.
  intros Ha Hb Hc.
  destruct (byte_cases a Ha) as [->|Ha']; [reflexivity|].
  destruct (byte_cases b Hb) as [->|Hb'];
    [rewrite gf_mult_zero_r, gf_mult_zero_l, gf_mult_zero_r; reflexivity|].
  destruct (byte_cases c Hc) as [->|Hc'];
    [rewrite !gf_mult_zero_r; reflexivity|].
  rewrite (gf_mult_nonzero (gf_mult stray a b) c)
    by (try apply gf_mult_nonzero_byte; assumption).
  rewrite (gf_mult_nonzero a (gf_mult stray b c))
    by (try apply gf_mult_nonzero_byte; assumption).
  rewrite (gf_mult_nonzero a b), (gf_mult_nonzero b c) by assumption.
  rewrite !log_of_alpha_power.
  rewrite alpha_power_add.
  rewrite (Z.add_comm (gf_log_at a) (_ mod 255)), alpha_power_add.
  f_equal. lia.
Qed.

Lemma gf_mult_one_r (a : Z) : 0 <= a < 256 -> gf_mult stray a 1 = a.
Proof.
  intros Ha. destruct (byte_cases a Ha) as [->|Ha']; [reflexivity|].
  rewrite gf_mult_nonzero by lia.
  change (gf_log_at 1) with 0. rewrite Z.add_0_r.
  apply log_alpha_power, Ha'.
Qed.

Lemma gf_div_mult (a b : Z) :
  0 <= a < 256 -> 1 <= b < 256 -> gf_mult stray (gf_div stray a b) b = a.
Proof.
  intros Ha Hb. destruct (byte_cases a Ha) as [->|Ha'].
  - unfold gf_div. destruct (b =? 0); reflexivity.
  - rewrite gf_div_nonzero by assumption.
    rewrite gf_mult_nonzero by (try apply alpha_power_byte; assumption).
    rewrite log_of_alpha_power, alpha_power_add.
    replace (gf_log_at a + 255 - gf_log_at b + gf_log_at b)
      with (gf_log_at a + 1 * 255) by lia.
    unfold alpha_power. rewrite Z.mod_add by lia.
    fold (alpha_power (gf_log_at a)). apply log_alpha_power, Ha'.
Qed.

End Field.

Lemma lxor_interchange (a b c d : Z) :
  Z.lxor (Z.lxor a b) (Z.lxor c d) = Z.lxor (Z.lxor a c) (Z.lxor b d).
Proof.
  rewrite !Z.lxor_assoc. f_equal.
  rewrite <- !Z.lxor_assoc. f_equal. apply Z.lxor_comm.
Qed.

Lemma fold_lxor_split {A : Type} (f g : A -> Z) (l : list A) :
  fold_right Z.lxor 0 (map (fun k => Z.lxor (f k) (g k)) l)
  = Z.lxor (fold_right Z.lxor 0 (map f l)) (fold_right Z.lxor 0 (map g l)).
Proof.
  induction l as [|k l IH]; [reflexivity|].
  cbn [map fold_right]. rewrite IH. apply lxor_interchange.
Qed.

Lemma bit_term_xorb (p q : bool) (v : Z) :
  bit_term (xorb p q) v = Z.lxor (bit_term p v) (bit_term q v).
Proof.
  destruct p, q; cbn [xorb bit_term];
    rewrite ?Z.lxor_nilpotent, ?Z.lxor_0_r, ?Z.lxor_0_l; reflexivity.
Qed.

Lemma gf_mult_by_bits_lxor (stray : Z -> Z) (c a b : Z) :
  gf_mult_by_bits stray c (Z.lxor a b)
  = Z.lxor (gf_mult_by_bits stray c a) (gf_mult_by_bits stray c b).
Proof.
  unfold gf_mult_by_bits. rewrite <- fold_lxor_split.
  f_equal. apply map_ext. intros k.
  rewrite Z.lxor_spec. apply bit_term_xorb.
Qed.

Lemma gf_mult_by_bits_inside (stray stray' : Z -> Z) (c a : Z) :
  gf_mult_by_bits stray c a = gf_mult_by_bits stray' c a.
Proof.
  unfold gf_mult_by_bits. f_equal. apply map_ext. intros k.
  rewrite (gf_mult_inside stray stray'). reflexivity.
Qed.

Lemma gf_mult_bits_checked :
  all_from 256 0
    (fun c => all_from 256 0
       (fun a => gf_mult (fun _ => 0) a c =? gf_mult_by_bits (fun _ => 0) c a))
  = true.
Proof. vm_compute. reflexivity. Qed.

Lemma gf_mult_bits (stray : Z -> Z) (a c : Z) :
  0 <= a < 256 -> 0 <= c < 256 ->
  gf_mult stray a c = gf_mult_by_bits stray c a.
Proof.
  intros Ha Hc.
  rewrite (gf_mult_inside stray (fun _ => 0)),
          (gf_mult_by_bits_inside stray (fun _ => 0)).
  pose proof (all_from_spec _ 256 0 gf_mult_bits_checked c ltac:(lia)) as H.
  cbv beta in H.
  pose proof (all_from_spec _ 256 0 H a ltac:(lia)) as H'.
  cbv beta in H'. apply Z.eqb_eq. exact H'.
Qed.

Lemma lxor_byte (a b : Z) : 0 <= a < 256 -> 0 <= b < 256 -> 0 <= Z.lxor a b < 256.
Proof. intros Ha Hb. exact (lxor_below 8 a b ltac:(lia) Ha Hb). Qed.

Lemma gf_mult_lxor_l (stray : Z -> Z) (a b c : Z) :
  0 <= a < 256 -> 0 <= b < 256 -> 0 <= c < 256 ->
  gf_mult stray (Z.lxor a b) c
  = Z.lxor (gf_mult stray a c) (gf_mult stray b c).
Proof.
  intros Ha Hb Hc.
  rewrite !gf_mult_bits by (try apply lxor_byte; assumption).
  apply gf_mult_by_bits_lxor.
Qed.

Lemma gf_mult_lxor_r (stray : Z -> Z) (a b c : Z) :
  0 <= a < 256 -> 0 <= b < 256 -> 0 <= c < 256 ->
  gf_mult stray c (Z.lxor a b)
  = Z.lxor (gf_mult stray c a) (gf_mult stray c b).
Proof.
  intros Ha Hb Hc.
  rewrite (gf_mult_comm stray c (Z.lxor a b)) by (try apply lxor_byte; assumption).
  rewrite (gf_mult_comm stray c a), (gf_mult_comm stray c b) by assumption.
  apply gf_mult_lxor_l; assumption.
Qed.

(** X10: on bytes the operations of the codec are those of a field of
    256 elements with XOR for its addition: [gf_mult] is commutative and
    associative, has the unit 1, distributes over XOR and gives 0 only
    when a factor is 0; [gf_div] undoes it, and returns 0 when the
    divisor is 0. *)
Theorem galois_field_laws (stray : Z -> Z) (a b c : Z) :
  0 <= a < 256 -> 0 <= b < 256 -> 0 <= c < 256 ->
  0 <= gf_mult stray a b < 256
  /\ gf_mult stray a b = gf_mult stray b a
  /\ gf_mult stray (gf_mult stray a b) c = gf_mult stray a (gf_mult stray b c)
  /\ gf_mult stray a 1 = a
  /\ gf_mult stray (Z.lxor a b) c = Z.lxor (gf_mult stray a c) (gf_mult stray b c)
  /\ (gf_mult stray a b = 0 <-> a = 0 \/ b = 0)
  /\ (b <> 0 -> gf_mult stray (gf_div stray a b) b = a)
  /\ gf_div stray a 0 = 0.
Proof.
  intros Ha Hb Hc.
  split; [apply gf_mult_byte|].
  split; [apply gf_mult_comm; assumption|].
  split; [apply gf_mult_assoc; assumption|].
  split; [apply gf_mult_one_r; assumption|].
  split; [apply gf_mult_lxor_l; assumption|].
  split.
  { split.
    - intros H. destruct (byte_cases a Ha) as [->|Ha']; [left; reflexivity|].
      destruct (byte_cases b Hb) as [->|Hb']; [right; reflexivity|].
      pose proof (gf_mult_nonzero_byte stray a b Ha' Hb'). lia.
    - intros [-> | ->]; [reflexivity|apply gf_mult_zero_r]. }
  split; [intros Hb0; apply gf_div_mult; lia|reflexivity].
Qed.

Lemma galois_field_laws_witness :
  gf_mult (fun _ => 0) (gf_div (fun _ => 0) 7 29) 29 = 7.
Proof.
  apply (galois_field_laws (fun _ => 0) 7 29 0); lia.
Defined.

(** ** Buffers *)

Lemma length_store_nat (buf : list Z) (i : nat) (v : Z) :
  List.length (store_nat buf i v) = List.length buf.
Proof.
  revert i; induction buf as [|h t IH]; intros i; [reflexivity|].
  destruct i; cbn [store_nat List.length]; [reflexivity|]. rewrite IH. reflexivity.
Qed.

Lemma length_store (buf : list Z) (i v : Z) :
  List.length (store buf i v) = List.length buf.
Proof. unfold store. destruct (i <? 0); [reflexivity|apply length_store_nat]. Qed.

Lemma nth_store_nat_same (buf : list Z) (i : nat) (v d : Z) :
  (i < List.length buf)%nat -> nth i (store_nat buf i v) d = v.
Proof.
  revert i; induction buf as [|h t IH]; intros i Hi; [cbn in Hi; lia|].
  destruct i; [reflexivity|]. cbn [store_nat nth]. apply IH. cbn in Hi. lia.
Qed.

Lemma nth_store_nat_other (buf : list Z) (i j : nat) (v d : Z) :
  i <> j -> nth j (store_nat buf i v) d = nth j buf d.
Proof.
  revert i j; induction buf as [|h t IH]; intros i j Hij; [reflexivity|].
  destruct i, j; cbn [store_nat nth]; try reflexivity; [lia|].
  apply IH. lia.
Qed.

Lemma byte_at_store_same (buf : list Z) (i v : Z) :
  0 <= i < Z.of_nat (List.length buf) -> byte_at (store buf i v) i = v.
Proof.
  intros Hi. unfold byte_at, store. destruct (Z.ltb_spec i 0); [lia|].
  apply nth_store_nat_same. lia.
Qed.

Lemma byte_at_store_other (buf : list Z) (i j v : Z) :
  0 <= j -> i <> j -> byte_at (store buf i v) j = byte_at buf j.
Proof.
  intros Hj Hij. unfold byte_at, store. destruct (Z.ltb_spec i 0); [reflexivity|].
  apply nth_store_nat_other. lia.
Qed.

Lemma store_nat_twice (buf : list Z) (i : nat) (v w : Z) :
  store_nat (store_nat buf i v) i w = store_nat buf i w.
Proof.
  revert i; induction buf as [|h t IH]; intros i; [reflexivity|].
  destruct i; cbn [store_nat]; [reflexivity|]. rewrite IH. reflexivity.
Qed.

Lemma store_twice (buf : list Z) (i v w : Z) :
  store (store buf i v) i w = store buf i w.
Proof. unfold store. destruct (i <? 0); [reflexivity|apply store_nat_twice]. Qed.

Lemma store_nat_same_value (buf : list Z) (i : nat) (d : Z) :
  (i < List.length buf)%nat -> store_nat buf i (nth i buf d) = buf.
Proof.
  revert i; induction buf as [|h t IH]; intros i Hi; [reflexivity|].
  destruct i; cbn [store_nat nth]; [reflexivity|]. rewrite IH; [reflexivity|].
  cbn in Hi. lia.
Qed.

Lemma store_same_value (buf : list Z) (i : Z) :
  0 <= i < Z.of_nat (List.length buf) -> store buf i (byte_at buf i) = buf.
Proof.
  intros Hi. unfold store, byte_at. destruct (Z.ltb_spec i 0); [lia|].
  apply store_nat_same_value. lia.
Qed.

Lemma Forall_store_nat (P : Z -> Prop) (buf : list Z) (i : nat) (v : Z) :
  Forall P buf -> P v -> Forall P (store_nat buf i v).
Proof.
  intros H Hv. revert i. induction H as [|h t Hh Ht IH]; intros i; [constructor|].
  destruct i; cbn [store_nat]; constructor; auto.
Qed.

Lemma Forall_store (P : Z -> Prop) (buf : list Z) (i v : Z) :
  Forall P buf -> P v -> Forall P (store buf i v).
Proof.
  intros H Hv. unfold store. destruct (i <? 0); [exact H|].
  apply Forall_store_nat; assumption.
Qed.

(** An accumulating loop on one cell of a buffer is the loop on the
    value of the cell. *)
Lemma for_loop_cell (n : nat) (step i : Z) (t : Z -> Z -> Z) : forall start buf,
  0 <= i < Z.of_nat (List.length buf) ->
  for_loop n start step (fun j s => store s i (t j (byte_at s i))) buf
  = store buf i (for_loop n start step t (byte_at buf i)).
Proof.
  induction n as [|n IH]; intros start buf Hi.
  - cbn [for_loop]. symmetry. apply store_same_value, Hi.
  - cbn [for_loop]. rewrite IH by (rewrite length_store; exact Hi).
    rewrite byte_at_store_same by exact Hi. apply store_twice.
Qed.

(** A loop that fills the cells [0 .. n-1] one after the other. *)
Lemma for_loop_fill (V : Z -> Z) (n : nat) : forall buf,
  (n <= List.length buf)%nat ->
  let filled := for_loop n 0 1 (fun i s => store s i (V i)) buf in
  List.length filled = List.length buf
  /\ forall i, 0 <= i < Z.of_nat n -> byte_at filled i = V i.
Proof.
  induction n as [|n IH]; intros buf Hn; cbv zeta.
  - split; [reflexivity|intros i Hi; lia].
  - rewrite for_loop_last. replace (0 + Z.of_nat n * 1) with (Z.of_nat n) by lia.
    destruct (IH buf ltac:(lia)) as [Hlen Hval]. cbv zeta in Hlen, Hval.
    split; [rewrite length_store; exact Hlen|].
    intros i Hi. destruct (Z.eq_dec i (Z.of_nat n)) as [->|Hne].
    + apply byte_at_store_same. rewrite Hlen. lia.
    + rewrite byte_at_store_other by lia. apply Hval. lia.
Qed.

(** ** Powers *)

Section Powers.

Variable stray : Z -> Z.

Lemma gf_pow_zero_exponent (a : Z) : 0 <= a < 256 -> gf_pow stray a 0 = 1.
Proof.
  intros Ha. destruct (byte_cases a Ha) as [->|Ha']; [reflexivity|].
  rewrite gf_pow_nonzero by lia. rewrite Z.mul_0_r. reflexivity.
Qed.

Lemma gf_pow_succ (a e : Z) :
  0 <= a < 256 -> 0 <= e ->
  gf_pow stray a (e + 1) = gf_mult stray a (gf_pow stray a e).
Proof.
  intros Ha He. destruct (byte_cases a Ha) as [->|Ha'].
  - unfold gf_pow. cbn [Z.eqb]. destruct (Z.eqb_spec (e + 1) 0); [lia|reflexivity].
  - rewrite !gf_pow_nonzero by lia.
    rewrite gf_mult_nonzero by (try apply alpha_power_byte; assumption).
    rewrite log_of_alpha_power.
    rewrite (Z.add_comm (gf_log_at a)), alpha_power_add. f_equal. lia.
Qed.

Lemma gf_pow_alpha (e : Z) : 0 <= e -> gf_pow stray ALPHA e = alpha_power e.
Proof.
  intros He. rewrite gf_pow_nonzero by (unfold ALPHA; lia).
  change (gf_log_at ALPHA) with 1. f_equal. lia.
Qed.

Lemma gf_pow_period (a e : Z) :
  1 <= a < 256 -> 0 <= e -> gf_pow stray a (e + 255) = gf_pow stray a e.
Proof.
  intros Ha He. rewrite !gf_pow_nonzero by lia.
  replace (gf_log_at a * (e + 255)) with (gf_log_at a * e + gf_log_at a * 255) by lia.
  unfold alpha_power. rewrite Z.mod_add by lia. reflexivity.
Qed.

End Powers.

(** X11: [gf_pow] with an exponent from 0 to 8421249 is the power of the
    field: [a^0 = 1] (also for [a = 0]), [a^(e+1) = a * a^e], and for
    [a] other than 0 the exponent counts modulo 255.  The bound keeps
    every product [gf_log[a] * exp] formed here, up to the exponent
    [e + 255], inside the [int] it is computed in. *)
Theorem gf_pow_is_power (stray : Z -> Z) (a e : Z) :
  0 <= a < 256 -> 0 <= e <= 8421249 ->
  0 <= gf_log_at a * (e + 255) <= 2147483647
  /\ 0 <= gf_pow stray a e < 256
  /\ gf_pow stray a 0 = 1
  /\ gf_pow stray a (e + 1) = gf_mult stray a (gf_pow stray a e)
  /\ (a <> 0 -> gf_pow stray a (e + 255) = gf_pow stray a e).
Proof.
  intros Ha [He Hmax].
  split; [pose proof (gf_log_at_range a); nia|].
  split; [apply gf_pow_byte|].
  split; [apply gf_pow_zero_exponent, Ha|].
  split; [apply gf_pow_succ; assumption|].
  intros Hne. apply gf_pow_period; lia.
Qed.

Lemma gf_pow_is_power_witness :
  gf_pow (fun _ => 0) 3 (8421249 + 1)
  = gf_mult (fun _ => 0) 3 (gf_pow (fun _ => 0) 3 8421249).
Proof.
  apply (gf_pow_is_power (fun _ => 0) 3 8421249); lia.
Defined.

Lemma for_loop_ext_inv {S : Type} (I : S -> Prop) (n : nat) (step : Z)
    (f g : Z -> S -> S) : forall start s,
  I s ->
  (forall k s', (k < n)%nat -> I s' ->
     f (start + Z.of_nat k * step) s' = g (start + Z.of_nat k * step) s'
     /\ I (g (start + Z.of_nat k * step) s')) ->
  for_loop n start step f s = for_loop n start step g s
  /\ I (for_loop n start step g s).
Proof.
  induction n as [|n IH]; intros start s Hs H; [split; [reflexivity|exact Hs]|].
  cbn [for_loop].
  destruct (H 0%nat s ltac:(lia) Hs) as [H0 HI].
  replace (start + Z.of_nat 0 * step) with start in H0, HI by lia.
  rewrite H0. apply IH; [exact HI|]. intros k s' Hk Hs'.
  specialize (H (Datatypes.S k) s' ltac:(lia) Hs').
  replace (start + step + Z.of_nat k * step)
    with (start + Z.of_nat (Datatypes.S k) * step) by lia.
  exact H.
Qed.

(** ** Polynomials over the field *)

Section Polynomials.

Variable stray : Z -> Z.
Variable r : Z.
Hypothesis r_byte : 0 <= r < 256.

Local Notation "a ** b" := (gf_mult stray a b) (at level 40, left associativity).
Local Notation "a (+) b" := (Z.lxor a b) (at level 50, left associativity).

Lemma poly_eval_byte (l : list Z) : Forall is_byte l -> 0 <= poly_eval stray r l < 256.
Proof.
  induction 1 as [|c l Hc _ IH]; [cbn; lia|].
  cbn [poly_eval fold_right]. apply lxor_byte; [exact Hc|apply gf_mult_byte].
Qed.

Lemma poly_eval_cons (c : Z) (l : list Z) :
  poly_eval stray r (c :: l) = c (+) r ** poly_eval stray r l.
Proof. reflexivity. Qed.

Lemma gf_mult_zero_right (a : Z) : a ** 0 = 0.
Proof. apply gf_mult_zero_r. Qed.

Lemma lxor_zero_r_byte (a : Z) : a (+) 0 = a.
Proof. apply Z.lxor_0_r. Qed.

Lemma poly_eval_app (a b : list Z) :
  Forall is_byte a -> Forall is_byte b ->
  poly_eval stray r (a ++ b)
  = poly_eval stray r a
    (+) gf_pow stray r (Z.of_nat (List.length a)) ** poly_eval stray r b.
Proof.
  intros Ha Hb. induction Ha as [|c a Hc Ha IH].
  - cbn [app List.length Z.of_nat poly_eval fold_right].
    rewrite gf_pow_zero_exponent by exact r_byte.
    rewrite Z.lxor_0_l.
    rewrite gf_mult_comm, gf_mult_one_r by (try apply poly_eval_byte; auto; lia).
    reflexivity.
  - cbn [app]. rewrite !poly_eval_cons, IH.
    pose proof (poly_eval_byte a Ha) as Hpa.
    pose proof (poly_eval_byte b Hb) as Hpb.
    pose proof (gf_pow_byte stray r (Z.of_nat (List.length a))) as Hpw.
    rewrite gf_mult_lxor_r by (try apply gf_mult_byte; assumption).
    rewrite Z.lxor_assoc. f_equal. f_equal.
    cbn [List.length]. rewrite Nat2Z.inj_succ, <- Z.add_1_r.
    rewrite gf_pow_succ by lia.
    rewrite gf_mult_assoc by assumption. reflexivity.
Qed.

Lemma poly_eval_scale (f : Z) (l : list Z) :
  0 <= f < 256 -> Forall is_byte l ->
  poly_eval stray r (map (fun g => g ** f) l) = poly_eval stray r l ** f.
Proof.
  intros Hf Hl. induction Hl as [|c l Hc Hl IH]; [reflexivity|].
  cbn [map]. rewrite !poly_eval_cons, IH.
  pose proof (poly_eval_byte l Hl) as Hp.
  rewrite gf_mult_lxor_l by (try apply gf_mult_byte; assumption).
  f_equal. symmetry. apply gf_mult_assoc; assumption.
Qed.

Lemma poly_eval_sum (a b : list Z) :
  List.length a = List.length b -> Forall is_byte a -> Forall is_byte b ->
  poly_eval stray r (map (fun p => fst p (+) snd p) (combine a b))
  = poly_eval stray r a (+) poly_eval stray r b.
Proof.
  intros Hlen Ha. revert b Hlen. induction Ha as [|x a Hx Ha IH]; intros b Hlen Hb.
  - destruct b; [reflexivity|discriminate].
  - destruct b as [|y b]; [discriminate|].
    inversion Hb as [|? ? Hy Hb']; subst.
    cbn [combine map fst snd]. rewrite !poly_eval_cons.
    rewrite IH by (try assumption; cbn in Hlen; lia).
    rewrite gf_mult_lxor_r by (try apply poly_eval_byte; assumption).
    apply lxor_interchange.
Qed.

(** The sum the syndrome loop accumulates, from position [|before|] on. *)
Lemma weighted_sum (rest : list Z) : forall before acc,
  Forall is_byte rest -> 0 <= acc < 256 ->
  for_loop (List.length rest) (Z.of_nat (List.length before)) 1
    (fun j acc => acc (+) byte_at (before ++ rest) j ** gf_pow stray r j) acc
  = acc (+) gf_pow stray r (Z.of_nat (List.length before)) ** poly_eval stray r rest.
Proof.
  induction rest as [|x rest IH]; intros before acc Hrest Hacc.
  - cbn [List.length for_loop poly_eval fold_right].
    rewrite gf_mult_zero_right, Z.lxor_0_r. reflexivity.
  - inversion Hrest as [|? ? Hx Hrest']; subst.
    cbn [List.length for_loop].
    assert (Hat : byte_at (before ++ x :: rest) (Z.of_nat (List.length before)) = x).
    { unfold byte_at. rewrite Nat2Z.id, app_nth2, Nat.sub_diag by lia. reflexivity. }
    rewrite Hat.
    specialize (IH (before ++ [x])). rewrite <- app_assoc in IH. cbn [app] in IH.
    replace (Z.of_nat (List.length before) + 1)%Z
      with (Z.of_nat (List.length (before ++ [x])))
      by (rewrite length_app; cbn [List.length]; lia).
    pose proof (gf_pow_byte stray r (Z.of_nat (List.length before))) as Hpw.
    pose proof (poly_eval_byte rest Hrest') as Hp.
    rewrite IH; [|assumption|apply lxor_byte; [assumption|apply gf_mult_byte]].
    rewrite poly_eval_cons.
    rewrite length_app. cbn [List.length].
    replace (Z.of_nat (List.length before + 1)) with (Z.of_nat (List.length before) + 1)%Z by lia.
    rewrite gf_pow_succ by lia.
    rewrite gf_mult_lxor_r by (try apply gf_mult_byte; assumption).
    rewrite Z.lxor_assoc. f_equal. f_equal.
    + apply gf_mult_comm; assumption.
    + rewrite <- !gf_mult_assoc by assumption.
      f_equal. apply gf_mult_comm; assumption.
Qed.

End Polynomials.

(** ** Syndromes *)

Section Syndromes.

Variable stray : Z -> Z.

(** The value the inner loop of [compute_syndromes] leaves in
    [syndromes[i]]. *)
Lemma syndrome_value (received : list Z) (r : Z) :
  List.length received = Z.to_nat N -> Forall is_byte received -> 0 <= r < 256 ->
  for_loop (Z.to_nat N) 0 1
    (fun j acc => Z.lxor acc (gf_mult stray (byte_at received j) (gf_pow stray r j))) 0
  = poly_eval stray r received.
Proof.
  intros Hlen Hbytes Hr. rewrite <- Hlen.
  pose proof (weighted_sum stray r Hr received [] 0 Hbytes ltac:(lia)) as H.
  cbn [List.length Z.of_nat app] in H. rewrite H.
  rewrite gf_pow_zero_exponent by exact Hr.
  rewrite Z.lxor_0_l.
  rewrite gf_mult_comm by (try apply poly_eval_byte; auto; lia).
  apply gf_mult_one_r, poly_eval_byte; assumption.
Qed.

Lemma compute_syndromes_fill (received : list Z) :
  compute_syndromes stray received
  = for_loop (Z.to_nat PARITY) 0 1
      (fun i s =>
         store s i
           (for_loop (Z.to_nat N) 0 1
              (fun j acc =>
                 Z.lxor acc (gf_mult stray (byte_at received j)
                                     (gf_pow stray (gf_pow stray ALPHA i) j))) 0))
      (repeat 0 32).
Proof.
  unfold compute_syndromes.
  refine (proj1 (for_loop_ext_inv (fun s => List.length s = 32%nat) _ _ _ _ _ _ _ _)).
  - reflexivity.
  - intros k s Hk Hs. rewrite Z.add_0_l, Z.mul_1_r.
    change (Z.to_nat PARITY) with 32%nat in Hk.
    split; [|rewrite length_store; exact Hs].
    cbv zeta.
    rewrite (for_loop_cell (Z.to_nat N) 1 (Z.of_nat k)
               (fun j v => Z.lxor v (gf_mult stray (byte_at received j)
                                       (gf_pow stray (gf_pow stray ALPHA (Z.of_nat k)) j))))
      by (rewrite length_store; lia).
    rewrite byte_at_store_same by lia.
    apply store_twice.
Qed.

Lemma length_compute_syndromes (received : list Z) :
  List.length (compute_syndromes stray received) = 32%nat.
Proof.
  rewrite compute_syndromes_fill.
  exact (proj1 (for_loop_fill _ (Z.to_nat PARITY) (repeat 0 32) (Nat.le_refl 32))).
Qed.

Lemma compute_syndromes_evaluates (received : list Z) (i : Z) :
  List.length received = Z.to_nat N -> Forall is_byte received -> 0 <= i < PARITY ->
  byte_at (compute_syndromes stray received) i
  = poly_eval stray (alpha_power i) received.
Proof.
  intros Hlen Hbytes Hi. rewrite compute_syndromes_fill.
  rewrite (proj2 (for_loop_fill _ (Z.to_nat PARITY) (repeat 0 32) (Nat.le_refl 32)) i)
    by (unfold PARITY in *; lia).
  rewrite syndrome_value by (try assumption; apply gf_pow_byte).
  rewrite gf_pow_alpha by lia. reflexivity.
Qed.

End Syndromes.

(** ** The encoder *)

Lemma list_of_length_32 (l : list Z) :
  List.length l = 32%nat ->
  exists r0 r1 r2 r3 r4 r5 r6 r7 r8 r9 r10 r11 r12 r13 r14 r15
         r16 r17 r18 r19 r20 r21 r22 r23 r24 r25 r26 r27 r28 r29 r30 r31,
    l = [r0; r1; r2; r3; r4; r5; r6; r7; r8; r9; r10; r11; r12; r13; r14; r15;
         r16; r17; r18; r19; r20; r21; r22; r23; r24; r25; r26; r27; r28; r29;
         r30; r31].
Proof.
  intros H.
  do 32 (destruct l as [|? l]; [discriminate H|]).
  destruct l; [|discriminate H].
  repeat eexists.
Qed.

Section Encoder.

Variable stray : Z -> Z.

Lemma rs_encode_block_step (remainder : list Z) (d : Z) :
  List.length remainder = 32%nat ->
  (let feedback := Z.lxor d (byte_at remainder (PARITY - 1)) in
   let remainder :=
     for_loop (Z.to_nat (PARITY - 1)) (PARITY - 1) (-1)
       (fun j remainder =>
          store remainder j
            (Z.lxor (byte_at remainder (j - 1))
                    (gf_mult stray (byte_at generator j) feedback)))
       remainder in
   store remainder 0 (gf_mult stray (byte_at generator 0) feedback))
  = lfsr_step stray remainder d.
Proof.
  intros H.
  destruct (list_of_length_32 remainder H)
    as (r0 & r1 & r2 & r3 & r4 & r5 & r6 & r7 & r8 & r9 & r10 & r11 & r12 & r13
        & r14 & r15 & r16 & r17 & r18 & r19 & r20 & r21 & r22 & r23 & r24 & r25
        & r26 & r27 & r28 & r29 & r30 & r31 & ->).
  unfold lfsr_step.
  cbv -[gf_mult Z.lxor]. reflexivity.
Qed.

End Encoder.

(** A counting loop that reads one element per round is a fold over the
    elements. *)
Lemma for_loop_fold {S : Type} (f : S -> Z -> S) (l : list Z) :
  forall (before : list Z) (s : S),
  for_loop (List.length l) (Z.of_nat (List.length before)) 1
    (fun i s => f s (byte_at (before ++ l) i)) s
  = fold_left f l s.
Proof.
  induction l as [|x l IH]; intros before s; [reflexivity|].
  cbn [List.length for_loop fold_left].
  assert (Hat : byte_at (before ++ x :: l) (Z.of_nat (List.length before)) = x).
  { unfold byte_at. rewrite Nat2Z.id, app_nth2, Nat.sub_diag by lia. reflexivity. }
  rewrite Hat.
  specialize (IH (before ++ [x]) (f s x)).
  rewrite <- app_assoc in IH. cbn [app] in IH.
  rewrite length_app in IH. cbn [List.length] in IH.
  replace (Z.of_nat (List.length before + 1)) with (Z.of_nat (List.length before) + 1) in IH by lia.
  exact IH.
Qed.

Lemma length_xor_words (a b : list Z) :
  List.length (xor_words a b) = Nat.min (List.length a) (List.length b).
Proof. unfold xor_words. rewrite length_map, length_combine. reflexivity. Qed.

Lemma Forall_xor_words (a b : list Z) :
  Forall is_byte a -> Forall is_byte b -> Forall is_byte (xor_words a b).
Proof.
  intros Ha. revert b. induction Ha as [|x a Hx Ha IH]; intros b Hb; [constructor|].
  destruct Hb as [|y b Hy Hb]; [constructor|].
  unfold xor_words. cbn [combine map fst snd]. constructor.
  - apply lxor_byte; assumption.
  - apply IH, Hb.
Qed.

Lemma generator_bytes : Forall is_byte generator.
Proof.
  apply Forall_forall. intros x Hx.
  assert (H : forallb (fun x => (0 <=? x) && (x <? 256)) generator = true)
    by (vm_compute; reflexivity).
  rewrite forallb_forall in H. specialize (H x Hx). unfold is_byte. lia.
Qed.

Section EncoderFacts.

Variable stray : Z -> Z.

Local Notation "a ** b" := (gf_mult stray a b) (at level 40, left associativity).
Local Notation "a (+) b" := (Z.lxor a b) (at level 50, left associativity).

Lemma length_lfsr_step (remainder : list Z) (d : Z) :
  List.length remainder = 32%nat -> List.length (lfsr_step stray remainder d) = 32%nat.
Proof.
  intros H. unfold lfsr_step. cbv zeta. rewrite length_xor_words.
  cbn [List.length]. rewrite length_firstn, length_map, H. reflexivity.
Qed.

Lemma Forall_lfsr_step (remainder : list Z) (d : Z) :
  Forall is_byte remainder -> Forall is_byte (lfsr_step stray remainder d).
Proof.
  intros H. unfold lfsr_step. cbv zeta. apply Forall_xor_words.
  - constructor; [unfold is_byte; lia|apply Forall_firstn, H].
  - apply Forall_forall. intros x Hx. apply in_map_iff in Hx.
    destruct Hx as (g & <- & _). apply gf_mult_byte.
Qed.

(** The encoder as a fold of [lfsr_step] over the data bytes. *)
Lemma rs_encode_block_fold (data : list Z) :
  List.length data = Z.to_nat K ->
  rs_encode_block stray data
  = data ++ fold_left (lfsr_step stray) data (repeat 0 32).
Proof.
  intros Hlen. unfold rs_encode_block. cbv zeta.
  rewrite <- Hlen at 1. rewrite firstn_all.
  match goal with
  | |- ?c ++ firstn ?n ?a = ?c ++ ?b => assert (H : a = b /\ List.length b = 32%nat)
  end.
  2: { destruct H as [-> H32]. rewrite firstn_all2; [reflexivity|].
       rewrite H32. reflexivity. }
  rewrite <- (for_loop_fold (lfsr_step stray) data [] (repeat 0 32)).
  cbn [app List.length Z.of_nat]. rewrite <- Hlen.
  generalize (List.length data). intros n.
  refine (for_loop_ext_inv (fun s => List.length s = 32%nat) n 1 _ _ 0 (repeat 0 32) _ _).
  - reflexivity.
  - intros k s Hk Hs. split; [|apply length_lfsr_step, Hs].
    apply (rs_encode_block_step stray s _ Hs).
Qed.

Lemma fold_lfsr_length (data : list Z) : forall remainder,
  List.length remainder = 32%nat ->
  List.length (fold_left (lfsr_step stray) data remainder) = 32%nat.
Proof.
  induction data as [|d data IH]; intros remainder H; [exact H|].
  cbn [fold_left]. apply IH, length_lfsr_step, H.
Qed.

Lemma fold_lfsr_bytes (data : list Z) : forall remainder,
  Forall is_byte remainder ->
  Forall is_byte (fold_left (lfsr_step stray) data remainder).
Proof.
  induction data as [|d data IH]; intros remainder H; [exact H|].
  cbn [fold_left]. apply IH, Forall_lfsr_step, H.
Qed.

End EncoderFacts.

(** ** The generator polynomial *)

Lemma generator_roots_checked (stray : Z -> Z) :
  all_from (Z.to_nat (255 - 0)) 0
    (fun i => Bool.eqb (poly_eval stray (alpha_power i) generator =? 0) (i <? 32))
  = true.
Proof. vm_compute. reflexivity. Qed.

Lemma generator_roots (stray : Z -> Z) (i : Z) :
  0 <= i < 255 ->
  (poly_eval stray (alpha_power i) generator = 0 <-> i < 32).
Proof.
  intros Hi.
  pose proof (all_from_forall _ 0 255 (generator_roots_checked stray) i Hi) as H.
  cbv beta in H. apply Bool.eqb_prop in H.
  rewrite <- Z.eqb_eq, H. apply Z.ltb_lt.
Qed.

Lemma rev_cons_last (l : list Z) (n : nat) :
  List.length l = Datatypes.S n -> l = firstn n l ++ [byte_at l (Z.of_nat n)].
Proof.
  intros H. rewrite <- (firstn_skipn n l) at 1. f_equal.
  unfold byte_at. rewrite Nat2Z.id.
  rewrite <- (firstn_skipn n l) at 2.
  rewrite app_nth2 by (rewrite length_firstn; lia).
  rewrite length_firstn, Nat.min_l, Nat.sub_diag by lia.
  assert (Hs : List.length (skipn n l) = 1%nat) by (rewrite length_skipn; lia).
  destruct (skipn n l) as [|x [|y t]]; try discriminate Hs. reflexivity.
Qed.

Section Remainder.

Variable stray : Z -> Z.
Variable r : Z.
Hypothesis r_byte : 0 <= r < 256.

Local Notation "a ** b" := (gf_mult stray a b) (at level 40, left associativity).
Local Notation "a (+) b" := (Z.lxor a b) (at level 50, left associativity).

Lemma poly_eval_snoc (l : list Z) (x : Z) :
  Forall is_byte l -> 0 <= x < 256 ->
  poly_eval stray r (l ++ [x]) = poly_eval stray r l (+) gf_pow stray r (Z.of_nat (List.length l)) ** x.
Proof.
  intros Hl Hx. rewrite poly_eval_app by (try assumption; repeat constructor; apply Hx).
  cbn [poly_eval fold_right]. rewrite gf_mult_zero_r, Z.lxor_0_r. reflexivity.
Qed.

Lemma poly_eval_zeros (n : nat) : poly_eval stray r (repeat 0 n) = 0.
Proof.
  induction n as [|n IH]; [reflexivity|].
  cbn [repeat]. rewrite poly_eval_cons, IH, gf_mult_zero_r. reflexivity.
Qed.

(** [r] is a root of the generator polynomial, which is monic of degree
    32: its lower coefficients evaluate to [r^32]. *)
Hypothesis r_root : poly_eval stray r (firstn 32 generator) = gf_pow stray r 32.

Lemma lfsr_step_eval (remainder : list Z) (d : Z) :
  List.length remainder = 32%nat -> Forall is_byte remainder -> 0 <= d < 256 ->
  poly_eval stray r (lfsr_step stray remainder d)
  = r ** poly_eval stray r remainder (+) gf_pow stray r 32 ** d.
Proof.
  intros Hlen Hbytes Hd.
  pose proof (rev_cons_last remainder 31 Hlen) as Hsplit.
  set (low := firstn 31 remainder) in *.
  set (top := byte_at remainder (Z.of_nat 31)) in *.
  assert (Hlow : Forall is_byte low) by (apply Forall_firstn, Hbytes).
  assert (Htop : 0 <= top < 256).
  { rewrite Hsplit in Hbytes. apply Forall_app in Hbytes as [_ Ht].
    inversion Ht; assumption. }
  assert (Hlowlen : List.length low = 31%nat)
    by (unfold low; rewrite length_firstn; lia).
  unfold lfsr_step. cbv zeta.
  change (byte_at remainder (PARITY - 1)) with top. fold low.
  assert (Hf : 0 <= Z.lxor d top < 256) by (apply lxor_byte; assumption).
  unfold xor_words.
  rewrite (poly_eval_sum stray r r_byte).
  2: { cbn [List.length]. rewrite length_map, length_firstn, Hlowlen. reflexivity. }
  2: { constructor; [unfold is_byte; lia|exact Hlow]. }
  2: { apply Forall_forall. intros x Hx. apply in_map_iff in Hx.
       destruct Hx as (g & <- & _). apply gf_mult_byte. }
  rewrite poly_eval_cons, Z.lxor_0_l.
  rewrite poly_eval_scale by (try assumption; apply Forall_firstn, generator_bytes).
  rewrite r_root.
  rewrite Hsplit at 1. rewrite poly_eval_snoc by assumption.
  fold low. rewrite Hlowlen.
  pose proof (poly_eval_byte stray r low Hlow) as Hel.
  pose proof (gf_pow_byte stray r 31) as Hp31.
  pose proof (gf_pow_byte stray r 32) as Hp32.
  rewrite (gf_mult_lxor_r stray d top) by assumption.
  change (Z.of_nat 31) with 31.
  rewrite (gf_mult_lxor_r stray (poly_eval stray r low) (gf_pow stray r 31 ** top) r)
    by (try apply gf_mult_byte; assumption).
  rewrite <- (gf_mult_assoc stray r (gf_pow stray r 31) top) by assumption.
  rewrite <- (gf_pow_succ stray r 31) by lia. change (31 + 1) with 32.
  rewrite !Z.lxor_assoc. f_equal. apply Z.lxor_comm.
Qed.

Lemma fold_lfsr_eval (data : list Z) : forall remainder,
  List.length remainder = 32%nat -> Forall is_byte remainder -> Forall is_byte data ->
  poly_eval stray r (fold_left (lfsr_step stray) data remainder)
  = gf_pow stray r (Z.of_nat (List.length data)) ** poly_eval stray r remainder
    (+) gf_pow stray r 32 ** poly_eval stray r (rev data).
Proof.
  induction data as [|d data IH]; intros remainder Hlen Hbytes Hdata.
  - cbn [fold_left List.length Z.of_nat rev poly_eval fold_right].
    rewrite gf_pow_zero_exponent by exact r_byte.
    rewrite gf_mult_zero_r, Z.lxor_0_r.
    rewrite gf_mult_comm by (try apply poly_eval_byte; auto; lia).
    symmetry. apply gf_mult_one_r, poly_eval_byte; assumption.
  - inversion Hdata as [|? ? Hd Hdata']; subst.
    cbn [fold_left rev].
    rewrite IH;
      [|apply length_lfsr_step, Hlen|apply Forall_lfsr_step, Hbytes|assumption].
    rewrite lfsr_step_eval by assumption.
    rewrite poly_eval_snoc by (try assumption; apply Forall_rev, Hdata').
    rewrite length_rev.
    cbn [List.length]. rewrite Nat2Z.inj_succ, <- Z.add_1_r.
    set (n := Z.of_nat (List.length data)).
    pose proof (gf_pow_byte stray r n) as Hpn.
    pose proof (gf_pow_byte stray r 32) as Hp32.
    pose proof (poly_eval_byte stray r remainder Hbytes) as Her.
    pose proof (poly_eval_byte stray r (rev data) (Forall_rev Hdata')) as Hed.
    rewrite !gf_mult_lxor_r by (try apply gf_mult_byte; assumption).
    rewrite gf_pow_succ by lia.
    rewrite <- (gf_mult_assoc stray (gf_pow stray r n) r (poly_eval stray r remainder)) by assumption.
    rewrite (gf_mult_comm stray (gf_pow stray r n) r) by assumption.
    rewrite <- (gf_mult_assoc stray (gf_pow stray r n) (gf_pow stray r 32) d) by assumption.
    rewrite (gf_mult_comm stray (gf_pow stray r n) (gf_pow stray r 32)) by assumption.
    rewrite (gf_mult_assoc stray (gf_pow stray r 32) (gf_pow stray r n) d) by assumption.
    rewrite !Z.lxor_assoc. f_equal.
    apply Z.lxor_comm.
Qed.

End Remainder.

Lemma list_eq_byte_at (a b : list Z) :
  List.length a = List.length b ->
  (forall i, 0 <= i < Z.of_nat (List.length a) -> byte_at a i = byte_at b i) ->
  a = b.
Proof.
  intros Hlen H. apply (nth_ext a b 0 0 Hlen). intros n Hn.
  specialize (H (Z.of_nat n) ltac:(lia)). unfold byte_at in H.
  rewrite Nat2Z.id in H. exact H.
Qed.

Lemma byte_at_repeat_zero (n : nat) (i : Z) : byte_at (repeat 0 n) i = 0.
Proof.
  unfold byte_at. generalize (Z.to_nat i). intros k. revert k.
  induction n as [|n IH]; intros [|k]; cbn; auto.
Qed.

Lemma existsb_nonzero_false (l : list Z) :
  existsb (fun s => negb (s =? 0)) l = false <-> Forall (fun s => s = 0) l.
Proof.
  induction l as [|x l IH]; [split; [constructor|reflexivity]|].
  cbn [existsb]. split.
  - intros H. apply orb_false_iff in H as [Hx Hl].
    constructor; [|apply IH, Hl].
    apply negb_false_iff, Z.eqb_eq in Hx. exact Hx.
  - intros H. inversion H as [|? ? Hx Hl]; subst.
    apply IH in Hl. rewrite Hl. reflexivity.
Qed.

Lemma has_errors_false (syndromes : list Z) :
  List.length syndromes = 32%nat ->
  (has_errors syndromes = false
   <-> forall i, 0 <= i < PARITY -> byte_at syndromes i = 0).
Proof.
  intros Hlen. unfold has_errors.
  rewrite firstn_all2 by (rewrite Hlen; reflexivity).
  rewrite existsb_nonzero_false, Forall_forall. split.
  - intros H i Hi. apply H. unfold byte_at. apply nth_In.
    unfold PARITY in Hi. lia.
  - intros H x Hx. destruct (In_nth _ _ 0 Hx) as (n & Hn & <-).
    specialize (H (Z.of_nat n)). unfold byte_at in H. rewrite Nat2Z.id in H.
    apply H. unfold PARITY. lia.
Qed.

Lemma root_power_checked (stray : Z -> Z) :
  all_from (Z.to_nat (32 - 0)) 0
    (fun i => poly_eval stray (alpha_power i) (firstn 32 generator)
              =? gf_pow stray (alpha_power i) 32)
  = true.
Proof. vm_compute. reflexivity. Qed.

Lemma root_power (stray : Z -> Z) (i : Z) :
  0 <= i < 32 ->
  poly_eval stray (alpha_power i) (firstn 32 generator)
  = gf_pow stray (alpha_power i) 32.
Proof.
  intros Hi. apply Z.eqb_eq.
  exact (all_from_forall _ 0 32 (root_power_checked stray) i Hi).
Qed.

Section Codewords.

Variable stray : Z -> Z.

Lemma length_rs_encode_block (data : list Z) :
  List.length data = Z.to_nat K ->
  List.length (rs_encode_block stray data) = Z.to_nat N.
Proof.
  intros H. rewrite rs_encode_block_fold by exact H.
  rewrite length_app, fold_lfsr_length by reflexivity.
  rewrite H. reflexivity.
Qed.

Lemma decoder_order_encoded (data : list Z) :
  List.length data = Z.to_nat K ->
  decoder_order (rs_encode_block stray data)
  = fold_left (lfsr_step stray) data (repeat 0 32) ++ rev data.
Proof.
  intros H. rewrite rs_encode_block_fold by exact H. unfold decoder_order.
  rewrite <- H. rewrite skipn_app, firstn_app, Nat.sub_diag, skipn_all, firstn_all.
  cbn [skipn firstn app]. rewrite app_nil_r. reflexivity.
Qed.

Lemma encoded_evaluates_to_zero (data : list Z) (i : Z) :
  List.length data = Z.to_nat K -> Forall is_byte data -> 0 <= i < PARITY ->
  poly_eval stray (alpha_power i) (decoder_order (rs_encode_block stray data)) = 0.
Proof.
  intros Hlen Hbytes Hi. rewrite decoder_order_encoded by exact Hlen.
  pose proof (alpha_power_byte i) as Hr.
  assert (Hr' : 0 <= alpha_power i < 256) by lia.
  assert (Hzero : Forall is_byte (repeat 0 32))
    by (apply Forall_forall; intros x Hx; apply repeat_spec in Hx; subst;
        unfold is_byte; lia).
  rewrite poly_eval_app;
    [|exact Hr'|apply fold_lfsr_bytes, Hzero|apply Forall_rev, Hbytes].
  rewrite fold_lfsr_length by reflexivity.
  rewrite (fold_lfsr_eval stray (alpha_power i) Hr' (root_power stray i Hi))
    by (try assumption; reflexivity).
  rewrite poly_eval_zeros, gf_mult_zero_r, Z.lxor_0_l.
  apply Z.lxor_nilpotent.
Qed.

Lemma length_decoder_order (codeword : list Z) :
  List.length (decoder_order codeword) = List.length codeword.
Proof.
  unfold decoder_order.
  rewrite length_app, length_rev, length_skipn, length_firstn. lia.
Qed.

Lemma Forall_decoder_order (codeword : list Z) :
  Forall is_byte codeword -> Forall is_byte (decoder_order codeword).
Proof.
  intros H. unfold decoder_order. apply Forall_app. split.
  - apply Forall_skipn, H.
  - apply Forall_rev, Forall_firstn, H.
Qed.

Lemma Forall_rs_encode_block (data : list Z) :
  List.length data = Z.to_nat K -> Forall is_byte data ->
  Forall is_byte (rs_encode_block stray data).
Proof.
  intros Hlen H. rewrite rs_encode_block_fold by exact Hlen.
  apply Forall_app. split; [exact H|]. apply fold_lfsr_bytes.
  apply Forall_forall. intros x Hx. apply repeat_spec in Hx. subst.
  unfold is_byte. lia.
Qed.

Lemma clean_word_accepted (received : list Z) :
  List.length received = Z.to_nat N ->
  compute_syndromes stray received = repeat 0 32 ->
  rs_decode_block stray received = (0, received).
Proof.
  intros Hlen Hsyn. rewrite rs_decode_block_cases. cbv zeta. rewrite Hsyn.
  change (has_errors (repeat 0 32)) with false. cbn [negb].
  rewrite <- Hlen, firstn_all. reflexivity.
Qed.

Lemma encoded_syndromes_zero (data : list Z) :
  List.length data = Z.to_nat K -> Forall is_byte data ->
  compute_syndromes stray (decoder_order (rs_encode_block stray data)) = repeat 0 32.
Proof.
  intros Hlen Hbytes. apply list_eq_byte_at.
  - rewrite length_compute_syndromes. reflexivity.
  - intros i Hi. rewrite length_compute_syndromes in Hi.
    rewrite byte_at_repeat_zero.
    rewrite compute_syndromes_evaluates.
    + apply encoded_evaluates_to_zero; [assumption|assumption|unfold PARITY; lia].
    + rewrite length_decoder_order. apply length_rs_encode_block, Hlen.
    + apply Forall_decoder_order, Forall_rs_encode_block; assumption.
    + unfold PARITY; lia.
Qed.

Lemma encoded_word_accepted (data : list Z) :
  List.length data = Z.to_nat K -> Forall is_byte data ->
  rs_decode_block stray (decoder_order (rs_encode_block stray data))
  = (0, decoder_order (rs_encode_block stray data)).
Proof.
  intros Hlen Hbytes. apply clean_word_accepted.
  - rewrite length_decoder_order. apply length_rs_encode_block, Hlen.
  - apply encoded_syndromes_zero; assumption.
Qed.

End Codewords.

(** X12: the generator polynomial that [generate_polynomial] builds has
    33 coefficients, is monic of degree 32, and its roots among the
    powers of [alpha] are exactly [alpha^0 .. alpha^31]. *)
Theorem generate_polynomial_roots (stray : Z -> Z) (i : Z) :
  0 <= i < 255 ->
  List.length (generate_polynomial stray) = 33%nat
  /\ byte_at (generate_polynomial stray) 32 = 1
  /\ (poly_eval stray (alpha_power i) (generate_polynomial stray) = 0 <-> i < 32).
Proof.
  intros Hi. rewrite generate_polynomial_generator.
  split; [reflexivity|]. split; [reflexivity|]. apply generator_roots, Hi.
Qed.

Lemma generate_polynomial_roots_witness :
  List.length (generate_polynomial (fun _ => 0)) = 33%nat
  /\ byte_at (generate_polynomial (fun _ => 0)) 32 = 1
  /\ (poly_eval (fun _ => 0) (alpha_power 31) (generate_polynomial (fun _ => 0)) = 0
      <-> 31 < 32).
Proof. apply (generate_polynomial_roots (fun _ => 0) 31). lia. Defined.

(** X13: for a received word of [N] bytes, [compute_syndromes] fills the
    32 syndromes with the word, read as a polynomial whose coefficient
    of [x^j] is [received[j]], evaluated at [alpha^i]; so no syndrome is
    nonzero exactly when [alpha^0 .. alpha^31] are all roots of it. *)
Theorem compute_syndromes_evaluates_word (stray : Z -> Z) (received : list Z) :
  List.length received = Z.to_nat N ->
  Forall (fun b => 0 <= b < 256) received ->
  let syndromes := compute_syndromes stray received in
  List.length syndromes = 32%nat
  /\ (forall i, 0 <= i < PARITY ->
        byte_at syndromes i = poly_eval stray (alpha_power i) received)
  /\ (has_errors syndromes = false
      <-> forall i, 0 <= i < PARITY ->
            poly_eval stray (alpha_power i) received = 0).
Proof.
  intros Hlen Hbytes syndromes.
  pose proof (length_compute_syndromes stray received) as H32.
  assert (Hval : forall i, 0 <= i < PARITY ->
            byte_at syndromes i = poly_eval stray (alpha_power i) received)
    by (intros i Hi; apply compute_syndromes_evaluates; assumption).
  split; [exact H32|]. split; [exact Hval|].
  rewrite (has_errors_false syndromes H32).
  split; intros H i Hi; [rewrite <- Hval by exact Hi|rewrite Hval by exact Hi];
    apply H, Hi.
Qed.

Lemma compute_syndromes_evaluates_word_witness :
  let syndromes := compute_syndromes (fun _ => 0) (repeat 1 255) in
  List.length syndromes = 32%nat
  /\ (forall i, 0 <= i < PARITY ->
        byte_at syndromes i = poly_eval (fun _ => 0) (alpha_power i) (repeat 1 255))
  /\ (has_errors syndromes = false
      <-> forall i, 0 <= i < PARITY ->
            poly_eval (fun _ => 0) (alpha_power i) (repeat 1 255) = 0).
Proof.
  refine (compute_syndromes_evaluates_word (fun _ => 0) (repeat 1 255) _ _).
  - vm_compute. reflexivity.
  - apply Forall_forall. intros x Hx. apply repeat_spec in Hx. lia.
Defined.

(** X14: [rs_encode_block] is systematic: for 223 data bytes it returns
    255 bytes, the data unchanged followed by 32 parity bytes. *)
Theorem rs_encode_block_systematic (stray : Z -> Z) (data : list Z) :
  List.length data = Z.to_nat K ->
  Forall (fun b => 0 <= b < 256) data ->
  let codeword := rs_encode_block stray data in
  List.length codeword = Z.to_nat N
  /\ firstn (Z.to_nat K) codeword = data
  /\ Forall (fun b => 0 <= b < 256) codeword.
Proof.
  intros Hlen Hbytes codeword.
  split; [apply length_rs_encode_block, Hlen|].
  split; [|apply Forall_rs_encode_block; assumption].
  unfold codeword. rewrite rs_encode_block_fold by exact Hlen.
  rewrite <- Hlen, firstn_app, Nat.sub_diag, firstn_all. cbn [firstn].
  apply app_nil_r.
Qed.

Lemma rs_encode_block_systematic_witness :
  let codeword := rs_encode_block (fun _ => 0) (repeat 7 223) in
  List.length codeword = Z.to_nat N
  /\ firstn (Z.to_nat K) codeword = repeat 7 223
  /\ Forall (fun b => 0 <= b < 256) codeword.
Proof.
  refine (rs_encode_block_systematic (fun _ => 0) (repeat 7 223) _ _).
  - vm_compute. reflexivity.
  - apply Forall_forall. intros x Hx. apply repeat_spec in Hx. lia.
Defined.

(** X15: the parity bytes of [rs_encode_block] make the codeword a
    multiple of the generator polynomial once the bytes are put in the
    order the decoder reads them (parity first, then the data reversed):
    all 32 syndromes of that word are zero and [rs_decode_block] returns
    it unchanged with status 0. *)
Theorem encoded_block_is_codeword (stray : Z -> Z) (data : list Z) :
  List.length data = Z.to_nat K ->
  Forall (fun b => 0 <= b < 256) data ->
  let word := decoder_order (rs_encode_block stray data) in
  (forall i, 0 <= i < PARITY -> poly_eval stray (alpha_power i) word = 0)
  /\ compute_syndromes stray word = repeat 0 32
  /\ rs_decode_block stray word = (0, word).
Proof.
  intros Hlen Hbytes word.
  split; [intros i Hi; apply encoded_evaluates_to_zero; assumption|].
  split; [apply encoded_syndromes_zero; assumption|].
  apply encoded_word_accepted; assumption.
Qed.

Lemma encoded_block_is_codeword_witness :
  let word := decoder_order (rs_encode_block (fun _ => 0) (repeat 7 223)) in
  (forall i, 0 <= i < PARITY -> poly_eval (fun _ => 0) (alpha_power i) word = 0)
  /\ compute_syndromes (fun _ => 0) word = repeat 0 32
  /\ rs_decode_block (fun _ => 0) word = (0, word).
Proof.
  refine (encoded_block_is_codeword (fun _ => 0) (repeat 7 223) _ _).
  - vm_compute. reflexivity.
  - apply Forall_forall. intros x Hx. apply repeat_spec in Hx. lia.
Defined.

(** ** What the decoder may change *)

Lemma NoDup_indices (n : nat) : NoDup (indices n).
Proof.
  unfold indices. pose proof (seq_NoDup n 0) as H.
  induction H as [|x l Hx _ IH]; cbn [map]; constructor; [|exact IH].
  intros Hin. apply in_map_iff in Hin as (y & Hy & Hin).
  apply Nat2Z.inj in Hy. subst y. exact (Hx Hin).
Qed.

Lemma differing_same (a : list Z) : differing a a = [].
Proof.
  unfold differing. generalize (indices (Nat.max (List.length a) (List.length a))).
  intros l. induction l as [|x l IH]; [reflexivity|].
  cbn [filter]. rewrite Z.eqb_refl. exact IH.
Qed.

Lemma in_differing (a b : list Z) (j : Z) :
  In j (differing a b) -> 0 <= j /\ byte_at a j <> byte_at b j.
Proof.
  unfold differing. rewrite filter_In, in_indices, negb_true_iff, Z.eqb_neq. lia.
Qed.

Section Corrections.

Variable stray : Z -> Z.

Lemma length_forney (lambda omega : list Z) (deg_lambda i : Z) (corrected : list Z) :
  List.length (forney stray lambda omega deg_lambda i corrected)
  = List.length corrected.
Proof.
  unfold forney. cbv zeta. destruct (_ =? 0); [reflexivity|apply length_store].
Qed.

Lemma forney_other (lambda omega : list Z) (deg_lambda i j : Z) (corrected : list Z) :
  0 <= j -> i <> j ->
  byte_at (forney stray lambda omega deg_lambda i corrected) j = byte_at corrected j.
Proof.
  intros Hj Hij. unfold forney. cbv zeta.
  destruct (_ =? 0); [reflexivity|apply byte_at_store_other; assumption].
Qed.

Lemma Forall_forney (lambda omega : list Z) (deg_lambda i : Z) (corrected : list Z) :
  Forall is_byte corrected ->
  Forall is_byte (forney stray lambda omega deg_lambda i corrected).
Proof.
  intros H. unfold forney. cbv zeta. destruct (_ =? 0); [exact H|].
  apply Forall_store; [exact H|]. apply lxor_byte; [|apply gf_div_byte].
  unfold byte_at. destruct (nth_in_or_default (Z.to_nat i) corrected 0) as [Hin| ->].
  - rewrite Forall_forall in H. apply H, Hin.
  - lia.
Qed.

Lemma search_step_buffer (lambda omega : list Z) (deg_lambda i : Z) (s : search) :
  let s' := search_step stray lambda omega deg_lambda i s in
  List.length (search_buffer s') = List.length (search_buffer s)
  /\ (Forall is_byte (search_buffer s) -> Forall is_byte (search_buffer s'))
  /\ forall j, 0 <= j ->
       byte_at (search_buffer s') j <> byte_at (search_buffer s) j ->
       j = i /\ chien_sum stray lambda deg_lambda i = 0.
Proof.
  cbv zeta. destruct s as [error_count corrected|status corrected];
    cbn [search_step search_buffer]; [|repeat split; auto; congruence].
  destruct (Z.eqb_spec (chien_sum stray lambda deg_lambda i) 0) as [Hz|Hz];
    [|cbn [search_buffer]; repeat split; auto; congruence].
  destruct (T <? error_count + 1); cbn [search_buffer];
    [repeat split; auto; congruence|].
  split; [apply length_forney|]. split; [apply Forall_forney|].
  intros j Hj Hne. split; [|exact Hz].
  destruct (Z.eq_dec i j) as [E|E]; [symmetry; exact E|].
  exfalso. apply Hne. apply forney_other; assumption.
Qed.

Lemma search_loop_buffer (lambda omega : list Z) (deg_lambda : Z)
    (corrected : list Z) (n : nat) :
  let s := for_loop n 0 1 (search_step stray lambda omega deg_lambda)
             (Searching 0 corrected) in
  List.length (search_buffer s) = List.length corrected
  /\ (Forall is_byte corrected -> Forall is_byte (search_buffer s))
  /\ forall j, 0 <= j ->
       byte_at (search_buffer s) j <> byte_at corrected j ->
       In j (positions_found stray lambda deg_lambda n).
Proof.
  induction n as [|n IH]; cbv zeta.
  - cbn [for_loop search_buffer]. repeat split; auto. intros j _ H. congruence.
  - rewrite for_loop_last, positions_found_last.
    replace (0 + Z.of_nat n * 1) with (Z.of_nat n) by lia.
    cbv zeta in IH. destruct IH as (Hlen & Hbytes & Hchg).
    destruct (search_step_buffer lambda omega deg_lambda (Z.of_nat n)
                (for_loop n 0 1 (search_step stray lambda omega deg_lambda)
                   (Searching 0 corrected))) as (Hlen' & Hbytes' & Hchg').
    split; [rewrite Hlen'; exact Hlen|]. split; [auto|].
    intros j Hj Hne. apply in_or_app.
    destruct (Z.eq_dec
                (byte_at (search_buffer
                            (for_loop n 0 1 (search_step stray lambda omega deg_lambda)
                               (Searching 0 corrected))) j)
                (byte_at corrected j)) as [E|E].
    + right. rewrite <- E in Hne. destruct (Hchg' j Hj Hne) as [-> Hz].
      rewrite Hz. cbn. left. reflexivity.
    + left. apply Hchg; assumption.
Qed.

Lemma find_and_correct_errors_buffer (lambda omega : list Z) (deg_lambda : Z)
    (corrected : list Z) :
  let out := snd (find_and_correct_errors stray lambda omega deg_lambda corrected) in
  List.length out = List.length corrected
  /\ (Forall is_byte corrected -> Forall is_byte out)
  /\ forall j, 0 <= j -> byte_at out j <> byte_at corrected j ->
       In j (positions_found stray lambda deg_lambda (Z.to_nat N)).
Proof.
  pose proof (search_loop_buffer lambda omega deg_lambda corrected (Z.to_nat N)) as H.
  unfold find_and_correct_errors. cbv zeta in H |- *.
  generalize dependent (Z.to_nat N). intros n H.
  destruct (for_loop n 0 1 (search_step stray lambda omega deg_lambda)
              (Searching 0 corrected)) as [error_count c|status c];
    cbn [snd search_buffer] in *; exact H.
Qed.

Lemma differing_found (lambda omega : list Z) (deg_lambda : Z) (corrected : list Z) :
  let out := snd (find_and_correct_errors stray lambda omega deg_lambda corrected) in
  Z.of_nat (List.length (differing out corrected))
  <= found_count stray lambda deg_lambda.
Proof.
  cbv zeta. unfold found_count. apply Nat2Z.inj_le.
  apply NoDup_incl_length.
  - unfold differing. apply NoDup_filter, NoDup_indices.
  - intros j Hj. apply in_differing in Hj as [Hj Hne].
    destruct (find_and_correct_errors_buffer lambda omega deg_lambda corrected)
      as (_ & _ & H).
    apply H; assumption.
Qed.

Lemma rs_decode_block_branches (received : list Z) :
  let base := firstn (Z.to_nat N) received in
  rs_decode_block stray received = (0, base)
  \/ exists lambda omega deg_lambda,
       deg_lambda <> 0
       /\ rs_decode_block stray received
          = find_and_correct_errors stray lambda omega deg_lambda base.
Proof.
  cbv zeta. rewrite rs_decode_block_cases. cbv zeta.
  destruct (negb _); [left; reflexivity|].
  destruct (Z.eqb_spec
              (snd (berlekamp_massey stray (compute_syndromes stray received)
                      (repeat 0 33) (repeat 0 32))) 0) as [E|E];
    [left; reflexivity|].
  right. eexists _, _, _. split; [exact E|reflexivity].
Qed.

End Corrections.

(** X16: whatever it is given, [rs_decode_block] returns -1 or a status
    from 0 to [T = 16]; the corrected buffer has the size of the received
    one; with status 0 it is the received word, and with a positive
    status it differs from the received word in at most [status] bytes. *)
Theorem rs_decode_block_outcome (stray : Z -> Z) (received : list Z) :
  let base := firstn (Z.to_nat N) received in
  let status := fst (rs_decode_block stray received) in
  let corrected := snd (rs_decode_block stray received) in
  (status = -1 \/ 0 <= status <= T)
  /\ List.length corrected = List.length base
  /\ (status = 0 -> corrected = base)
  /\ (0 <= status -> Z.of_nat (List.length (differing corrected base)) <= status)
  /\ (Forall (fun b => 0 <= b < 256) received ->
      Forall (fun b => 0 <= b < 256) corrected).
Proof.
  cbv zeta.
  destruct (rs_decode_block_branches stray received)
    as [E|(lambda & omega & deg_lambda & Hdeg & E)]; cbv zeta in E; rewrite E.
  - cbn [fst snd]. unfold T.
    split; [right; lia|]. split; [reflexivity|]. split; [reflexivity|].
    split; [rewrite differing_same; cbn; lia|].
    intros H. apply Forall_firstn, H.
  - pose proof (find_and_correct_errors_status stray lambda omega deg_lambda
                  (firstn (Z.to_nat N) received)) as Hst.
    pose proof (differing_found stray lambda omega deg_lambda
                  (firstn (Z.to_nat N) received)) as Hdiff.
    destruct (find_and_correct_errors_buffer stray lambda omega deg_lambda
                (firstn (Z.to_nat N) received)) as (Hlen & Hbytes & _).
    cbv zeta in Hst, Hdiff, Hlen, Hbytes.
    set (found := found_count stray lambda deg_lambda) in *.
    assert (Hfound : 0 <= found) by (unfold found, found_count; lia).
    destruct (find_and_correct_errors stray lambda omega deg_lambda
                (firstn (Z.to_nat N) received)) as [status corrected].
    cbn [fst snd] in *. unfold T in *.
    destruct (Z.ltb_spec 16 found) as [Hlt|Hle]; cbn [orb] in Hst.
    + subst status. split; [left; reflexivity|]. split; [exact Hlen|].
      split; [lia|]. split; [lia|].
      intros H. apply Hbytes, Forall_firstn, H.
    + destruct (Z.eqb_spec found deg_lambda) as [Heq|Hneq]; cbn [negb] in Hst;
        subst status.
      * split; [right; lia|]. split; [exact Hlen|]. split; [lia|].
        split; [intros _; exact Hdiff|].
        intros H. apply Hbytes, Forall_firstn, H.
      * split; [left; reflexivity|]. split; [exact Hlen|].
        split; [lia|]. split; [lia|].
        intros H. apply Hbytes, Forall_firstn, H.
Qed.

(** ** The accounting of [decode_file] *)

Lemma fold_left_cons_eq {P A : Type} (step : P -> A -> P) (x : A) (l : list A) (p : P) :
  fold_left step (x :: l) p = fold_left step l (step p x).
Proof. reflexivity. Qed.

Lemma trim_size_le (block : list Z) (write_size : nat) :
  (trim_size block write_size <= write_size)%nat.
Proof.
  induction write_size as [|n IH]; [reflexivity|].
  cbn [trim_size]. destruct (nth n block 0 =? 0); lia.
Qed.

Lemma length_pad_block (read : list Z) :
  (List.length read <= 255)%nat -> List.length (pad_block read) = 255%nat.
Proof.
  intros H. unfold pad_block. rewrite length_app, repeat_length.
  change (Z.to_nat N) with 255%nat. lia.
Qed.

Lemma fread_blocks_sizes (fuel : nat) : forall file : list Z,
  Forall (fun read => (1 <= List.length read <= 255)%nat) (fread_blocks fuel file).
Proof.
  induction fuel as [|fuel IH]; intros file; [constructor|].
  destruct file as [|b file']; [constructor|].
  cbn [fread_blocks]. constructor; [|apply IH].
  rewrite length_firstn. change (Z.to_nat N) with 255%nat. cbn [List.length]. lia.
Qed.

Lemma length_fread_blocks (fuel : nat) : forall file : list Z,
  (List.length file <= fuel)%nat ->
  Z.of_nat (List.length (fread_blocks fuel file))
  = (Z.of_nat (List.length file) + 254) / 255.
Proof.
  induction fuel as [|fuel IH]; intros file Hlen.
  - destruct file; [reflexivity|cbn [List.length] in Hlen; lia].
  - destruct file as [|b file']; [reflexivity|].
    cbn [fread_blocks]. cbn [List.length]. rewrite Nat2Z.inj_succ, IH.
    2: { rewrite length_skipn. cbn [List.length] in *. change (Z.to_nat N) with 255%nat. lia. }
    rewrite length_skipn. change (Z.to_nat N) with 255%nat.
    remember (List.length (b :: file')) as n eqn:Hn.
    assert (Hpos : (1 <= n)%nat) by (subst n; cbn [List.length]; lia).
    replace (List.length file') with (n - 1)%nat by (subst n; cbn [List.length]; lia).
    replace (Z.of_nat (Datatypes.S (n - 1))) with (Z.of_nat n) by lia.
    destruct (Nat.le_gt_cases n 255) as [Hsmall|Hbig].
    + replace (n - 255)%nat with 0%nat by lia.
      change ((Z.of_nat 0 + 254) / 255) with 0.
      apply Z.div_unique with (r := Z.of_nat n - 1); lia.
    + replace (Z.of_nat n + 254) with (Z.of_nat (n - 255) + 254 + 1 * 255) by lia.
      rewrite Z.div_add by lia. lia.
Qed.

Section Accounting.

Variable stray : Z -> Z.

Lemma length_rs_decode_block (received : list Z) :
  List.length (snd (rs_decode_block stray received))
  = List.length (firstn (Z.to_nat N) received).
Proof.
  destruct (rs_decode_block_branches stray received)
    as [E|(lambda & omega & deg_lambda & _ & E)]; cbv zeta in E; rewrite E.
  - reflexivity.
  - apply find_and_correct_errors_buffer.
Qed.

Lemma length_decode_block (received_block : list Z) :
  List.length received_block = 255%nat ->
  List.length (snd (decode_block stray received_block)) = 255%nat.
Proof.
  intros H. unfold decode_block.
  pose proof (length_rs_decode_block received_block) as Hlen.
  destruct (rs_decode_block stray received_block) as [result corrected].
  cbn [snd] in Hlen.
  assert (Hf : List.length (firstn (Z.to_nat N) received_block) = 255%nat)
    by (rewrite length_firstn, H; reflexivity).
  destruct (result =? -1); cbn [snd]; congruence.
Qed.

Lemma decode_step_accounting (total_blocks : Z) (p : progress) (read : list Z) :
  (List.length read <= 255)%nat ->
  let q := decode_step stray total_blocks p read in
  block_count q = block_count p + 1
  /\ corrected_blocks p <= corrected_blocks q
  /\ failed_blocks p <= failed_blocks q
  /\ corrected_blocks q + failed_blocks q <= corrected_blocks p + failed_blocks p + 1
  /\ List.length (output q)
     = (List.length (output p) + written stray total_blocks p read)%nat.
Proof.
  intros Hread. cbv zeta. unfold decode_step, written.
  pose proof (length_decode_block (pad_block read) (length_pad_block read Hread)) as Hlen.
  destruct (decode_block stray (pad_block read)) as [result corrected_block].
  cbn [snd] in Hlen |- *.
  cbn [block_count corrected_blocks failed_blocks output].
  split; [reflexivity|].
  split; [destruct (result =? -1); [lia|destruct (0 <? result); lia]|].
  split; [destruct (result =? -1); lia|].
  split; [destruct (result =? -1); [lia|destruct (0 <? result); lia]|].
  rewrite length_app, length_firstn. f_equal.
  pose proof (trim_size_le corrected_block (Z.to_nat K)) as Htrim.
  change (Z.to_nat K) with 223%nat in *.
  destruct (block_count p + 1 =? total_blocks); lia.
Qed.

Lemma written_bounds (total_blocks : Z) (p : progress) (read : list Z) :
  (written stray total_blocks p read <= 223)%nat
  /\ (block_count p + 1 <> total_blocks -> written stray total_blocks p read = 223%nat).
Proof.
  unfold written.
  pose proof (trim_size_le (snd (decode_block stray (pad_block read))) (Z.to_nat K)) as H.
  change (Z.to_nat K) with 223%nat in *.
  destruct (Z.eqb_spec (block_count p + 1) total_blocks) as [E|E]; split.
  - exact H.
  - intros C. exfalso. exact (C E).
  - apply Nat.le_refl.
  - reflexivity.
Qed.

Lemma decode_loop_accounting (total_blocks : Z) (blocks : list (list Z)) :
  Forall (fun read => (1 <= List.length read <= 255)%nat) blocks ->
  forall p,
  let q := fold_left (decode_step stray total_blocks) blocks p in
  let n := Z.of_nat (List.length blocks) in
  block_count q = block_count p + n
  /\ corrected_blocks p <= corrected_blocks q
  /\ failed_blocks p <= failed_blocks q
  /\ corrected_blocks q + failed_blocks q <= corrected_blocks p + failed_blocks p + n
  /\ Z.of_nat (List.length (output q)) <= Z.of_nat (List.length (output p)) + 223 * n
  /\ Z.of_nat (List.length (output p)) + 223 * n
     - (if (block_count p <? total_blocks) && (total_blocks <=? block_count p + n)
        then 223 else 0)
     <= Z.of_nat (List.length (output q)).
Proof.
  induction 1 as [|read blocks Hread _ IH]; intros p; cbv zeta.
  - cbn [fold_left List.length Z.of_nat].
    rewrite ?Z.add_0_r, ?Z.mul_0_r.
    destruct ((block_count p <? total_blocks) && (total_blocks <=? block_count p)) eqn:E;
      [|lia].
    apply andb_true_iff in E as [E1 E2]. lia.
  - rewrite fold_left_cons_eq.
    specialize (IH (decode_step stray total_blocks p read)). cbv zeta in IH.
    destruct (decode_step_accounting total_blocks p read ltac:(lia))
      as (Hc & Hk & Hf & Hs & Ho).
    destruct (written_bounds total_blocks p read) as [Hw Hw'].
    destruct IH as (Ic & Ik & If & Is & Io & Io').
    rewrite Hc in *. rewrite Ho in *.
    cbn [List.length]. rewrite Nat2Z.inj_succ.
    set (m := Z.of_nat (List.length blocks)) in *.
    split; [lia|]. split; [lia|]. split; [lia|]. split; [lia|]. split; [lia|].
    destruct (Z.eq_dec (block_count p + 1) total_blocks) as [Heq|Hne].
    + destruct (Z.ltb_spec (block_count p + 1) total_blocks); [lia|].
      cbn [andb] in Io'.
      destruct (Z.ltb_spec (block_count p) total_blocks); [|lia].
      destruct (Z.leb_spec total_blocks (block_count p + Z.succ m)); [|lia].
      cbn [andb]. lia.
    + specialize (Hw' Hne).
      destruct (Z.ltb_spec (block_count p + 1) total_blocks);
        destruct (Z.ltb_spec (block_count p) total_blocks);
        destruct (Z.leb_spec total_blocks (block_count p + 1 + m));
        destruct (Z.leb_spec total_blocks (block_count p + Z.succ m));
        cbn [andb] in *; lia.
Qed.

Lemma decode_step_writes (total_blocks : Z) (p : progress) (read : list Z) :
  let q := decode_step stray total_blocks p read in
  let corrected_block := snd (decode_block stray (pad_block read)) in
  output q
  = output p
    ++ firstn (if block_count p + 1 =? total_blocks
               then trim_size corrected_block (Z.to_nat K)
               else Z.to_nat K)
         corrected_block
  /\ block_count q = block_count p + 1
  /\ corrected_blocks q
     = corrected_blocks p
       + (if 0 <? fst (rs_decode_block stray (pad_block read)) then 1 else 0).
Proof.
  cbv zeta. rewrite <- decode_block_status. unfold decode_step.
  destruct (decode_block stray (pad_block read)) as [result corrected_block].
  cbn [fst snd output block_count corrected_blocks].
  split; [reflexivity|]. split; [reflexivity|].
  destruct (Z.eqb_spec result (-1)) as [->|Hne]; [cbn; lia|].
  destruct (0 <? result); lia.
Qed.

Lemma decode_loop_corrected (total_blocks : Z) (blocks : list (list Z))
    (p : progress) :
  corrected_blocks (fold_left (decode_step stray total_blocks) blocks p)
  = corrected_blocks p
    + Z.of_nat (List.length
        (filter (fun read => 0 <? fst (rs_decode_block stray (pad_block read)))
                blocks)).
Proof.
  refine (proj2 (fold_left_counts (decode_step stray total_blocks) block_count
                   corrected_blocks
                   (fun read => 0 <? fst (rs_decode_block stray (pad_block read)))
                   _ blocks p)).
  intros q read.
  destruct (decode_step_writes total_blocks q read) as (_ & Hc & Hk).
  split; [exact Hc|exact Hk].
Qed.

(** What the loop writes, block by block: the block in position [i] of
    the rest of the file has the number [block_count p + i + 1]. *)
Lemma decode_loop_writes (total_blocks : Z) (blocks : list (list Z)) :
  forall p,
  output (fold_left (decode_step stray total_blocks) blocks p)
  = output p
    ++ List.concat
         (map (fun i =>
                 let corrected_block :=
                   snd (decode_block stray (pad_block (nth i blocks []))) in
                 firstn (if block_count p + Z.of_nat i + 1 =? total_blocks
                         then trim_size corrected_block (Z.to_nat K)
                         else Z.to_nat K)
                   corrected_block)
              (seq 0 (List.length blocks))).
Proof.
  induction blocks as [|read blocks IH]; intros p.
  - cbn. rewrite app_nil_r. reflexivity.
  - rewrite fold_left_cons_eq, IH.
    destruct (decode_step_writes total_blocks p read) as (Ho & Hc & _).
    cbv zeta in Ho. rewrite Ho, Hc, <- app_assoc. f_equal.
    cbn [List.length seq map List.concat nth]. rewrite Z.add_0_r. f_equal.
    rewrite <- seq_shift, map_map. f_equal.
    apply map_ext. intros i. cbn [nth].
    replace (block_count p + Z.of_nat (Datatypes.S i) + 1)
      with (block_count p + 1 + Z.of_nat i + 1) by lia.
    reflexivity.
Qed.

End Accounting.


(** ** Reading a file block by block *)

Lemma fread_nonempty (size fuel : nat) (file : list Z) :
  file <> [] ->
  Encode.fread size (Datatypes.S fuel) file
  = firstn size file :: Encode.fread size fuel (skipn size file).
Proof. destruct file; [congruence|reflexivity]. Qed.

Lemma fread_nil (size fuel : nat) : Encode.fread size fuel [] = [].
Proof. destruct fuel; reflexivity. Qed.

Lemma fread_blocks_fread (fuel : nat) : forall file,
  fread_blocks fuel file = Encode.fread (Z.to_nat N) fuel file.
Proof.
  induction fuel as [|fuel IH]; intros file; [reflexivity|].
  destruct file as [|b file']; [reflexivity|].
  cbn [fread_blocks Encode.fread]. rewrite IH. reflexivity.
Qed.

Lemma length_fread (size fuel : nat) : forall file : list Z,
  (1 <= size)%nat -> (List.length file <= fuel)%nat ->
  Z.of_nat (List.length (Encode.fread size fuel file))
  = (Z.of_nat (List.length file) + Z.of_nat size - 1) / Z.of_nat size.
Proof.
  induction fuel as [|fuel IH]; intros file Hsize Hlen.
  - destruct file; [|cbn [List.length] in Hlen; lia].
    cbn [Encode.fread List.length Z.of_nat]. symmetry. apply Z.div_small. lia.
  - destruct file as [|b file'].
    + cbn [Encode.fread List.length Z.of_nat]. symmetry. apply Z.div_small. lia.
    + rewrite fread_nonempty by discriminate.
      cbn [List.length]. rewrite Nat2Z.inj_succ, IH; [|exact Hsize|].
      2: { rewrite length_skipn. cbn [List.length] in *. lia. }
      rewrite length_skipn.
      remember (List.length (b :: file')) as n eqn:Hn.
      assert (Hpos : (1 <= n)%nat) by (subst n; cbn [List.length]; lia).
      replace (Z.of_nat (Datatypes.S (List.length file'))) with (Z.of_nat n)
        by (subst n; cbn [List.length]; lia).
      destruct (Nat.le_gt_cases n size) as [Hsmall|Hbig].
      * replace (n - size)%nat with 0%nat by lia.
        replace ((Z.of_nat 0 + Z.of_nat size - 1) / Z.of_nat size) with 0
          by (symmetry; apply Z.div_small; lia).
        apply Z.div_unique with (r := Z.of_nat n - 1); lia.
      * replace (Z.of_nat n + Z.of_nat size - 1)
          with (Z.of_nat (n - size) + Z.of_nat size - 1 + 1 * Z.of_nat size) by lia.
        rewrite Z.div_add by lia. lia.
Qed.

Lemma fread_concat_blocks (size : nat) (blocks : list (list Z)) :
  (1 <= size)%nat ->
  Forall (fun b => List.length b = size) blocks ->
  forall fuel, (List.length blocks <= fuel)%nat ->
  Encode.fread size fuel (List.concat blocks) = blocks.
Proof.
  intros Hsize H. induction H as [|b blocks Hb _ IH]; intros fuel Hfuel.
  - apply fread_nil.
  - cbn [List.length] in Hfuel. destruct fuel as [|fuel]; [lia|].
    cbn [List.concat]. rewrite fread_nonempty.
    2: { destruct b; [cbn in Hb; lia|discriminate]. }
    rewrite <- Hb at 1 3.
    rewrite firstn_app, Nat.sub_diag, firstn_all, skipn_app, Nat.sub_diag, skipn_all.
    cbn [firstn skipn app]. rewrite app_nil_r, IH by lia. reflexivity.
Qed.

Lemma length_concat_blocks (size : nat) (blocks : list (list Z)) :
  Forall (fun b => List.length b = size) blocks ->
  List.length (List.concat blocks) = (size * List.length blocks)%nat.
Proof.
  induction 1 as [|b blocks Hb _ IH]; [cbn; lia|].
  cbn [List.concat List.length]. rewrite length_app, IH, Hb. lia.
Qed.

Lemma fread_padded (fuel : nat) : forall file : list Z,
  (List.length file <= fuel)%nat ->
  let blocks := Encode.fread (Z.to_nat K) fuel file in
  Forall (fun b => List.length b = Z.to_nat K) (map Encode.pad_data blocks)
  /\ List.concat (map Encode.pad_data blocks)
     = file ++ repeat 0 (Z.to_nat K * List.length blocks - List.length file).
Proof.
  change (Z.to_nat K) with 223%nat.
  induction fuel as [|fuel IH]; intros file Hlen; cbv zeta.
  - destruct file; [|cbn [List.length] in Hlen; lia].
    split; [constructor|reflexivity].
  - destruct file as [|b file'].
    + split; [constructor|reflexivity].
    + rewrite fread_nonempty by discriminate.
      remember (b :: file') as file eqn:Hfile.
      assert (Hpos : (1 <= List.length file)%nat) by (subst file; cbn [List.length]; lia).
      assert (Hlen' : (List.length (skipn 223 file) <= fuel)%nat)
        by (rewrite length_skipn; subst file; cbn [List.length] in *; lia).
      destruct (IH (skipn 223 file) Hlen') as [IHsizes IHconcat].
      cbv zeta in IHsizes, IHconcat.
      cbn [map List.concat List.length].
      unfold Encode.pad_data at 1 3. change (Z.to_nat K) with 223%nat.
      split.
      * constructor; [|exact IHsizes].
        rewrite length_app, repeat_length, length_firstn. lia.
      * rewrite IHconcat, length_firstn, length_skipn.
        destruct (Nat.le_gt_cases 223 (List.length file)) as [Hbig|Hsmall].
        -- replace (223 - Nat.min 223 (List.length file))%nat with 0%nat by lia.
           cbn [repeat]. rewrite app_nil_r, app_assoc, firstn_skipn.
           f_equal. f_equal. lia.
        -- rewrite firstn_all2 by lia.
           rewrite skipn_all2 by lia.
           replace (Nat.min 223 (List.length file)) with (List.length file) by lia.
           rewrite skipn_all2 in IHconcat by lia.
           assert (Hnil : Encode.fread 223 fuel (skipn 223 file) = []).
           { rewrite skipn_all2 by lia. apply fread_nil. }
           rewrite skipn_all2 in Hnil by lia. rewrite Hnil.
           cbn [List.length app]. rewrite <- app_assoc. f_equal.
           replace (223 * 0 - (List.length file - 223))%nat with 0%nat by lia.
           cbn [repeat]. rewrite app_nil_r. f_equal.
Qed.

(** ** The encoding loop *)

Section EncodeLoop.

Variable stray : Z -> Z.

Lemma encode_loop (blocks : list (list Z)) : forall p,
  fold_left (Encode.encode_step stray) blocks p
  = (fst p ++ List.concat
                (map (fun read =>
                        firstn (Z.to_nat N)
                          (rs_encode_block stray (Encode.pad_data read))) blocks),
     snd p + Z.of_nat (List.length blocks)).
Proof.
  induction blocks as [|read blocks IH]; intros p.
  - cbn [fold_left map List.concat List.length Z.of_nat].
    rewrite app_nil_r, Z.add_0_r. destruct p; reflexivity.
  - rewrite fold_left_cons_eq, IH. unfold Encode.encode_step.
    cbn [fst snd map List.concat List.length].
    rewrite <- app_assoc, Nat2Z.inj_succ. f_equal. lia.
Qed.

Lemma encode_file_unfold (file : list Z) :
  let blocks := Encode.fread (Z.to_nat K) (List.length file) file in
  Encode.encode_file stray file
  = {| Encode.encoded :=
         List.concat
           (map (fun data => rs_encode_block stray data)
                (map Encode.pad_data blocks));
       Encode.block_count := Z.of_nat (List.length blocks);
       Encode.input_size_printed := Z.of_nat (List.length blocks) * K - (K - 0);
       Encode.output_size_printed := Z.of_nat (List.length blocks) * N |}.
Proof.
  cbv zeta. unfold Encode.encode_file. rewrite encode_loop. cbn [fst snd app].
  rewrite Z.add_0_l. f_equal. rewrite map_map. f_equal.
  apply map_ext_in. intros read Hin.
  apply firstn_all2. rewrite length_rs_encode_block; [reflexivity|].
  pose proof (fread_padded (List.length file) file (Nat.le_refl _)) as [Hsizes _].
  cbv zeta in Hsizes. rewrite Forall_forall in Hsizes.
  apply Hsizes, in_map, Hin.
Qed.

End EncodeLoop.

Lemma fread_bytes (P : Z -> Prop) (size fuel : nat) : forall file : list Z,
  Forall P file -> Forall (Forall P) (Encode.fread size fuel file).
Proof.
  induction fuel as [|fuel IH]; intros file H; [constructor|].
  destruct file as [|b file']; [constructor|].
  rewrite fread_nonempty by discriminate. constructor.
  - apply Forall_firstn, H.
  - apply IH, Forall_skipn, H.
Qed.

Lemma pad_data_bytes (read : list Z) :
  Forall is_byte read -> Forall is_byte (Encode.pad_data read).
Proof.
  intros H. unfold Encode.pad_data. apply Forall_app. split; [exact H|].
  apply Forall_forall. intros x Hx. apply repeat_spec in Hx. subst.
  unfold is_byte. lia.
Qed.

Section EncodedFile.

Variable stray : Z -> Z.
Variable file : list Z.

Local Notation "'data_blocks'" :=
  (map Encode.pad_data (Encode.fread (Z.to_nat K) (List.length file) file)).
Local Notation "'codewords'" :=
  (map (fun data => rs_encode_block stray data) data_blocks).

Lemma data_blocks_sizes : Forall (fun b => List.length b = Z.to_nat K) data_blocks.
Proof. exact (proj1 (fread_padded (List.length file) file (Nat.le_refl _))). Qed.

Lemma codewords_sizes : Forall (fun b => List.length b = Z.to_nat N) codewords.
Proof.
  apply Forall_forall. intros cw Hin. apply in_map_iff in Hin as (d & <- & Hd).
  apply length_rs_encode_block.
  pose proof data_blocks_sizes as H. rewrite Forall_forall in H. apply H, Hd.
Qed.

Lemma codewords_read_back :
  let encoded := Encode.encoded (Encode.encode_file stray file) in
  fread_blocks (List.length encoded) encoded = codewords.
Proof.
  cbv zeta. rewrite encode_file_unfold. cbv zeta. cbn [Encode.encoded].
  rewrite fread_blocks_fread.
  apply fread_concat_blocks; [change (Z.to_nat N) with 255%nat; lia|apply codewords_sizes|].
  rewrite (length_concat_blocks (Z.to_nat N) _ codewords_sizes).
  change (Z.to_nat N) with 255%nat. lia.
Qed.

Lemma codewords_data : map (firstn (Z.to_nat K)) codewords = data_blocks.
Proof.
  rewrite map_map. rewrite <- (map_id data_blocks) at 2.
  apply map_ext_in. intros d Hd.
  pose proof data_blocks_sizes as H. rewrite Forall_forall in H.
  specialize (H d Hd). rewrite rs_encode_block_fold by exact H.
  rewrite <- H, firstn_app, Nat.sub_diag, firstn_all. cbn [firstn].
  apply app_nil_r.
Qed.

End EncodedFile.




(** ** The bit-flip tool *)

Lemma u8_byte (b : Z) : 0 <= b < 256 -> u8 b = b.
Proof. intros H. unfold u8. apply Z.mod_small, H. Qed.

Lemma flip_bit_byte (b : Z) : 0 <= b < 256 -> 0 <= Z.lxor b 1 < 256.
Proof. intros H. apply lxor_byte; [exact H|lia]. Qed.

Lemma flip_bit_twice (b : Z) : Z.lxor (Z.lxor b 1) 1 = b.
Proof. rewrite Z.lxor_assoc, Z.lxor_nilpotent. apply Z.lxor_0_r. Qed.

Lemma flip_bit_differs (b : Z) : Z.lxor b 1 <> b.
Proof.
  intros H. assert (E : Z.lxor (Z.lxor b 1) b = 0) by (rewrite H; apply Z.lxor_nilpotent).
  rewrite (Z.lxor_comm b 1), Z.lxor_assoc, Z.lxor_nilpotent in E. discriminate E.
Qed.

Lemma length_flip_from (input : list Z) (flip_pos : Z) : forall byte_count,
  List.length (Flip.flip_from byte_count input flip_pos) = List.length input.
Proof.
  induction input as [|c rest IH]; intros byte_count; [reflexivity|].
  cbn [Flip.flip_from List.length]. rewrite IH. reflexivity.
Qed.

Lemma flip_from_outside (input : list Z) (flip_pos : Z) : forall byte_count,
  Forall is_byte input ->
  flip_pos < byte_count \/ byte_count + Z.of_nat (List.length input) <= flip_pos ->
  Flip.flip_from byte_count input flip_pos = input.
Proof.
  induction input as [|c rest IH]; intros byte_count Hbytes Hout; [reflexivity|].
  inversion Hbytes as [|? ? Hc Hrest]; subst.
  cbn [Flip.flip_from List.length] in *.
  destruct (Z.eqb_spec byte_count flip_pos) as [E|E]; [lia|].
  rewrite u8_byte by exact Hc. f_equal. apply IH; [exact Hrest|lia].
Qed.

Lemma flip_from_inside (input : list Z) (flip_pos : Z) : forall byte_count,
  Forall is_byte input ->
  byte_count <= flip_pos < byte_count + Z.of_nat (List.length input) ->
  let k := Z.to_nat (flip_pos - byte_count) in
  Flip.flip_from byte_count input flip_pos
  = firstn k input ++ Z.lxor (nth k input 0) 1 :: skipn (Datatypes.S k) input.
Proof.
  induction input as [|c rest IH]; intros byte_count Hbytes Hin; cbv zeta.
  - cbn [List.length] in Hin. lia.
  - inversion Hbytes as [|? ? Hc Hrest]; subst.
    cbn [Flip.flip_from List.length] in *.
    destruct (Z.eqb_spec byte_count flip_pos) as [E|E].
    + subst. rewrite Z.sub_diag. cbn [Z.to_nat firstn nth skipn app].
      rewrite u8_byte by (apply flip_bit_byte, Hc). f_equal.
      apply flip_from_outside; [exact Hrest|lia].
    + rewrite u8_byte by exact Hc.
      replace (Z.to_nat (flip_pos - byte_count))
        with (Datatypes.S (Z.to_nat (flip_pos - (byte_count + 1)))) by lia.
      cbn [firstn nth skipn app]. f_equal.
      apply (IH (byte_count + 1) Hrest). lia.
Qed.

Lemma flip_from_bytes (input : list Z) (flip_pos : Z) : forall byte_count,
  Forall is_byte input -> Forall is_byte (Flip.flip_from byte_count input flip_pos).
Proof.
  induction input as [|c rest IH]; intros byte_count Hbytes; [constructor|].
  inversion Hbytes as [|? ? Hc Hrest]; subst.
  cbn [Flip.flip_from]. constructor; [|apply IH, Hrest].
  unfold is_byte, u8. apply Z.mod_pos_bound. lia.
Qed.

Lemma flip_from_twice (input : list Z) (flip_pos : Z) : forall byte_count,
  Forall is_byte input ->
  Flip.flip_from byte_count (Flip.flip_from byte_count input flip_pos) flip_pos
  = input.
Proof.
  induction input as [|c rest IH]; intros byte_count Hbytes; [reflexivity|].
  inversion Hbytes as [|? ? Hc Hrest]; subst.
  cbn [Flip.flip_from]. rewrite IH by exact Hrest. f_equal.
  destruct (Z.eqb_spec byte_count flip_pos) as [E|E].
  - rewrite (u8_byte (Z.lxor c 1)) by (apply flip_bit_byte, Hc).
    rewrite flip_bit_twice. apply u8_byte, Hc.
  - rewrite (u8_byte c) by exact Hc. apply u8_byte, Hc.
Qed.



(** ** The hex dump *)

Lemma hex_digit_checked :
  all_from (Z.to_nat (16 - 0)) 0
    (fun n => FX25.is_hex (Hex.hex_digit n)
              && (FX25.hex_value (Hex.hex_digit n) =? n)
              && negb (FX25.is_space (Hex.hex_digit n))
              && negb (Hex.hex_digit n =? 0)
              && negb (Hex.hex_digit n =? 10)
              && negb (Hex.hex_digit n =? 80))
  = true.
Proof. vm_compute. reflexivity. Qed.

Lemma hex_digit_facts (n : Z) :
  0 <= n < 16 ->
  FX25.is_hex (Hex.hex_digit n) = true
  /\ FX25.hex_value (Hex.hex_digit n) = n
  /\ FX25.is_space (Hex.hex_digit n) = false
  /\ Hex.hex_digit n <> 0 /\ Hex.hex_digit n <> 10 /\ Hex.hex_digit n <> 80.
Proof.
  intros Hn. pose proof (all_from_forall _ 0 16 hex_digit_checked n Hn) as H.
  cbv beta in H.
  repeat (apply andb_true_iff in H as [H ?]).
  repeat match goal with
         | E : negb _ = true |- _ => apply negb_true_iff in E
         end.
  repeat split; try assumption; try (apply Z.eqb_eq; assumption);
    apply Z.eqb_neq; assumption.
Qed.

Lemma byte_digits (b : Z) :
  0 <= b < 256 -> 0 <= b / 16 < 16 /\ 0 <= b mod 16 < 16 /\ 16 * (b / 16) + b mod 16 = b.
Proof.
  intros Hb. pose proof (Z.div_mod b 16 ltac:(lia)).
  pose proof (Z.mod_pos_bound b 16 ltac:(lia)).
  split; [split; [apply Z.div_pos; lia|apply Z.div_lt_upper_bound; lia]|].
  split; lia.
Qed.

Lemma parse_hex_full (line : list Z) (max_len : Z) :
  max_len <= 0 -> FX25.parse_hex line max_len = [].
Proof.
  intros H. destruct line as [|c rest]; [reflexivity|].
  cbn [FX25.parse_hex]. destruct (Z.leb_spec max_len 0); [reflexivity|lia].
Qed.

Lemma parse_hex_byte (b : Z) (rest : list Z) (max_len : Z) :
  0 <= b < 256 -> 0 < max_len ->
  FX25.parse_hex (Hex.print_byte b ++ rest) max_len
  = b :: FX25.parse_hex rest (max_len - 1).
Proof.
  intros Hb Hmax. destruct (byte_digits b Hb) as (Hhi & Hlo & Hsum).
  destruct (hex_digit_facts (b / 16) Hhi) as (Hh1 & Hv1 & Hs1 & _).
  destruct (hex_digit_facts (b mod 16) Hlo) as (Hh2 & Hv2 & _).
  unfold Hex.print_byte. cbn [app FX25.parse_hex].
  destruct (Z.leb_spec max_len 0); [lia|].
  rewrite Hs1, Hh1, Hh2. cbn [negb]. rewrite Hv1, Hv2, Hsum.
  rewrite u8_byte by exact Hb. f_equal.
  destruct (Z.leb_spec (max_len - 1) 0) as [Hz|Hz].
  - symmetry. apply parse_hex_full, Hz.
  - reflexivity.
Qed.

Lemma parse_hex_bytes (bytes : list Z) : forall (rest : list Z) (max_len : Z),
  Forall is_byte bytes -> Z.of_nat (List.length bytes) <= max_len ->
  FX25.parse_hex (List.concat (map Hex.print_byte bytes) ++ rest) max_len
  = bytes ++ FX25.parse_hex rest (max_len - Z.of_nat (List.length bytes)).
Proof.
  induction bytes as [|b bytes IH]; intros rest max_len Hbytes Hlen.
  - cbn [map List.concat app List.length Z.of_nat]. rewrite Z.sub_0_r. reflexivity.
  - inversion Hbytes as [|? ? Hb Hbytes']; subst.
    cbn [map List.concat List.length] in *. rewrite <- app_assoc.
    rewrite parse_hex_byte by (try exact Hb; lia).
    rewrite IH by (try assumption; lia).
    replace (max_len - 1 - Z.of_nat (List.length bytes))
      with (max_len - Z.of_nat (Datatypes.S (List.length bytes))) by lia.
    reflexivity.
Qed.

Lemma parse_hex_data_line (bytes : list Z) (max_len : Z) :
  Forall is_byte bytes -> Z.of_nat (List.length bytes) <= max_len ->
  FX25.parse_hex (data_line bytes) max_len = bytes.
Proof.
  intros Hbytes Hlen. unfold data_line. rewrite parse_hex_bytes by assumption.
  unfold Hex.newline. cbn [FX25.parse_hex].
  destruct (_ <=? 0); cbn; apply app_nil_r.
Qed.

(** *** The lines of a dump *)

Lemma rem_succ_16 (i : Z) :
  0 <= i ->
  Z.rem (i + 1) 16 = if i mod 16 =? 15 then 0 else i mod 16 + 1.
Proof.
  intros Hi. rewrite Z.rem_mod_nonneg by lia.
  destruct (Z.eqb_spec (i mod 16) 15) as [E|E]; Z.div_mod_to_equations; lia.
Qed.

Lemma hex_dump_app (a b : list Z) : forall i,
  hex_dump i (a ++ b) = hex_dump i a ++ hex_dump (i + Z.of_nat (List.length a)) b.
Proof.
  induction a as [|x a IH]; intros i.
  - cbn [app hex_dump List.length Z.of_nat]. rewrite Z.add_0_r. reflexivity.
  - cbn [app hex_dump List.length]. rewrite IH, <- !app_assoc.
    do 3 f_equal. f_equal. lia.
Qed.

Lemma hex_dump_short (bytes : list Z) : forall i,
  0 <= i -> i mod 16 + Z.of_nat (List.length bytes) < 16 ->
  hex_dump i bytes = List.concat (map Hex.print_byte bytes).
Proof.
  induction bytes as [|b bytes IH]; intros i Hi Hlen; [reflexivity|].
  cbn [hex_dump map List.concat List.length] in *.
  pose proof (Z.mod_pos_bound i 16 ltac:(lia)) as Hmod.
  rewrite rem_succ_16 by exact Hi.
  destruct (Z.eqb_spec (i mod 16) 15) as [E|E]; [lia|].
  destruct (Z.eqb_spec (i mod 16 + 1) 0) as [E'|E']; [lia|].
  cbn [app]. f_equal. apply IH; [lia|].
  replace ((i + 1) mod 16) with (i mod 16 + 1)
    by (Z.div_mod_to_equations; lia).
  lia.
Qed.

Lemma hex_dump_line (bytes : list Z) : forall i,
  0 <= i -> i mod 16 + Z.of_nat (List.length bytes) = 16 ->
  hex_dump i bytes = data_line bytes.
Proof.
  induction bytes as [|b bytes IH]; intros i Hi Hlen.
  - cbn [List.length Z.of_nat] in Hlen.
    pose proof (Z.mod_pos_bound i 16 ltac:(lia)). lia.
  - cbn [hex_dump List.length] in *. unfold data_line. cbn [map List.concat].
    pose proof (Z.mod_pos_bound i 16 ltac:(lia)) as Hmod.
    rewrite rem_succ_16 by exact Hi.
    destruct bytes as [|b' bytes'].
    + cbn [List.length Z.of_nat] in Hlen.
      destruct (Z.eqb_spec (i mod 16) 15) as [E|E]; [|lia].
      cbn [Z.eqb hex_dump map List.concat app]. rewrite !app_nil_r. reflexivity.
    + destruct (Z.eqb_spec (i mod 16) 15) as [E|E];
        [cbn [List.length] in Hlen; lia|].
      destruct (Z.eqb_spec (i mod 16 + 1) 0) as [E'|E']; [lia|].
      cbn [app]. rewrite <- app_assoc. f_equal.
      apply (IH (i + 1)); [lia|].
      replace ((i + 1) mod 16) with (i mod 16 + 1)
        by (Z.div_mod_to_equations; lia).
      lia.
Qed.

Lemma hex_dump_lines (fuel : nat) : forall (bytes : list Z) (i : Z),
  (List.length bytes <= fuel)%nat -> 0 <= i -> i mod 16 = 0 ->
  hex_dump i bytes
  ++ (if Z.rem (i + Z.of_nat (List.length bytes)) 16 =? 0 then [] else [Hex.newline])
  = List.concat (map data_line (Encode.fread 16 fuel bytes)).
Proof.
  induction fuel as [|fuel IH]; intros bytes i Hlen Hi Hmod.
  - destruct bytes; [|cbn [List.length] in Hlen; lia].
    cbn [hex_dump List.length Z.of_nat app Encode.fread map List.concat].
    rewrite Z.add_0_r, Z.rem_mod_nonneg, Hmod by lia. reflexivity.
  - destruct bytes as [|b bytes'].
    + cbn [hex_dump List.length Z.of_nat app Encode.fread map List.concat].
      rewrite Z.add_0_r, Z.rem_mod_nonneg, Hmod by lia. reflexivity.
    + rewrite fread_nonempty by discriminate.
      remember (b :: bytes') as bytes eqn:Hb.
      assert (Hpos : (1 <= List.length bytes)%nat) by (subst bytes; cbn [List.length]; lia).
      cbn [map List.concat].
      destruct (Nat.le_gt_cases 16 (List.length bytes)) as [Hbig|Hsmall].
      * rewrite <- (firstn_skipn 16 bytes) at 1 2.
        rewrite hex_dump_app, <- app_assoc.
        assert (H16 : List.length (firstn 16 bytes) = 16%nat)
          by (rewrite length_firstn; lia).
        rewrite (hex_dump_line (firstn 16 bytes) i Hi) by (rewrite H16, Hmod; lia).
        f_equal. rewrite H16.
        rewrite <- (IH (skipn 16 bytes) (i + Z.of_nat 16)).
        -- f_equal. rewrite length_app, H16.
           replace (i + Z.of_nat (16 + List.length (skipn 16 bytes)))
             with (i + Z.of_nat 16 + Z.of_nat (List.length (skipn 16 bytes))) by lia.
           reflexivity.
        -- rewrite length_skipn. subst bytes. cbn [List.length] in *. lia.
        -- lia.
        -- change (Z.of_nat 16) with (1 * 16). rewrite Z.mod_add by lia. exact Hmod.
      * rewrite firstn_all2, skipn_all2 by lia.
        rewrite fread_nil. cbn [map List.concat]. rewrite app_nil_r.
        rewrite hex_dump_short by (try exact Hi; rewrite Hmod; lia).
        unfold data_line. f_equal.
        rewrite Z.rem_mod_nonneg by lia.
        destruct (Z.eqb_spec ((i + Z.of_nat (List.length bytes)) mod 16) 0) as [E|E];
          [|reflexivity].
        exfalso. Z.div_mod_to_equations. lia.
Qed.

Lemma hex_dump_loop (bytes : list Z) : forall (before out : list Z),
  for_loop (List.length bytes) (Z.of_nat (List.length before)) 1
    (fun i out =>
       let out := out ++ Hex.print_byte (byte_at (before ++ bytes) i) in
       if Z.rem (i + 1) 16 =? 0 then out ++ [Hex.newline] else out)
    out
  = out ++ hex_dump (Z.of_nat (List.length before)) bytes.
Proof.
  induction bytes as [|b bytes IH]; intros before out.
  - cbn [List.length for_loop hex_dump]. rewrite app_nil_r. reflexivity.
  - cbn [List.length for_loop hex_dump]. cbv zeta.
    assert (Hat : byte_at (before ++ b :: bytes) (Z.of_nat (List.length before)) = b).
    { unfold byte_at. rewrite Nat2Z.id, app_nth2, Nat.sub_diag by lia. reflexivity. }
    rewrite Hat.
    specialize (IH (before ++ [b])). rewrite <- app_assoc in IH. cbn [app] in IH.
    rewrite length_app in IH. cbn [List.length] in IH.
    replace (Z.of_nat (List.length before + 1)) with (Z.of_nat (List.length before) + 1)
      in IH by lia.
    rewrite IH.
    destruct (Z.rem (Z.of_nat (List.length before) + 1) 16 =? 0);
      rewrite <- ?app_assoc; reflexivity.
Qed.

(** The dump of a frame, line by line. *)
Lemma write_frame_hex_lines (frame : list Z) (packet_num : Z) :
  Hex.write_frame_hex frame (Z.of_nat (List.length frame)) packet_num
  = header_line (Z.of_nat (List.length frame)) packet_num
    ++ List.concat (map data_line (Encode.fread 16 (List.length frame) frame))
    ++ [Hex.newline].
Proof.
  unfold Hex.write_frame_hex. cbv zeta. rewrite Nat2Z.id.
  fold (header_line (Z.of_nat (List.length frame)) packet_num).
  pose proof (hex_dump_loop frame [] (header_line (Z.of_nat (List.length frame)) packet_num))
    as Hloop.
  cbn [app List.length Z.of_nat] in Hloop. rewrite Hloop.
  pose proof (hex_dump_lines (List.length frame) frame 0 (Nat.le_refl _)
                ltac:(lia) ltac:(reflexivity)) as Hlines.
  rewrite Z.add_0_l in Hlines. rewrite <- Hlines.
  destruct (Z.rem (Z.of_nat (List.length frame)) 16 =? 0);
    rewrite <- ?app_assoc; reflexivity.
Qed.

(** ** Reading the dump back *)

Lemma fgets_line (body : list Z) : forall (rest : list Z) (size : nat),
  Forall (fun c => c <> 10) body -> (List.length body < size)%nat ->
  FX25.fgets size (body ++ 10 :: rest) = (body ++ [10], rest).
Proof.
  induction body as [|c body IH]; intros rest size Hbody Hsize.
  - destruct size as [|size]; [lia|]. reflexivity.
  - inversion Hbody as [|? ? Hc Hbody']; subst.
    destruct size as [|size]; [cbn [List.length] in Hsize; lia|].
    cbn [app FX25.fgets]. destruct (Z.eqb_spec c 10) as [E|E]; [contradiction|].
    rewrite IH by (try assumption; cbn [List.length] in Hsize; lia).
    reflexivity.
Qed.

Lemma c_string_all (line : list Z) :
  Forall (fun c => c <> 0) line -> FX25.c_string line = line.
Proof.
  induction 1 as [|c line Hc _ IH]; [reflexivity|].
  cbn [FX25.c_string]. destruct (Z.eqb_spec c 0); [contradiction|].
  rewrite IH. reflexivity.
Qed.

Lemma strstr_app (before hay needle : list Z) :
  FX25.strstr hay needle = true -> FX25.strstr (before ++ hay) needle = true.
Proof.
  intros H. induction before as [|c before IH]; [exact H|].
  cbn [app FX25.strstr]. rewrite IH. apply orb_true_r.
Qed.

Lemma strstr_absent (hay needle : list Z) (c : Z) :
  Forall (fun h => h <> c) hay -> FX25.strstr hay (c :: needle) = false.
Proof.
  induction 1 as [|h hay Hh _ IH]; [reflexivity|].
  cbn [FX25.strstr FX25.starts_with]. rewrite IH.
  destruct (Z.eqb_spec c h) as [E|E]; [congruence|reflexivity].
Qed.

(** *** The characters of a dump *)

Lemma print_digits_chars (fuel : nat) : forall n,
  Forall (fun c => 48 <= c <= 57) (Hex.print_digits fuel n)
  /\ (List.length (Hex.print_digits fuel n) <= fuel)%nat.
Proof.
  induction fuel as [|fuel IH]; intros n; [split; [constructor|reflexivity]|].
  cbn [Hex.print_digits].
  pose proof (Z.mod_pos_bound n 10 ltac:(lia)) as Hmod.
  destruct (IH (n / 10)) as [Hc Hl].
  destruct (n <? 10); cbn [app]; split.
  - constructor; [lia|constructor].
  - cbn [List.length]. lia.
  - apply Forall_app. split; [exact Hc|]. constructor; [lia|constructor].
  - rewrite length_app. cbn [List.length]. lia.
Qed.

Lemma print_int_chars (n : Z) :
  Forall (fun c => 45 <= c <= 57) (Hex.print_int n)
  /\ (List.length (Hex.print_int n) <= 11)%nat.
Proof.
  unfold Hex.print_int.
  destruct (n <? 0).
  - destruct (print_digits_chars 10 (- n)) as [Hc Hl]. split.
    + constructor; [lia|]. eapply Forall_impl; [|exact Hc]. cbv beta. intros; lia.
    + cbn [List.length]. lia.
  - destruct (print_digits_chars 10 n) as [Hc Hl]. split.
    + eapply Forall_impl; [|exact Hc]. cbv beta. intros; lia.
    + lia.
Qed.

(** The header without its newline. *)
Lemma header_line_chars (length packet_num : Z) :
  exists body,
    header_line length packet_num = body ++ [10]
    /\ Forall (fun c => 32 <= c <= 121) body
    /\ (List.length body <= 39)%nat.
Proof.
  destruct (print_int_chars length) as [Hc1 Hl1].
  destruct (print_int_chars packet_num) as [Hc2 Hl2].
  exists (chars "Packet " ++ Hex.print_int packet_num ++ chars " ("
          ++ Hex.print_int length ++ chars " bytes):").
  split; [unfold header_line, Hex.newline; rewrite <- !app_assoc; reflexivity|].
  split.
  - repeat (apply Forall_app; split);
      try (eapply Forall_impl; [|eassumption]; cbv beta; intros; lia);
      cbn; repeat (constructor; [lia|]); constructor.
  - rewrite !length_app. cbn [chars List.length]. lia.
Qed.

Lemma header_line_found (length packet_num : Z) :
  FX25.strstr (header_line length packet_num) (chars "Packet") = true
  /\ FX25.strstr (header_line length packet_num) (chars "bytes") = true.
Proof.
  split.
  - reflexivity.
  - unfold header_line. rewrite !app_assoc, <- (app_assoc _ (chars " bytes):")).
    apply strstr_app. reflexivity.
Qed.

Lemma print_byte_chars (b : Z) :
  0 <= b < 256 ->
  Forall (fun c => c <> 0 /\ c <> 10 /\ c <> 80) (Hex.print_byte b).
Proof.
  intros Hb. destruct (byte_digits b Hb) as (Hhi & Hlo & _).
  destruct (hex_digit_facts (b / 16) Hhi) as (_ & _ & _ & H1 & H2 & H3).
  destruct (hex_digit_facts (b mod 16) Hlo) as (_ & _ & _ & H4 & H5 & H6).
  unfold Hex.print_byte. repeat constructor; auto; lia.
Qed.

Lemma dump_chars (bytes : list Z) :
  Forall is_byte bytes ->
  Forall (fun c => c <> 0 /\ c <> 10 /\ c <> 80) (List.concat (map Hex.print_byte bytes)).
Proof.
  induction 1 as [|b bytes Hb _ IH]; [constructor|].
  cbn [map List.concat]. apply Forall_app. split; [apply print_byte_chars, Hb|exact IH].
Qed.

Lemma length_dump (bytes : list Z) :
  List.length (List.concat (map Hex.print_byte bytes)) = (3 * List.length bytes)%nat.
Proof.
  induction bytes as [|b bytes IH]; [reflexivity|].
  cbn [map List.concat List.length]. rewrite length_app, IH. cbn [Hex.print_byte List.length]. lia.
Qed.

(** *** One line *)

Lemma read_loop_unfold (fuel : nat) (file : list Z) (max_packets : Z)
    (st : FX25.reader) :
  file <> [] ->
  FX25.read_loop (Datatypes.S fuel) file max_packets st
  = if FX25.packet_count st <? max_packets
    then FX25.read_loop fuel (snd (FX25.fgets 1023 file)) max_packets
           (FX25.read_line st (FX25.c_string (fst (FX25.fgets 1023 file))))
    else st.
Proof.
  intros H. destruct file as [|c rest]; [congruence|].
  cbn [FX25.read_loop]. destruct (FX25.fgets 1023 (c :: rest)). reflexivity.
Qed.

Lemma read_loop_end (fuel : nat) (max_packets : Z) (st : FX25.reader) :
  FX25.read_loop fuel [] max_packets st = st.
Proof. destruct fuel; reflexivity. Qed.

Lemma read_loop_stop (fuel : nat) (file : list Z) (max_packets : Z)
    (st : FX25.reader) :
  max_packets <= FX25.packet_count st ->
  FX25.read_loop fuel file max_packets st = st.
Proof.
  intros H. destruct fuel as [|fuel]; [reflexivity|].
  destruct file as [|c rest]; [reflexivity|].
  rewrite read_loop_unfold by discriminate.
  destruct (Z.ltb_spec (FX25.packet_count st) max_packets); [lia|reflexivity].
Qed.

Lemma reads_nil (max_packets : Z) (st : FX25.reader) : reads max_packets [] st st.
Proof. intros rest fuel Hfuel. exists fuel. split; [exact Hfuel|reflexivity]. Qed.

Lemma reads_app (max_packets : Z) (a b : list Z) (st st1 st2 : FX25.reader) :
  reads max_packets a st st1 -> reads max_packets b st1 st2 ->
  reads max_packets (a ++ b) st st2.
Proof.
  intros Ha Hb rest fuel Hfuel. rewrite <- app_assoc in *.
  destruct (Ha (b ++ rest) fuel Hfuel) as (fuel1 & Hfuel1 & E1).
  destruct (Hb rest fuel1 Hfuel1) as (fuel2 & Hfuel2 & E2).
  exists fuel2. split; [exact Hfuel2|]. rewrite E1. exact E2.
Qed.

Lemma reads_line (max_packets : Z) (body : list Z) (st : FX25.reader) :
  Forall (fun c => c <> 0 /\ c <> 10) body -> (List.length body < 1023)%nat ->
  FX25.packet_count st < max_packets ->
  reads max_packets (body ++ [10]) st (FX25.read_line st (body ++ [10])).
Proof.
  intros Hbody Hsize Hcount rest fuel Hfuel.
  rewrite <- app_assoc in *. cbn [app] in *.
  destruct fuel as [|fuel]; [rewrite length_app in Hfuel; cbn [List.length] in Hfuel; lia|].
  exists fuel. split.
  { rewrite length_app in Hfuel. cbn [List.length] in Hfuel. lia. }
  rewrite read_loop_unfold by (destruct body; discriminate).
  destruct (Z.ltb_spec (FX25.packet_count st) max_packets); [|lia].
  rewrite fgets_line;
    [|eapply Forall_impl; [|exact Hbody]; cbv beta; intros c Hc; apply Hc|exact Hsize].
  cbn [fst snd]. rewrite c_string_all; [reflexivity|].
  apply Forall_app. split.
  - eapply Forall_impl; [|exact Hbody]. cbv beta. intros c Hc. apply Hc.
  - constructor; [lia|constructor].
Qed.

Lemma read_line_header (st : FX25.reader) (length packet_num : Z) :
  FX25.temp_buffer st = [] ->
  FX25.read_line st (header_line length packet_num)
  = {| FX25.packets := FX25.packets st; FX25.temp_buffer := [];
       FX25.in_packet := true |}.
Proof.
  intros Htemp. unfold FX25.read_line.
  destruct (header_line_found length packet_num) as [-> ->]. cbn [andb].
  unfold FX25.temp_len. rewrite Htemp. cbn [List.length Z.of_nat Z.ltb Z.compare].
  rewrite andb_false_r. rewrite Htemp. reflexivity.
Qed.

Lemma read_line_data (st : FX25.reader) (bytes : list Z) :
  FX25.in_packet st = true -> Forall is_byte bytes -> (1 <= List.length bytes)%nat ->
  FX25.temp_len st + Z.of_nat (List.length bytes) <= FX25.MAX_FRAME_SIZE ->
  FX25.read_line st (data_line bytes)
  = {| FX25.packets := FX25.packets st;
       FX25.temp_buffer := FX25.temp_buffer st ++ bytes;
       FX25.in_packet := true |}.
Proof.
  intros Hin Hbytes Hlen Hroom. unfold FX25.read_line.
  assert (Hnot : FX25.strstr (data_line bytes) (chars "Packet") = false).
  { apply strstr_absent. unfold data_line. apply Forall_app. split.
    - eapply Forall_impl; [|apply dump_chars, Hbytes]. cbv beta. intros c Hc. apply Hc.
    - constructor; [intros E; vm_compute in E; discriminate E|constructor]. }
  rewrite Hnot. cbn [andb]. rewrite Hin. cbv zeta.
  rewrite parse_hex_data_line by (try assumption; lia).
  assert (Hlong : (Z.of_nat (List.length (data_line bytes)) <=? 1) = false).
  { apply Z.leb_gt. unfold data_line. rewrite length_app, length_dump.
    cbn [List.length]. lia. }
  rewrite Hlong. cbn [andb]. reflexivity.
Qed.

Lemma read_line_blank (st : FX25.reader) :
  FX25.in_packet st = true -> FX25.temp_buffer st <> [] ->
  FX25.read_line st [10]
  = {| FX25.packets := FX25.packets st ++ [FX25.temp_buffer st];
       FX25.temp_buffer := [];
       FX25.in_packet := false |}.
Proof.
  intros Hin Htemp. unfold FX25.read_line.
  change (FX25.strstr [10] (chars "Packet")) with false. cbn [andb].
  rewrite Hin. cbv zeta.
  assert (Hparse : forall m, FX25.parse_hex [10] m = []).
  { intros m. cbn [FX25.parse_hex]. destruct (m <=? 0); reflexivity. }
  rewrite Hparse, app_nil_r.
  unfold FX25.temp_len. cbn [FX25.temp_buffer FX25.packets List.length Z.of_nat Z.leb Z.compare].
  destruct (FX25.temp_buffer st) as [|b t]; [congruence|].
  cbn [List.length]. destruct (Z.ltb_spec 0 (Z.of_nat (Datatypes.S (List.length t)))); [|lia].
  reflexivity.
Qed.

(** *** One frame *)

Lemma fread_concat (size fuel : nat) : forall file : list Z,
  (1 <= size)%nat -> (List.length file <= fuel)%nat ->
  List.concat (Encode.fread size fuel file) = file.
Proof.
  induction fuel as [|fuel IH]; intros file Hsize Hlen.
  - destruct file; [reflexivity|cbn [List.length] in Hlen; lia].
  - destruct file as [|b file']; [reflexivity|].
    rewrite fread_nonempty by discriminate. cbn [List.concat].
    rewrite IH; [apply firstn_skipn|exact Hsize|].
    rewrite length_skipn. cbn [List.length] in *. lia.
Qed.

Lemma fread_lengths (size fuel : nat) : forall file : list Z,
  (1 <= size)%nat ->
  Forall (fun b => (1 <= List.length b <= size)%nat) (Encode.fread size fuel file).
Proof.
  induction fuel as [|fuel IH]; intros file Hsize; [constructor|].
  destruct file as [|b file']; [constructor|].
  rewrite fread_nonempty by discriminate. constructor; [|apply IH, Hsize].
  rewrite length_firstn. cbn [List.length]. lia.
Qed.

Lemma reads_data_lines (max_packets : Z) (chunks : list (list Z)) :
  Forall (fun c => (1 <= List.length c <= 16)%nat) chunks ->
  Forall (Forall is_byte) chunks ->
  forall st,
  FX25.in_packet st = true ->
  FX25.packet_count st < max_packets ->
  FX25.temp_len st + Z.of_nat (List.length (List.concat chunks)) <= FX25.MAX_FRAME_SIZE ->
  reads max_packets (List.concat (map data_line chunks)) st
    {| FX25.packets := FX25.packets st;
       FX25.temp_buffer := FX25.temp_buffer st ++ List.concat chunks;
       FX25.in_packet := true |}.
Proof.
  intros Hsizes. induction Hsizes as [|c chunks Hc _ IH]; intros Hbytes st Hin Hcount Hroom.
  - cbn [map List.concat]. rewrite app_nil_r.
    destruct st as [p t i]. cbn [FX25.in_packet] in Hin. subst i. apply reads_nil.
  - inversion Hbytes as [|? ? Hcb Hbytes']; subst.
    cbn [map List.concat] in *. rewrite length_app in Hroom.
    eapply reads_app.
    + unfold data_line at 1. unfold Hex.newline. apply reads_line.
      * eapply Forall_impl; [|apply dump_chars, Hcb]. cbv beta. intros x Hx.
        split; apply Hx.
      * rewrite length_dump. lia.
      * exact Hcount.
    + fold Hex.newline. fold (data_line c).
      rewrite read_line_data by (try assumption; lia).
      specialize (IH Hbytes'
                    {| FX25.packets := FX25.packets st;
                       FX25.temp_buffer := FX25.temp_buffer st ++ c;
                       FX25.in_packet := true |}).
      cbn [FX25.packets FX25.temp_buffer FX25.in_packet] in IH.
      rewrite <- app_assoc in IH. apply IH.
      * reflexivity.
      * exact Hcount.
      * unfold FX25.temp_len in *. cbn [FX25.temp_buffer].
        rewrite length_app. lia.
Qed.

Lemma reads_frame (max_packets : Z) (frame : list Z) (packet_num : Z)
    (st : FX25.reader) :
  readable frame ->
  FX25.temp_buffer st = [] ->
  FX25.packet_count st < max_packets ->
  reads max_packets
    (Hex.write_frame_hex frame (Z.of_nat (List.length frame)) packet_num) st
    {| FX25.packets := FX25.packets st ++ [frame];
       FX25.temp_buffer := [];
       FX25.in_packet := false |}.
Proof.
  intros [Hlen Hbytes] Htemp Hcount.
  rewrite write_frame_hex_lines.
  destruct (header_line_chars (Z.of_nat (List.length frame)) packet_num)
    as (body & Hhead & Hchars & Hshort).
  eapply reads_app; [|eapply reads_app].
  - rewrite Hhead. apply reads_line.
    + eapply Forall_impl; [|exact Hchars]. cbv beta. intros c Hc. lia.
    + lia.
    + exact Hcount.
  - rewrite <- Hhead, read_line_header by exact Htemp.
    apply reads_data_lines.
    + apply fread_lengths. lia.
    + apply fread_bytes, Hbytes.
    + reflexivity.
    + exact Hcount.
    + rewrite fread_concat by lia. unfold FX25.temp_len, FX25.MAX_FRAME_SIZE.
      cbn [FX25.temp_buffer List.length Z.of_nat]. lia.
  - cbn [FX25.packets FX25.temp_buffer app].
    rewrite fread_concat by lia.
    pose proof (reads_line max_packets []
                  {| FX25.packets := FX25.packets st; FX25.temp_buffer := frame;
                     FX25.in_packet := true |}
                  (Forall_nil _) ltac:(cbn [List.length]; lia) Hcount) as H.
    cbn [app] in H. rewrite read_line_blank in H.
    + exact H.
    + reflexivity.
    + cbn [FX25.temp_buffer]. destruct frame; [cbn [List.length] in Hlen; lia|discriminate].
Qed.

(** *** All frames *)

Lemma read_loop_dumps (max_packets : Z) (dumps : list (Z * list Z)) :
  Forall (fun d => readable (snd d)) dumps ->
  forall (st : FX25.reader) (fuel : nat),
  FX25.temp_buffer st = [] ->
  let text :=
    List.concat
      (map (fun d => Hex.write_frame_hex (snd d) (Z.of_nat (List.length (snd d))) (fst d))
           dumps) in
  (List.length text <= fuel)%nat ->
  let st' := FX25.read_loop fuel text max_packets st in
  FX25.packets st'
  = FX25.packets st
    ++ firstn (Z.to_nat (max_packets - FX25.packet_count st)) (map snd dumps)
  /\ FX25.temp_buffer st' = [].
Proof.
  induction 1 as [|d dumps Hd _ IH]; intros st fuel Htemp; cbv zeta.
  - cbn [map List.concat]. intros _. rewrite read_loop_end, firstn_nil, app_nil_r.
    split; [reflexivity|exact Htemp].
  - cbn [map List.concat]. intros Hfuel.
    destruct (Z.lt_ge_cases (FX25.packet_count st) max_packets) as [Hroom|Hfull].
    + destruct (reads_frame max_packets (snd d) (fst d) st Hd Htemp Hroom _ fuel Hfuel)
        as (fuel' & Hfuel' & E).
      rewrite E.
      specialize (IH {| FX25.packets := FX25.packets st ++ [snd d];
                        FX25.temp_buffer := [];
                        FX25.in_packet := false |} fuel' eq_refl).
      cbv zeta in IH. destruct (IH Hfuel') as [Hp Ht].
      split; [|exact Ht]. rewrite Hp.
      cbn [FX25.packets]. unfold FX25.packet_count. cbn [FX25.packets].
      rewrite length_app. cbn [List.length].
      unfold FX25.packet_count in Hroom.
      replace (Z.to_nat (max_packets - Z.of_nat (List.length (FX25.packets st))))
        with (Datatypes.S
                (Z.to_nat (max_packets
                           - Z.of_nat (List.length (FX25.packets st) + 1)))) by lia.
      cbn [firstn]. rewrite <- app_assoc. reflexivity.
    + rewrite read_loop_stop by lia.
      replace (Z.to_nat (max_packets - FX25.packet_count st)) with 0%nat by lia.
      cbn [firstn]. rewrite app_nil_r. split; [reflexivity|exact Htemp].
Qed.

Lemma read_ax25_dumps (dumps : list (Z * list Z)) (max_packets : Z) :
  Forall (fun d => readable (snd d)) dumps ->
  FX25.read_ax25
    (List.concat
       (map (fun d => Hex.write_frame_hex (snd d) (Z.of_nat (List.length (snd d))) (fst d))
            dumps))
    max_packets
  = firstn (Z.to_nat max_packets) (map snd dumps).
Proof.
  intros Hdumps. unfold FX25.read_ax25.
  destruct (read_loop_dumps max_packets dumps Hdumps
              {| FX25.packets := []; FX25.temp_buffer := []; FX25.in_packet := false |}
              _ eq_refl (Nat.le_refl _)) as [Hp Ht].
  cbv zeta.
  unfold FX25.temp_len. rewrite Ht. cbn [List.length Z.of_nat Z.ltb Z.compare].
  rewrite andb_false_r, Hp. cbn [FX25.packets app].
  unfold FX25.packet_count. cbn [FX25.packets List.length Z.of_nat].
  rewrite Z.sub_0_r. reflexivity.
Qed.

(** X21: [read_ax25] reads back what [write_frame_hex] writes.  For
    frames of 1 to 512 bytes dumped one after the other, whatever their
    packet numbers, it returns the bytes of the frames in order, the
    first [max_packets] of them; it never stores more than
    [max_packets] packets. *)
Theorem read_ax25_reads_dumps (dumps : list (Z * list Z)) (max_packets : Z) :
  Forall (fun d =>
            (1 <= List.length (snd d) <= 512)%nat
            /\ Forall (fun b => 0 <= b < 256) (snd d)) dumps ->
  let file :=
    List.concat
      (map (fun d => Hex.write_frame_hex (snd d) (Z.of_nat (List.length (snd d))) (fst d))
           dumps) in
  FX25.read_ax25 file max_packets = firstn (Z.to_nat max_packets) (map snd dumps)
  /\ Z.of_nat (List.length (FX25.read_ax25 file max_packets)) <= Z.max 0 max_packets.
Proof.
  intros Hdumps file. unfold file.
  rewrite (read_ax25_dumps dumps max_packets Hdumps).
  split; [reflexivity|]. rewrite length_firstn. lia.
Qed.

Lemma read_ax25_reads_dumps_witness :
  let dumps := [(0, [0x7E; 0x86; 0xA2]); (1, repeat 0xFF 17)] in
  let max_packets := 100 in
  let file :=
    List.concat
      (map (fun d => Hex.write_frame_hex (snd d) (Z.of_nat (List.length (snd d))) (fst d))
           dumps) in
  FX25.read_ax25 file max_packets = firstn (Z.to_nat max_packets) (map snd dumps)
  /\ Z.of_nat (List.length (FX25.read_ax25 file max_packets)) <= Z.max 0 max_packets.
Proof.
  refine (read_ax25_reads_dumps [(0, [0x7E; 0x86; 0xA2]); (1, repeat 0xFF 17)] 100 _).
  apply Forall_cons; [|apply Forall_cons; [|apply Forall_nil]].
  - split; [cbn [snd List.length]; lia|].
    cbn [snd]. repeat (apply Forall_cons; [lia|]). apply Forall_nil.
  - split; [cbn [snd]; rewrite repeat_length; lia|].
    cbn [snd]. apply Forall_forall. intros x Hx. apply repeat_spec in Hx. lia.
Defined.

(** ** From the packetizer to the FX.25 wrapper *)

Lemma encode_address_bytes (call : string) (ssid last : Z) :
  Forall is_byte (encode_address call ssid last).
Proof.
  unfold encode_address. apply Forall_app. split.
  - apply Forall_forall. intros x Hx. apply in_map_iff in Hx as (i & <- & _).
    destruct (i <? strlen call).
    + unfold is_byte, u8. apply Z.mod_pos_bound. lia.
    + unfold is_byte. cbn. lia.
  - constructor; [|constructor]. unfold is_byte, u8. apply Z.mod_pos_bound. lia.
Qed.

Lemma frame_header_in_range (type : frame_type_t) (sequence total : Z) :
  Forall is_byte (frame_header type sequence total).
Proof.
  rewrite frame_header_bytes. unfold is_byte.
  repeat (apply Forall_cons; [try (apply Z.mod_pos_bound; lia)|]);
    [destruct type; cbn; lia|constructor].
Qed.

Lemma frame_body_bytes (config : ax25_config_t) (type : frame_type_t)
    (sequence total : Z) (payload : list Z) :
  Forall is_byte payload ->
  Forall is_byte (frame_body config type sequence total payload).
Proof.
  intros H. unfold frame_body.
  apply Forall_app. split; [apply encode_address_bytes|].
  apply Forall_app. split; [apply encode_address_bytes|].
  apply Forall_app. split.
  { repeat (constructor; [unfold is_byte; lia|]). constructor. }
  apply Forall_app. split; [|exact H].
  destruct (is_message type); [constructor|apply frame_header_in_range].
Qed.

(** A frame of the packetizer: the count is the number of its bytes,
    which is the chunk and 25 more. *)
Lemma packetizer_frame_shape (config : ax25_config_t) (data : list Z) (i : Z) :
  let L := Z.of_nat (List.length data) in
  let c := packet_call L (total_packets_of L) i in
  let written :=
    frame_gen config (fc_type c) (fc_sequence c) (fc_total c)
      (skipn (Z.to_nat (fc_offset c)) data) (fc_chunk_size c) in
  0 < L -> 0 <= i < total_packets_of L -> Forall is_byte data ->
  fst written = Z.of_nat (List.length (snd written))
  /\ Z.of_nat (List.length (snd written)) = 25 + fc_chunk_size c
  /\ Forall is_byte (snd written).
Proof.
  intros L c written HL Hi Hbytes. subst written.
  destruct (packet_call_chunk L i HL Hi) as (Hsize & Hoff & Hfit & Hmsg).
  fold c in Hsize, Hoff, Hfit, Hmsg.
  rewrite frame_gen_chunk by (rewrite length_skipn; unfold L in *; lia).
  set (chunk := firstn (Z.to_nat (fc_chunk_size c)) (skipn (Z.to_nat (fc_offset c)) data)).
  assert (Hchunk : Z.of_nat (List.length chunk) = fc_chunk_size c).
  { unfold chunk. rewrite length_firstn, length_skipn. unfold L in *. lia. }
  rewrite frame_gen_bytes. cbn [fst snd].
  cbn [List.length]. rewrite length_app, length_frame_body, Hmsg.
  cbn [List.length].
  split; [lia|]. split; [lia|].
  match goal with
  | |- context [calculate_crc ?d ?n] => pose proof (calculate_crc_range d n) as Hcrc
  end.
  constructor; [unfold is_byte, AX25_FLAG; lia|].
  apply Forall_app. split.
  - apply frame_body_bytes. unfold chunk. apply Forall_firstn, Forall_skipn, Hbytes.
  - constructor; [unfold is_byte; apply Z.mod_pos_bound; lia|].
    constructor; [unfold is_byte; split; [apply Z.div_pos; lia|apply Z.div_lt_upper_bound; lia]|].
    constructor; [unfold is_byte, AX25_FLAG; lia|constructor].
Qed.

Lemma packets_file_dumps (config : ax25_config_t) (data : list Z) :
  let L := Z.of_nat (List.length data) in
  let frames := map (fun w : Z * (Z * list Z) => (fst w, snd (snd w)))
                    (snd (packetization config data L)) in
  0 < L -> Forall is_byte data ->
  Hex.packets_file config data L
  = List.concat
      (map (fun d => Hex.write_frame_hex (snd d) (Z.of_nat (List.length (snd d))) (fst d))
           frames)
  /\ Forall (fun d => readable (snd d)) frames.
Proof.
  intros L frames HL Hbytes. subst frames L. unfold Hex.packets_file.
  rewrite packetization_calls. cbn [snd]. rewrite !map_map. split.
  - f_equal. apply map_ext_in. intros i Hi. apply in_indices in Hi.
    cbv zeta. cbn [fst snd].
    destruct (packetizer_frame_shape config data i HL ltac:(lia) Hbytes) as (Hlen & _).
    cbv zeta in Hlen. rewrite Hlen. reflexivity.
  - apply Forall_map, Forall_forall. intros i Hi. apply in_indices in Hi.
    cbv zeta. cbn [fst snd].
    destruct (packetizer_frame_shape config data i HL ltac:(lia) Hbytes)
      as (_ & Hlen & Hb).
    destruct (packet_call_chunk _ i HL ltac:(lia)) as (Hsize & _).
    cbv zeta in Hlen, Hb, Hsize.
    split; [lia|exact Hb].
Qed.

Lemma packets_file_read (config : ax25_config_t) (data : list Z) (max_packets : Z) :
  let L := Z.of_nat (List.length data) in
  0 < L -> Forall is_byte data ->
  FX25.read_ax25 (Hex.packets_file config data L) max_packets
  = firstn (Z.to_nat max_packets)
      (map (fun w : Z * (Z * list Z) => snd (snd w))
           (snd (packetization config data L))).
Proof.
  intros L HL Hbytes. subst L.
  destruct (packets_file_dumps config data HL Hbytes) as [Hfile Hread].
  cbv zeta in Hfile, Hread.
  rewrite Hfile, read_ax25_dumps by exact Hread.
  rewrite map_map. reflexivity.
Qed.

(** X22: the file the packetizer writes for an input of 1 to 2147483391
    bytes (INT_MAX - 256, the lengths for which the packet count is
    computed without leaving [int]) is read back by [read_ax25]: reading
    [packets.txt] with room for 100 packets, as [main] of
    [fx25_packet.c] does, gives the bytes of the first 100 frames in
    order, and of all frames when the data has at most 25600 bytes. *)
Theorem packets_file_read_back (config : ax25_config_t) (data : list Z) :
  let L := Z.of_nat (List.length data) in
  let frames :=
    map (fun w : Z * (Z * list Z) => snd (snd w)) (snd (packetization config data L)) in
  0 < L <= 2147483391 ->
  Forall (fun b => 0 <= b < 256) data ->
  FX25.read_ax25 (Hex.packets_file config data L) 100 = firstn 100 frames
  /\ (L <= 25600 -> FX25.read_ax25 (Hex.packets_file config data L) 100 = frames).
Proof.
  intros L frames [HL _] Hbytes.
  pose proof (packets_file_read config data 100 HL Hbytes) as H.
  cbv zeta in H. fold L in H. fold frames in H.
  change (Z.to_nat 100) with 100%nat in H.
  split; [exact H|]. intros Hsmall. rewrite H. apply firstn_all2.
  unfold frames. rewrite length_map, packetization_calls. cbn [snd].
  rewrite length_map, length_indices.
  pose proof (total_packets_ceil L HL). lia.
Qed.

Lemma packets_file_read_back_witness :
  let config := n0call_to_cq in
  let data := repeat 0x55 300 in
  let L := Z.of_nat (List.length data) in
  let frames :=
    map (fun w : Z * (Z * list Z) => snd (snd w)) (snd (packetization config data L)) in
  FX25.read_ax25 (Hex.packets_file config data L) 100 = firstn 100 frames
  /\ (L <= 25600 -> FX25.read_ax25 (Hex.packets_file config data L) 100 = frames).
Proof.
  refine (packets_file_read_back n0call_to_cq (repeat 0x55 300) _ _).
  - rewrite repeat_length. lia.
  - apply Forall_forall. intros x Hx. apply repeat_spec in Hx. lia.
Defined.

(** ** The FX.25 frame *)

Lemma firstn_repeat_head {A : Type} (x : A) (a b : nat) :
  firstn a (repeat x (a + b)) = repeat x a.
Proof.
  rewrite repeat_app, firstn_app, repeat_length, Nat.sub_diag.
  rewrite firstn_all2 by (rewrite repeat_length; lia).
  cbn [firstn]. apply app_nil_r.
Qed.

Section Wrapper.

Variable encode_rs_char : list Z -> list Z.
Hypothesis parity_size : forall data, List.length (encode_rs_char data) = 32%nat.

Lemma generate_fx25_rejects (ax25_packet : list Z) (ax25_len : Z) :
  FX25.K < ax25_len ->
  FX25.generate_fx25 encode_rs_char ax25_packet ax25_len = (0, []).
Proof.
  intros H. unfold FX25.generate_fx25.
  destruct (Z.ltb_spec FX25.K ax25_len); [reflexivity|lia].
Qed.

Lemma generate_fx25_accepts (ax25_packet : list Z) :
  let ax25_len := Z.of_nat (List.length ax25_packet) in
  let data := ax25_packet ++ repeat 0 (223 - List.length ax25_packet) in
  ax25_len <= FX25.K ->
  FX25.generate_fx25 encode_rs_char ax25_packet ax25_len
  = (263, FX25.CORR_TAG ++ data ++ encode_rs_char data).
Proof.
  intros ax25_len data Hlen. unfold FX25.generate_fx25, FX25.K in *.
  destruct (Z.ltb_spec 223 ax25_len); [lia|]. cbv zeta.
  unfold ax25_len. rewrite Nat2Z.id, firstn_all.
  change (Z.to_nat 223) with 223%nat. change (Z.to_nat FX25.N) with 255%nat.
  assert (Hblock : firstn 223 (ax25_packet ++ skipn (List.length ax25_packet) (repeat 0 255))
                   = data).
  { unfold data. rewrite firstn_app.
    rewrite firstn_all2 by (unfold ax25_len in Hlen; lia). f_equal.
    unfold ax25_len in Hlen.
    replace 255%nat with (List.length ax25_packet + (255 - List.length ax25_packet))%nat
      by lia.
    rewrite skipn_repeat_tail.
    replace (255 - List.length ax25_packet)%nat
      with ((223 - List.length ax25_packet) + 32)%nat by lia.
    apply firstn_repeat_head. }
  rewrite Hblock.
  assert (Hdata : List.length data = 223%nat).
  { unfold data. rewrite length_app, repeat_length. unfold ax25_len in Hlen. lia. }
  rewrite firstn_all2 by (rewrite length_app, parity_size, Hdata; lia).
  reflexivity.
Qed.

Lemma fx25_frames_app (a b : list (list Z)) :
  FX25.fx25_frames encode_rs_char (a ++ b)
  = FX25.fx25_frames encode_rs_char a ++ FX25.fx25_frames encode_rs_char b.
Proof. unfold FX25.fx25_frames. apply flat_map_app. Qed.

Lemma fx25_frames_rejected (packets : list (list Z)) :
  Forall (fun p => FX25.K < Z.of_nat (List.length p)) packets ->
  FX25.fx25_frames encode_rs_char packets = [].
Proof.
  induction 1 as [|p packets Hp _ IH]; [reflexivity|].
  unfold FX25.fx25_frames in *. cbn [flat_map].
  rewrite generate_fx25_rejects by exact Hp. rewrite IH. reflexivity.
Qed.

End Wrapper.

(** X23: [generate_fx25] refuses a packet of more than 223 bytes: it
    returns 0 and writes nothing.  Otherwise it returns 263 and the frame
    is the correlation tag, the packet, zero bytes up to 223, and the 32
    parity bytes the libfec encoder computes for those 223 bytes. *)
Theorem generate_fx25_layout (encode_rs_char : list Z -> list Z)
    (ax25_packet : list Z) :
  (forall data, List.length (encode_rs_char data) = 32%nat) ->
  let ax25_len := Z.of_nat (List.length ax25_packet) in
  let data := ax25_packet ++ repeat 0 (223 - List.length ax25_packet) in
  let result := FX25.generate_fx25 encode_rs_char ax25_packet ax25_len in
  (223 < ax25_len -> result = (0, []))
  /\ (ax25_len <= 223 ->
      result = (263, FX25.CORR_TAG ++ data ++ encode_rs_char data)
      /\ List.length (snd result) = 263%nat
      /\ firstn (List.length ax25_packet) (skipn 8 (snd result)) = ax25_packet).
Proof.
  intros Hparity ax25_len data result. subst result data ax25_len. split.
  - intros H. apply generate_fx25_rejects. exact H.
  - intros H.
    rewrite (generate_fx25_accepts encode_rs_char Hparity ax25_packet H).
    split; [reflexivity|]. cbn [snd]. split.
    + rewrite !length_app, Hparity, repeat_length.
      cbn [FX25.CORR_TAG List.length]. lia.
    + change (skipn 8 (FX25.CORR_TAG ++ ?l)) with l.
      rewrite <- app_assoc, firstn_app, Nat.sub_diag, firstn_all.
      cbn [firstn]. apply app_nil_r.
Qed.

Lemma generate_fx25_layout_witness :
  let encode_rs_char := fun _ : list Z => repeat 0 32 in
  let ax25_packet := [0x7E; 0x86; 0xA2; 0x7E] in
  let ax25_len := Z.of_nat (List.length ax25_packet) in
  let data := ax25_packet ++ repeat 0 (223 - List.length ax25_packet) in
  let result := FX25.generate_fx25 encode_rs_char ax25_packet ax25_len in
  (223 < ax25_len -> result = (0, []))
  /\ (ax25_len <= 223 ->
      result = (263, FX25.CORR_TAG ++ data ++ encode_rs_char data)
      /\ List.length (snd result) = 263%nat
      /\ firstn (List.length ax25_packet) (skipn 8 (snd result)) = ax25_packet).
Proof.
  refine (generate_fx25_layout (fun _ => repeat 0 32) [0x7E; 0x86; 0xA2; 0x7E] _).
  intros data. reflexivity.
Defined.

(** X24: of the frames the packetizer writes for a payload of at most
    25600 bytes, [main] of [fx25_packet.c] turns at most one into an
    FX.25 frame.  [read_ax25] gives one frame for each packet; every
    frame before the last carries a full chunk of 256 bytes, has 281
    bytes and is refused by [generate_fx25], which returns 0 and writes
    nothing; the last frame has 25 bytes more than its chunk, is refused
    too when the chunk has more than 198 bytes, and otherwise is the one
    frame written: the correlation tag, the frame, zero bytes up to 223
    and the parity of those 223 bytes. *)
Theorem only_a_short_last_frame_is_wrapped (encode_rs_char : list Z -> list Z)
    (config : ax25_config_t) (data : list Z) :
  (forall d, List.length (encode_rs_char d) = 32%nat) ->
  let L := Z.of_nat (List.length data) in
  let total := total_packets_of L in
  let last_chunk := L - 256 * (total - 1) in
  let frames := FX25.read_ax25 (Hex.packets_file config data L) 100 in
  let last_frame := nth (Z.to_nat (total - 1)) frames [] in
  let block := last_frame ++ repeat 0 (223 - List.length last_frame) in
  0 < L <= 25600 ->
  Forall (fun b => 0 <= b < 256) data ->
  List.length (FX25.fx25_frames encode_rs_char frames)
  = (if last_chunk <=? 198 then 1%nat else 0%nat)
  /\ List.length frames = Z.to_nat total
  /\ 0 < last_chunk <= 256
  /\ (forall i, (i < Z.to_nat total - 1)%nat ->
        List.length (nth i frames []) = 281%nat
        /\ FX25.generate_fx25 encode_rs_char (nth i frames [])
             (Z.of_nat (List.length (nth i frames []))) = (0, []))
  /\ Z.of_nat (List.length last_frame) = 25 + last_chunk
  /\ FX25.generate_fx25 encode_rs_char last_frame (Z.of_nat (List.length last_frame))
     = (if last_chunk <=? 198
        then (263, FX25.CORR_TAG ++ block ++ encode_rs_char block)
        else (0, []))
  /\ FX25.fx25_frames encode_rs_char frames
     = (if last_chunk <=? 198
        then [FX25.CORR_TAG ++ block ++ encode_rs_char block]
        else []).
Proof.
  intros Hparity L total last_chunk frames last_frame block HL Hbytes.
  pose proof (packets_file_read config data 100 ltac:(fold L; lia) Hbytes) as Hread.
  cbv zeta in Hread. fold L in Hread. fold frames in Hread.
  pose proof (total_packets_ceil L ltac:(lia)) as Hceil. fold total in Hceil.
  rewrite firstn_all2 in Hread.
  2: { rewrite length_map, packetization_calls. cbn [snd].
       rewrite length_map, length_indices. change (Z.to_nat 100) with 100%nat.
       fold total. lia. }
  rewrite packetization_calls in Hread. cbn [snd] in Hread. fold total in Hread.
  rewrite map_map in Hread. cbn [snd] in Hread.
  set (frame := fun packet : Z =>
         snd (let c := packet_call L total packet in
              frame_gen config (fc_type c) (fc_sequence c) (fc_total c)
                (skipn (Z.to_nat (fc_offset c)) data) (fc_chunk_size c))).
  change (map _ (indices (Z.to_nat total)))
    with (map frame (indices (Z.to_nat total))) in Hread.
  assert (Hframe : forall i, 0 <= i < total ->
            Z.of_nat (List.length (frame i))
            = 25 + fc_chunk_size (packet_call L total i)).
  { intros i Hi. unfold frame.
    exact (proj1 (proj2 (packetizer_frame_shape config data i ltac:(fold L; lia) Hi Hbytes))). }
  assert (Hfull : forall i, 0 <= i < total - 1 ->
            Z.of_nat (List.length (frame i)) = 281).
  { intros i Hi. rewrite Hframe by lia. unfold packet_call, MAX_PAYLOAD.
    cbn [fc_chunk_size]. destruct (Z.ltb_spec L (i * 256 + 256)); lia. }
  assert (Hlast : Z.of_nat (List.length (frame (total - 1))) = 25 + last_chunk).
  { rewrite Hframe by lia. unfold packet_call, MAX_PAYLOAD, last_chunk.
    cbn [fc_chunk_size].
    destruct (Z.ltb_spec L ((total - 1) * 256 + 256)); lia. }
  assert (Hnth : forall i, (i < Z.to_nat total)%nat ->
            nth i frames [] = frame (Z.of_nat i)).
  { intros i Hi. rewrite Hread. apply nth_map_indices, Hi. }
  assert (Hlf : last_frame = frame (total - 1)).
  { unfold last_frame. rewrite Hnth by lia. f_equal. lia. }
  assert (Hgen : FX25.generate_fx25 encode_rs_char last_frame
                   (Z.of_nat (List.length last_frame))
                 = (if last_chunk <=? 198
                    then (263, FX25.CORR_TAG ++ block ++ encode_rs_char block)
                    else (0, []))).
  { destruct (Z.leb_spec last_chunk 198) as [Hshort|Hlong].
    - apply (generate_fx25_accepts encode_rs_char Hparity).
      rewrite Hlf, Hlast. unfold FX25.K. lia.
    - apply generate_fx25_rejects. rewrite Hlf, Hlast. unfold FX25.K. lia. }
  assert (Hall : FX25.fx25_frames encode_rs_char frames
                 = (if last_chunk <=? 198
                    then [FX25.CORR_TAG ++ block ++ encode_rs_char block]
                    else [])).
  { rewrite Hread.
    replace (Z.to_nat total) with (Datatypes.S (Z.to_nat (total - 1))) by lia.
    rewrite indices_last, map_app, fx25_frames_app.
    rewrite fx25_frames_rejected.
    2: { apply Forall_map, Forall_forall. intros i Hi. apply in_indices in Hi.
         rewrite Hfull by lia. unfold FX25.K. lia. }
    cbn [map app]. unfold FX25.fx25_frames. cbn [flat_map].
    rewrite app_nil_r.
    replace (Z.of_nat (Z.to_nat (total - 1))) with (total - 1) by lia.
    rewrite <- Hlf, Hgen.
    destruct (last_chunk <=? 198); reflexivity. }
  split; [rewrite Hall; destruct (last_chunk <=? 198); reflexivity|].
  split; [rewrite Hread, length_map, length_indices; reflexivity|].
  split; [unfold last_chunk; lia|].
  split.
  { intros i Hi. rewrite Hnth by lia.
    pose proof (Hfull (Z.of_nat i) ltac:(lia)) as H281.
    split; [lia|].
    apply generate_fx25_rejects. rewrite H281. unfold FX25.K. lia. }
  split; [rewrite Hlf; exact Hlast|].
  split; [exact Hgen|exact Hall].
Qed.

(** X24 at 300 bytes of payload: two frames are read, the first of 281
    bytes is refused, the second carries 44 bytes and is the one
    wrapped. *)
Lemma only_a_short_last_frame_is_wrapped_witness :
  let encode_rs_char := fun _ : list Z => repeat 0 32 in
  let frames :=
    FX25.read_ax25 (Hex.packets_file n0call_to_cq (repeat 0x55 300) 300) 100 in
  List.length (FX25.fx25_frames encode_rs_char frames) = 1%nat
  /\ List.length frames = 2%nat
  /\ List.length (nth 0 frames []) = 281%nat
  /\ FX25.generate_fx25 encode_rs_char (nth 0 frames []) 281 = (0, [])
  /\ List.length (nth 1 frames []) = 69%nat.
Proof.
  cbv zeta.
  pose proof (only_a_short_last_frame_is_wrapped (fun _ => repeat 0 32) n0call_to_cq
                (repeat 0x55 300) (fun _ => eq_refl)) as H.
  cbv zeta in H.
  assert (E : Z.of_nat (List.length (repeat 0x55 300)) = 300)
    by (rewrite repeat_length; reflexivity).
  rewrite E in H.
  change (total_packets_of 300) with 2 in H.
  specialize (H ltac:(lia)
                ltac:(apply Forall_forall; intros x Hx; apply repeat_spec in Hx; lia)).
  destruct H as (Hcount & Hlen & _ & Hfirst & Hlast & _).
  destruct (Hfirst 0%nat ltac:(simpl; lia)) as [H281 Hrefused].
  rewrite H281 in Hrefused.
  split; [exact Hcount|]. split; [exact Hlen|]. split; [exact H281|].
  split; [exact Hrefused|]. change (Z.to_nat (2 - 1)) with 1%nat in Hlast. lia.
Defined.

(** ** The locator of [berlekamp_massey] *)

Lemma for_loop_invariant {S : Type} (I : S -> Prop) (n : nat) (start step : Z)
    (f : Z -> S -> S) (s : S) :
  I s -> (forall i s', I s' -> I (f i s')) -> I (for_loop n start step f s).
Proof.
  intros Hs Hf.
  apply (for_loop_ext_inv I n step f f start s Hs).
  intros k s' _ Hs'. split; [reflexivity|apply Hf, Hs'].
Qed.

Section Locator.

Variable stray : Z -> Z.

(** What the main loop keeps true before round [k]: [deg_prev] stays 0,
    [deg_lambda] is below [k] (0 in round 0), and [lambda] is zero above
    [deg_lambda]. *)
Lemma bm_step_invariant (syndromes : list Z) (k : Z) (st : bm_state) :
  0 <= k ->
  List.length (bm_lambda st) = 33%nat ->
  bm_deg_prev st = 0 ->
  0 <= bm_deg_lambda st <= Z.max 0 (k - 1) ->
  (forall j, bm_deg_lambda st < j -> byte_at (bm_lambda st) j = 0) ->
  let st' := bm_step stray syndromes k st in
  List.length (bm_lambda st') = 33%nat
  /\ bm_deg_prev st' = 0
  /\ 0 <= bm_deg_lambda st' <= k
  /\ (forall j, bm_deg_lambda st' < j -> byte_at (bm_lambda st') j = 0).
Proof.
  intros Hk Hlen Hprev Hdeg Hzero. cbv zeta. unfold bm_step. cbv zeta.
  destruct (_ =? 0); [repeat split; try assumption; lia|].
  rewrite Hprev. change (Z.to_nat (0 + 1)) with 1%nat. cbn [for_loop].
  replace (0 + (k - 0)) with k by lia.
  match goal with
  | |- context [if byte_at (bm_prev_lambda st) 0 =? 0 then bm_lambda st else ?l] =>
      set (lambda' := if byte_at (bm_prev_lambda st) 0 =? 0 then bm_lambda st else l)
  end.
  assert (Hlen' : List.length lambda' = 33%nat).
  { unfold lambda'. destruct (_ =? 0); [exact Hlen|].
    destruct (k <=? PARITY); [rewrite length_store|]; exact Hlen. }
  assert (Hother : forall j, 0 <= j -> j <> k -> byte_at lambda' j = byte_at (bm_lambda st) j).
  { intros j Hj Hjk. unfold lambda'. destruct (_ =? 0); [reflexivity|].
    destruct (k <=? PARITY); [|reflexivity].
    apply byte_at_store_other; [exact Hj|lia]. }
  destruct (Z.ltb_spec (bm_deg_lambda st) k) as [Hlt|Hge];
    cbn [bm_lambda bm_deg_prev bm_deg_lambda].
  - split; [exact Hlen'|]. split; [lia|]. split; [lia|].
    intros j Hj. rewrite Hother by lia. apply Hzero. lia.
  - split; [exact Hlen'|]. split; [lia|]. split; [lia|].
    intros j Hj. rewrite Hother by lia. apply Hzero, Hj.
Qed.

Lemma bm_loop_invariant (syndromes : list Z) (n : nat) :
  let st :=
    for_loop n 0 1 (bm_step stray syndromes)
      {| bm_lambda := store (repeat 0 33) 0 1;
         bm_prev_lambda := store (repeat 0 33) 0 1;
         bm_deg_lambda := 0; bm_deg_prev := 0 |} in
  List.length (bm_lambda st) = 33%nat
  /\ bm_deg_prev st = 0
  /\ 0 <= bm_deg_lambda st <= Z.max 0 (Z.of_nat n - 1)
  /\ (forall j, bm_deg_lambda st < j -> byte_at (bm_lambda st) j = 0).
Proof.
  induction n as [|n IH]; cbv zeta.
  - cbn [for_loop bm_lambda bm_deg_prev bm_deg_lambda].
    split; [reflexivity|]. split; [reflexivity|]. split; [lia|].
    intros j Hj. rewrite byte_at_store_other by lia. apply byte_at_repeat_zero.
  - rewrite for_loop_last. replace (0 + Z.of_nat n * 1) with (Z.of_nat n) by lia.
    cbv zeta in IH. destruct IH as (Hlen & Hprev & Hdeg & Hzero).
    destruct (bm_step_invariant syndromes (Z.of_nat n) _ ltac:(lia) Hlen Hprev Hdeg Hzero)
      as (Hlen' & Hprev' & Hdeg' & Hzero').
    split; [exact Hlen'|]. split; [exact Hprev'|]. split; [lia|exact Hzero'].
Qed.

Lemma length_omega_loop (syndromes lambda : list Z) (deg_lambda : Z) (omega : list Z) :
  List.length
    (for_loop (Z.to_nat PARITY) 0 1
       (fun i omega =>
          for_loop (Z.to_nat (Z.min deg_lambda i + 1)) 0 1
            (fun j omega =>
               store omega i
                 (Z.lxor (byte_at omega i)
                    (gf_mult stray (byte_at syndromes (i - j)) (byte_at lambda j))))
            omega)
       omega)
  = List.length omega.
Proof.
  apply (for_loop_invariant (fun o => List.length o = List.length omega)); [reflexivity|].
  intros i o Ho.
  apply (for_loop_invariant (fun o => List.length o = List.length omega)); [exact Ho|].
  intros j o' Ho'. rewrite length_store. exact Ho'.
Qed.

End Locator.

(** X25: called as [rs_decode_block] calls it, on zeroed arrays,
    [berlekamp_massey] returns a degree from 0 to 31 and a locator of 33
    coefficients that are zero above that degree; [omega] keeps its 32
    bytes. *)
Theorem berlekamp_massey_degree (stray : Z -> Z) (syndromes : list Z) :
  let result := berlekamp_massey stray syndromes (repeat 0 33) (repeat 0 32) in
  let lambda := fst (fst result) in
  let omega := snd (fst result) in
  let deg_lambda := snd result in
  0 <= deg_lambda <= 31
  /\ List.length lambda = 33%nat
  /\ List.length omega = 32%nat
  /\ (forall j, deg_lambda < j -> byte_at lambda j = 0).
Proof.
  cbv zeta. unfold berlekamp_massey. cbv zeta. cbn [fst snd].
  destruct (bm_loop_invariant stray syndromes (Z.to_nat PARITY))
    as (Hlen & _ & Hdeg & Hzero).
  cbv zeta in Hlen, Hdeg, Hzero.
  change (Z.of_nat (Z.to_nat PARITY) - 1) with 31 in Hdeg.
  split; [lia|]. split; [exact Hlen|]. split; [|exact Hzero].
  rewrite length_omega_loop. reflexivity.
Qed.

(** ** Syndromes of a sum *)

Lemma byte_at_xor_words (a b : list Z) (i : Z) :
  List.length a = List.length b -> 0 <= i < Z.of_nat (List.length a) ->
  byte_at (xor_words a b) i = Z.lxor (byte_at a i) (byte_at b i).
Proof.
  intros Hlen Hi. unfold byte_at, xor_words.
  rewrite nth_indep with (d' := Z.lxor (fst (0, 0)) (snd (0, 0)))
    by (rewrite length_map, length_combine; lia).
  rewrite (map_nth (fun p => Z.lxor (fst p) (snd p)) (combine a b) (0, 0)).
  rewrite combine_nth by exact Hlen. reflexivity.
Qed.

Section Linearity.

Variable stray : Z -> Z.

Lemma compute_syndromes_xor (a b : list Z) :
  List.length a = Z.to_nat N -> List.length b = Z.to_nat N ->
  Forall is_byte a -> Forall is_byte b ->
  compute_syndromes stray (xor_words a b)
  = xor_words (compute_syndromes stray a) (compute_syndromes stray b).
Proof.
  intros Ha Hb Hab Hbb. apply list_eq_byte_at.
  - rewrite length_xor_words, !length_compute_syndromes. reflexivity.
  - intros i Hi. rewrite length_compute_syndromes in Hi.
    rewrite byte_at_xor_words;
      [|rewrite !length_compute_syndromes; reflexivity
       |rewrite length_compute_syndromes; lia].
    rewrite !compute_syndromes_evaluates; try assumption; try (unfold PARITY; lia).
    + pose proof (alpha_power_byte i) as Hr.
      apply poly_eval_sum; try assumption; [lia|congruence].
    + rewrite length_xor_words, Ha, Hb. apply Nat.min_id.
    + apply Forall_xor_words; assumption.
Qed.

Lemma xor_words_zero_l (n : nat) (l : list Z) :
  List.length l = n -> xor_words (repeat 0 n) l = l.
Proof.
  revert l. induction n as [|n IH]; intros l Hl.
  - destruct l; [reflexivity|discriminate].
  - destruct l as [|x l]; [discriminate|].
    unfold xor_words in *. cbn [repeat combine map fst snd].
    rewrite IH by (cbn [List.length] in Hl; lia). reflexivity.
Qed.

End Linearity.

(** X26: the syndromes are linear: those of the symbol-wise sum of two
    words of 255 bytes are the sums of their syndromes.  So when a word
    whose syndromes are all zero is hit by an error pattern, the decoder
    works from the syndromes of the error pattern alone. *)
Theorem syndromes_of_the_error_only (stray : Z -> Z) (word error : list Z) :
  List.length word = Z.to_nat N -> List.length error = Z.to_nat N ->
  Forall (fun b => 0 <= b < 256) word ->
  Forall (fun b => 0 <= b < 256) error ->
  compute_syndromes stray (xor_words word error)
  = xor_words (compute_syndromes stray word) (compute_syndromes stray error)
  /\ (compute_syndromes stray word = repeat 0 32 ->
      compute_syndromes stray (xor_words word error)
      = compute_syndromes stray error).
Proof.
  intros Hw He Hwb Heb.
  pose proof (compute_syndromes_xor stray word error Hw He Hwb Heb) as H.
  split; [exact H|]. intros Hz. rewrite H, Hz.
  apply xor_words_zero_l, length_compute_syndromes.
Qed.

Lemma syndromes_of_the_error_only_witness :
  let stray := fun _ : Z => 0 in
  let word := generator ++ repeat 0 222 in
  let error := repeat 0 100 ++ [1] ++ repeat 0 154 in
  compute_syndromes stray (xor_words word error)
  = xor_words (compute_syndromes stray word) (compute_syndromes stray error)
  /\ (compute_syndromes stray word = repeat 0 32 ->
      compute_syndromes stray (xor_words word error)
      = compute_syndromes stray error).
Proof.
  refine (syndromes_of_the_error_only (fun _ => 0) (generator ++ repeat 0 222)
            (repeat 0 100 ++ [1] ++ repeat 0 154) _ _ _ _).
  - vm_compute. reflexivity.
  - vm_compute. reflexivity.
  - apply Forall_app. split; [apply generator_bytes|].
    apply Forall_forall. intros x Hx. apply repeat_spec in Hx. lia.
  - apply Forall_app. split; [|apply Forall_app; split].
    + apply Forall_forall. intros x Hx. apply repeat_spec in Hx. lia.
    + constructor; [lia|constructor].
    + apply Forall_forall. intros x Hx. apply repeat_spec in Hx. lia.
Defined.

(** ** [read_ax25] on any file *)

Lemma u8_is_byte (x : Z) : is_byte (u8 x).
Proof. unfold is_byte, u8. apply Z.mod_pos_bound. lia. Qed.

Lemma parse_hex_bounded (n : nat) : forall (line : list Z) (max_len : Z),
  (List.length line <= n)%nat ->
  (List.length (FX25.parse_hex line max_len) <= Z.to_nat max_len)%nat
  /\ Forall is_byte (FX25.parse_hex line max_len).
Proof.
  induction n as [|n IH]; intros line max_len Hn.
  - destruct line; [|cbn [List.length] in Hn; lia].
    split; [cbn; lia|constructor].
  - destruct line as [|c rest]; [split; [cbn; lia|constructor]|].
    cbn [List.length] in Hn. cbn [FX25.parse_hex].
    destruct (Z.leb_spec max_len 0) as [Hfull|Hroom]; [split; [cbn; lia|constructor]|].
    destruct (FX25.is_space c); [apply IH; lia|].
    destruct (FX25.is_hex c); cbn [negb]; [|apply IH; lia].
    destruct rest as [|c2 rest'].
    + split; [cbn [List.length]; lia|constructor; [apply u8_is_byte|constructor]].
    + destruct (FX25.is_hex c2).
      * destruct (IH rest' (max_len - 1) ltac:(cbn [List.length] in Hn; lia)) as [Hl Hb].
        split; [cbn [List.length]; lia|constructor; [apply u8_is_byte|exact Hb]].
      * destruct (IH (c2 :: rest') (max_len - 1) ltac:(lia)) as [Hl Hb].
        split; [cbn [List.length]; lia|constructor; [apply u8_is_byte|exact Hb]].
Qed.

Lemma read_line_in_bounds (max_packets : Z) (st : FX25.reader) (line : list Z) :
  reader_in_bounds max_packets st ->
  FX25.packet_count st < max_packets ->
  reader_in_bounds max_packets (FX25.read_line st line).
Proof.
  intros (Hcount & Hfull & Htemp & Hbytes & Hpackets) Hroom.
  assert (Hsave : forall (t : list Z) (flag : bool),
            (1 <= List.length t <= 512)%nat -> Forall is_byte t ->
            reader_in_bounds max_packets
              {| FX25.packets := FX25.packets st ++ [t];
                 FX25.temp_buffer := []; FX25.in_packet := flag |}).
  { intros t flag Ht Hb. unfold reader_in_bounds, FX25.packet_count in *.
    cbn [FX25.packets FX25.temp_buffer]. rewrite length_app. cbn [List.length].
    split; [lia|]. split; [reflexivity|]. split; [lia|]. split; [constructor|].
    apply Forall_app. split; [exact Hpackets|]. constructor; [|constructor].
    split; assumption. }
  assert (Hkeep : forall (t : list Z) (flag : bool),
            (List.length t <= 512)%nat -> Forall is_byte t ->
            reader_in_bounds max_packets
              {| FX25.packets := FX25.packets st;
                 FX25.temp_buffer := t; FX25.in_packet := flag |}).
  { intros t flag Ht Hb. unfold reader_in_bounds, FX25.packet_count in *.
    cbn [FX25.packets FX25.temp_buffer].
    split; [lia|]. split; [lia|]. split; [exact Ht|]. split; [exact Hb|exact Hpackets]. }
  unfold FX25.read_line.
  destruct (FX25.strstr line (chars "Packet") && FX25.strstr line (chars "bytes")).
  - destruct (FX25.in_packet st && (0 <? FX25.temp_len st)) eqn:E.
    + apply andb_true_iff in E as [_ E]. apply Z.ltb_lt in E.
      unfold FX25.temp_len in E. cbn [FX25.packets FX25.temp_buffer].
      apply Hsave; [lia|exact Hbytes].
    + apply Hkeep; assumption.
  - destruct (FX25.in_packet st) eqn:Hin.
    + cbv zeta.
      destruct (parse_hex_bounded (List.length line) line
                  (FX25.MAX_FRAME_SIZE - FX25.temp_len st) (Nat.le_refl _))
        as [Hl Hb].
      set (parsed := FX25.parse_hex line (FX25.MAX_FRAME_SIZE - FX25.temp_len st)) in *.
      unfold FX25.temp_len, FX25.MAX_FRAME_SIZE in Hl.
      assert (Hroom' : (List.length (FX25.temp_buffer st ++ parsed) <= 512)%nat)
        by (rewrite length_app; lia).
      assert (Hbytes' : Forall is_byte (FX25.temp_buffer st ++ parsed))
        by (apply Forall_app; split; assumption).
      unfold FX25.temp_len at 1. cbn [FX25.temp_buffer FX25.packets].
      destruct ((Z.of_nat (List.length line) <=? 1)
                && (0 <? Z.of_nat (List.length (FX25.temp_buffer st ++ parsed)))) eqn:E.
      * apply andb_true_iff in E as [_ E]. apply Z.ltb_lt in E.
        apply Hsave; [lia|exact Hbytes'].
      * apply Hkeep; assumption.
    + unfold reader_in_bounds. repeat split; assumption.
Qed.

Lemma read_loop_in_bounds (max_packets : Z) (fuel : nat) :
  forall (file : list Z) (st : FX25.reader),
  reader_in_bounds max_packets st ->
  reader_in_bounds max_packets (FX25.read_loop fuel file max_packets st).
Proof.
  induction fuel as [|fuel IH]; intros file st Hst; [exact Hst|].
  destruct file as [|c rest]; [exact Hst|].
  rewrite read_loop_unfold by discriminate.
  destruct (Z.ltb_spec (FX25.packet_count st) max_packets) as [Hroom|Hfull];
    [|exact Hst].
  apply IH, read_line_in_bounds; assumption.
Qed.

Lemma fgets_takes (size : nat) : forall file : list Z,
  file <> [] ->
  (List.length (snd (FX25.fgets (Datatypes.S size) file)) < List.length file)%nat.
Proof.
  induction size as [|size IH]; intros file Hfile.
  - destruct file as [|c rest]; [congruence|]. cbn [FX25.fgets].
    destruct (c =? 10); cbn [snd List.length]; [lia|].
    destruct rest; cbn [FX25.fgets snd List.length]; lia.
  - destruct file as [|c rest]; [congruence|].
    change (FX25.fgets (Datatypes.S (Datatypes.S size)) (c :: rest))
      with (if c =? 10 then ([c], rest)
            else let '(line, rest') := FX25.fgets (Datatypes.S size) rest in
                 (c :: line, rest')).
    destruct (c =? 10); [cbn [snd List.length]; lia|].
    destruct rest as [|c' rest']; [cbn [FX25.fgets snd List.length]; lia|].
    specialize (IH (c' :: rest') ltac:(discriminate)).
    destruct (FX25.fgets (Datatypes.S size) (c' :: rest')) as [line r].
    cbn [snd List.length] in *. lia.
Qed.

(** A fuel of the length of the file is as good as any larger one: the
    loop ends at the end of the file. *)
Lemma read_loop_fuel (max_packets : Z) (fuel1 : nat) :
  forall (fuel2 : nat) (file : list Z) (st : FX25.reader),
  (List.length file <= fuel1)%nat -> (List.length file <= fuel2)%nat ->
  FX25.read_loop fuel1 file max_packets st = FX25.read_loop fuel2 file max_packets st.
Proof.
  induction fuel1 as [|fuel1 IH]; intros fuel2 file st H1 H2.
  - destruct file; [|cbn [List.length] in H1; lia].
    rewrite !read_loop_end. reflexivity.
  - destruct file as [|c rest]; [rewrite !read_loop_end; reflexivity|].
    destruct fuel2 as [|fuel2]; [cbn [List.length] in H2; lia|].
    rewrite !read_loop_unfold by discriminate.
    destruct (FX25.packet_count st <? max_packets); [|reflexivity].
    pose proof (fgets_takes 1022 (c :: rest) ltac:(discriminate)) as Hless.
    apply IH; cbn [List.length] in *; lia.
Qed.

(** X27: whatever the file holds, [read_ax25] stays inside its arrays:
    it stores at most [max_packets] packets, and each of them has from 1
    to 512 bytes. *)
Theorem read_ax25_stays_in_bounds (file : list Z) (max_packets : Z) :
  let packets := FX25.read_ax25 file max_packets in
  Z.of_nat (List.length packets) <= Z.max 0 max_packets
  /\ Forall (fun p =>
               (1 <= List.length p <= 512)%nat
               /\ Forall (fun b => 0 <= b < 256) p) packets.
Proof.
  cbv zeta. unfold FX25.read_ax25. cbv zeta.
  assert (Hinit : reader_in_bounds max_packets
                    {| FX25.packets := []; FX25.temp_buffer := [];
                       FX25.in_packet := false |}).
  { unfold reader_in_bounds, FX25.packet_count. cbn [FX25.packets FX25.temp_buffer List.length].
    split; [lia|]. split; [reflexivity|]. split; [lia|]. split; constructor. }
  destruct (read_loop_in_bounds max_packets (List.length file) file _ Hinit)
    as (Hcount & Hfull & Htemp & Hbytes & Hpackets).
  set (st := FX25.read_loop (List.length file) file max_packets _) in *.
  unfold FX25.packet_count in *.
  destruct (FX25.in_packet st && (0 <? FX25.temp_len st)) eqn:E.
  - apply andb_true_iff in E as [_ E]. apply Z.ltb_lt in E. unfold FX25.temp_len in E.
    assert (Hroom : Z.of_nat (List.length (FX25.packets st)) < max_packets).
    { destruct (Z.lt_ge_cases (Z.of_nat (List.length (FX25.packets st))) max_packets)
        as [H|H]; [exact H|].
      rewrite (Hfull H) in E. cbn [List.length] in E. lia. }
    rewrite length_app. cbn [List.length]. split; [lia|].
    apply Forall_app. split; [exact Hpackets|]. constructor; [|constructor].
    split; [lia|exact Hbytes].
  - split; [exact Hcount|exact Hpackets].
Qed.
